(** * ghospel: the batch transcription pipeline, embedded and verified

    A shallow embedding of the Go sources of ghospel

    - package transcription: formatter.go (TextFormatter) and the Service
    - package whisper: Client.Transcribe
    - package models: Manager.Download
    - package audio: Processor.ConvertToWav and Cleanup

    Go strings are modelled as lists of runes (Unicode code points, as [Z]):
    the regular expressions, [strings.Fields] and [strings.TrimSpace] of the
    sources all work rune by rune.  The file system is a finite map from
    paths to nodes; the external programs (ffmpeg, whisper-cli) and the
    network are answers recorded in an environment. *)

From stdpp Require Import gmap list strings.
From Stdlib Require Import ZArith Lia.

(** ** Go strings *)

Module GoStrings.

Abbreviation rune := Z (only parsing).
Abbreviation gostring := (list Z) (only parsing).

(** A string literal of the sources, as runes (ASCII literals only). *)
Definition go (s : string) : gostring :=
  map (fun a => Z.of_N (Ascii.N_of_ascii a)) (String.list_ascii_of_string s).

Definition streq (a b : gostring) : bool := bool_decide (a = b).

(** unicode.IsSpace *)
Definition isSpace (r : rune) : bool :=
  ((9 <=? r) && (r <=? 13) || (r =? 32) || (r =? 133) || (r =? 160)
   || (r =? 5760) || (8192 <=? r) && (r <=? 8202) || (r =? 8232) || (r =? 8233)
   || (r =? 8239) || (r =? 8287) || (r =? 12288))%Z.

(** The class \s of package regexp: [\t\n\f\r ] (no vertical tab). *)
Definition isReSpace (r : rune) : bool :=
  ((r =? 9) || (r =? 10) || (r =? 12) || (r =? 13) || (r =? 32))%Z.

(** The class [.!?] *)
Definition isTerminal (r : rune) : bool :=
  ((r =? 46) || (r =? 33) || (r =? 63))%Z.

(** The class [A-Z] *)
Definition isUpperAZ (r : rune) : bool := ((65 <=? r) && (r <=? 90))%Z.

Definition SP : rune := 32%Z.
Definition NL : rune := 10%Z.
Definition DOT : rune := 46%Z.
Definition BANG : rune := 33%Z.
Definition QUERY : rune := 63%Z.

Fixpoint takeWhile (p : rune -> bool) (s : gostring) : gostring :=
  match s with
  | [] => []
  | c :: s' => if p c then c :: takeWhile p s' else []
  end.

Fixpoint dropWhile (p : rune -> bool) (s : gostring) : gostring :=
  match s with
  | [] => []
  | c :: s' => if p c then dropWhile p s' else s
  end.

(** strings.TrimSpace *)
Definition TrimSpace (s : gostring) : gostring :=
  rev (dropWhile isSpace (rev (dropWhile isSpace s))).

(** strings.Fields: the maximal runs of non-space runes, in order. *)
Fixpoint Fields (s : gostring) : list gostring :=
  match s with
  | [] => []
  | c :: s' =>
      if isSpace c then Fields s'
      else match s' with
           | [] => [[c]]
           | d :: _ =>
               if isSpace d then [c] :: Fields s'
               else match Fields s' with
                    | w :: ws => (c :: w) :: ws
                    | [] => [[c]]
                    end
           end
  end.

(** strings.Join *)
Fixpoint Join (elems : list gostring) (sep : gostring) : gostring :=
  match elems with
  | [] => []
  | [e] => e
  | e :: es => e ++ sep ++ Join es sep
  end.

(** strings.Split with a separator of one rune: the pieces between the
    occurrences of the separator; never an empty list. *)
Fixpoint Split (s : gostring) (sep : rune) : list gostring :=
  match s with
  | [] => [[]]
  | c :: s' =>
      if (c =? sep)%Z then [] :: Split s' sep
      else match Split s' sep with
           | p :: ps => (c :: p) :: ps
           | [] => [[c]]
           end
  end.

(** strings.HasPrefix *)
Fixpoint HasPrefix (s prefix : gostring) : bool :=
  match prefix, s with
  | [], _ => true
  | p :: prefix', c :: s' => (c =? p)%Z && HasPrefix s' prefix'
  | _ :: _, [] => false
  end.

(** strings.Contains *)
Fixpoint Contains (s substr : gostring) : bool :=
  HasPrefix s substr ||
  match s with
  | [] => false
  | _ :: s' => Contains s' substr
  end.

(** strings.SplitN(s, sep, 2) with a separator of one rune: the text before
    the first separator and the text after it, or the whole string alone. *)
Fixpoint SplitN2 (s : gostring) (sep : rune) : list gostring :=
  match s with
  | [] => [[]]
  | c :: s' =>
      if (c =? sep)%Z then [[]; s']
      else match SplitN2 s' sep with
           | p :: ps => (c :: p) :: ps
           | [] => [[c]]
           end
  end.

(** Replacement of all leftmost, non-overlapping matches, as
    Regexp.ReplaceAllString and strings.ReplaceAll do it.  [m s] tells
    whether a match starts at the head of [s]: it gives the replacement and
    the text after the match.  Where no match starts the head rune is copied.
    Every matcher below consumes at least one rune, so [length s] steps of
    fuel reach the end of the text. *)
Fixpoint replaceLoop (m : gostring -> option (gostring * gostring))
    (fuel : nat) (s : gostring) : gostring :=
  match fuel with
  | O => s
  | S fuel' =>
      match s with
      | [] => []
      | c :: s' =>
          match m s with
          | Some (repl, rest) => repl ++ replaceLoop m fuel' rest
          | None => c :: replaceLoop m fuel' s'
          end
      end
  end.

Definition replaceAllMatches (m : gostring -> option (gostring * gostring))
    (s : gostring) : gostring :=
  replaceLoop m (length s) s.

(** strings.ReplaceAll(s, old, new) for a non-empty [old]. *)
Definition matchLiteral (old new : gostring) (s : gostring)
  : option (gostring * gostring) :=
  if HasPrefix s old then Some (new, drop (length old) s) else None.

Definition ReplaceAll (s old new : gostring) : gostring :=
  replaceAllMatches (matchLiteral old new) s.

(** regexp.MustCompile(`\s+`).ReplaceAllString(text, " ") *)
Definition matchSpaces (s : gostring) : option (gostring * gostring) :=
  match takeWhile isReSpace s with
  | [] => None
  | _ :: _ => Some ([SP], dropWhile isReSpace s)
  end.

Definition collapseSpaces (s : gostring) : gostring :=
  replaceAllMatches matchSpaces s.

(** regexp.MustCompile(`([.!?]+)\s+([A-Z])`).ReplaceAllString(text, "$1\n$2"):
    a greedy run of terminal marks, a greedy run of \s, one capital letter.
    The three classes are disjoint, so no shorter run can match where the
    greedy one fails. *)
Definition matchSentenceEnd (s : gostring) : option (gostring * gostring) :=
  match takeWhile isTerminal s with
  | [] => None
  | (_ :: _) as marks =>
      let s1 := dropWhile isTerminal s in
      match takeWhile isReSpace s1 with
      | [] => None
      | _ :: _ =>
          match dropWhile isReSpace s1 with
          | u :: rest =>
              if isUpperAZ u then Some (marks ++ [NL; u], rest) else None
          | [] => None
          end
      end
  end.

Definition markSentenceEnds (s : gostring) : gostring :=
  replaceAllMatches matchSentenceEnd s.

(** regexp.MustCompile(`[c]{2,}`).ReplaceAllString(text, "c") *)
Definition matchRepeated (c : rune) (s : gostring)
  : option (gostring * gostring) :=
  match takeWhile (Z.eqb c) s with
  | _ :: _ :: _ => Some ([c], dropWhile (Z.eqb c) s)
  | _ => None
  end.

Definition squeezeRepeated (c : rune) (s : gostring) : gostring :=
  replaceAllMatches (matchRepeated c) s.

(** strings.ToLower on the letters A-Z.  Other runes are left as they are:
    of the runes outside ASCII Go lowers only U+0130 and U+212A to ASCII
    letters (i and k), and neither letter occurs in an extension the
    service compares with. *)
Definition toLowerRune (r : rune) : rune :=
  if isUpperAZ r then (r + 32)%Z else r.

Definition ToLower (s : gostring) : gostring := map toLowerRune s.

(** strings.TrimSuffix *)
Definition TrimSuffix (s suffix : gostring) : gostring :=
  if HasPrefix (rev s) (rev suffix)
  then take (length s - length suffix) s else s.

End GoStrings.

(** ** internal/transcription/formatter.go *)

Module Formatter.
Import GoStrings.

Record TextFormatter := {
  targetWordCount : Z;
  maxSentencesPerChunk : Z;
  minWordsForSignificantSentence : Z
}.

Definition NewTextFormatter : TextFormatter :=
  {| targetWordCount := 50%Z;
     maxSentencesPerChunk := 4%Z;
     minWordsForSignificantSentence := 4%Z |}.

(** splitIntoSentences: trim, collapse white space, put a newline at every
    sentence end, split at the newlines and keep the non-empty trimmed
    pieces. *)
Definition nonEmptyTrimmed (raw : list gostring) : list gostring :=
  filter (fun s => s ≠ []) (map TrimSpace raw).

Definition splitIntoSentences (text : gostring) : list gostring :=
  let text := TrimSpace text in
  let text := collapseSpaces text in
  let text := markSentenceEnds text in
  let rawSentences := Split text NL in
  let sentences := nonEmptyTrimmed rawSentences in
  if bool_decide (length sentences <= 1) && bool_decide (length rawSentences = 1)
  then [text] else sentences.

(** countWords *)
Definition countWords (sentence : gostring) : Z :=
  let sentence := TrimSpace sentence in
  if streq sentence [] then 0%Z else Z.of_nat (length (Fields sentence)).

(** cleanText *)
Definition cleanText (text : gostring) : gostring :=
  let text := collapseSpaces text in
  let text := ReplaceAll text (go " ,") (go ",") in
  let text := ReplaceAll text (go " .") (go ".") in
  let text := ReplaceAll text (go " !") (go "!") in
  let text := ReplaceAll text (go " ?") (go "?") in
  let text := squeezeRepeated DOT text in
  let text := squeezeRepeated BANG text in
  let text := squeezeRepeated QUERY text in
  TrimSpace text.

Definition isSignificant (f : TextFormatter) (sentence : gostring) : bool :=
  (minWordsForSignificantSentence f <=? countWords sentence)%Z.

(** The first inner loop of Format: sentences are appended to the tentative
    chunk until the running word count reaches the target.  [words] and
    [significant] are the two counters on entry; the result is the chunk and
    the count of significant sentences. *)
Fixpoint tentativeChunk (f : TextFormatter) (sentences : list gostring)
    (words significant : Z) : list gostring * Z :=
  match sentences with
  | [] => ([], significant)
  | sentence :: rest =>
      let wordsInSentence := countWords sentence in
      let words := (words + wordsInSentence)%Z in
      let significant :=
        if (minWordsForSignificantSentence f <=? wordsInSentence)%Z
        then (significant + 1)%Z else significant in
      if (targetWordCount f <=? words)%Z then ([sentence], significant)
      else let (chunk, n) := tentativeChunk f rest words significant in
           (sentence :: chunk, n)
  end.

(** The second inner loop: the chunk is cut after the sentence that brings
    the count of significant sentences to the maximum. *)
Fixpoint limitChunk (f : TextFormatter) (chunk : list gostring)
    (significant : Z) : list gostring :=
  match chunk with
  | [] => []
  | sentence :: rest =>
      if (minWordsForSignificantSentence f <=? countWords sentence)%Z
      then if (maxSentencesPerChunk f <=? significant + 1)%Z then [sentence]
           else sentence :: limitChunk f rest (significant + 1)%Z
      else sentence :: limitChunk f rest significant
  end.

(** sentencesForFinalChunk of one round of the outer loop. *)
Definition finalChunk (f : TextFormatter) (sentences : list gostring)
  : list gostring :=
  let (chunk, significant) := tentativeChunk f sentences 0%Z 0%Z in
  if (maxSentencesPerChunk f <? significant)%Z then limitChunk f chunk 0%Z
  else chunk.

(** The outer loop of Format.  [sentences] are the sentences from
    processedSentenceIndex on, [out] is finalFormattedText.  Every round
    consumes a sentence or breaks, so one unit of fuel per sentence is
    enough. *)
Fixpoint formatLoop (f : TextFormatter) (fuel : nat)
    (sentences : list gostring) (out : gostring) : gostring :=
  match fuel with
  | O => out
  | S fuel' =>
      match sentences with
      | [] => out
      | _ :: _ =>
          match finalChunk f sentences with
          | [] => out
          | (_ :: _) as final =>
              let chunkText := cleanText (Join final [SP]) in
              let out := if bool_decide (0 < length out)
                         then out ++ [NL; NL] else out in
              formatLoop f fuel' (drop (length final) sentences)
                         (out ++ chunkText)
          end
      end
  end.

Definition Format (f : TextFormatter) (text : gostring) : gostring :=
  if streq (TrimSpace text) [] then []
  else
    let sentences := splitIntoSentences text in
    if bool_decide (length sentences = 0) then text
    else TrimSpace (formatLoop f (length sentences) sentences []).

(** The sentence lists the outer loop turns into paragraphs, round by
    round, and the paragraph texts it writes. *)
Fixpoint chunksOf (f : TextFormatter) (fuel : nat)
    (sentences : list gostring) : list (list gostring) :=
  match fuel with
  | O => []
  | S fuel' =>
      match sentences with
      | [] => []
      | _ :: _ =>
          match finalChunk f sentences with
          | [] => []
          | (_ :: _) as final =>
              final :: chunksOf f fuel' (drop (length final) sentences)
          end
      end
  end.

Definition chunks (f : TextFormatter) (text : gostring)
  : list (list gostring) :=
  if streq (TrimSpace text) [] then []
  else
    let sentences := splitIntoSentences text in
    chunksOf f (length sentences) sentences.

(** chunkText of a round. *)
Definition paragraphText (final : list gostring) : gostring :=
  cleanText (Join final [SP]).

Definition paragraphs (f : TextFormatter) (text : gostring) : list gostring :=
  map paragraphText (chunks f text).

End Formatter.

(** ** The world outside the program *)

Module World.
Import GoStrings.

(** Go errors: what fmt.Errorf builds, with the wrapped cause when the
    format has a %w verb. *)
Inductive error :=
| Errorf (msg : string)
| Wrapf (msg : string) (cause : error).

Inductive result (A : Type) :=
| Ok (a : A)
| Err (e : error).
Arguments Ok {A} a.
Arguments Err {A} e.

(** The encoding of an audio stream. *)
Record Encoding := {
  channels : Z;
  sampleRate : Z;
  pcm : bool
}.

(** What whisper needs and what ConvertToWav asks ffmpeg for:
    -ar 16000 -ac 1 -c:a pcm_s16le. *)
Definition whisperEncoding : Encoding :=
  {| channels := 1%Z; sampleRate := 16000%Z; pcm := true |}.

Definition isWhisperEncoding (e : Encoding) : bool :=
  (channels e =? 1)%Z && (sampleRate e =? 16000)%Z && pcm e.

Inductive FileData :=
| Audio (e : Encoding)
| Bytes (b : gostring).

Inductive Node :=
| Dir
| File (d : FileData).

(** The state the program changes: the files, and the HTTP requests made so
    far (latest first). *)
Record World := {
  files : gmap gostring Node;
  requests : list gostring
}.

Definition setFiles (w : World) (fs : gmap gostring Node) : World :=
  {| files := fs; requests := requests w |}.

(** An HTTP response body: the bytes that arrive, and whether the stream
    then breaks with an error instead of ending. *)
Record Body := {
  received : gostring;
  broken : bool
}.

Inductive HttpResult :=
| GetFailed
| Response (status : Z) (body : Body).

Inductive CmdResult :=
| Exited0 (output : gostring)
| ExitedNonZero (output : gostring).

Inductive FfmpegResult :=
| FfmpegWrote
| FfmpegWroteNothing
| FfmpegFailed.

(** One call of the function filepath.Walk hands to its callback. *)
Record WalkVisit := {
  visitPath : gostring;
  visitIsDir : bool;
  visitErr : bool
}.

(** The answers of the network, the operating system and the two external
    programs. *)
Record Env := {
  httpGet : gostring -> HttpResult;
  canCreate : gostring -> bool;
  readDir : gostring -> option (list (gostring * bool));
  walk : gostring -> list WalkVisit;
  ffmpegConvert : gostring -> FfmpegResult;
  audioDuration : gostring -> Z;
  whisperCli : gostring -> gostring -> CmdResult
}.

(** os.Stat: the node at the path; an error when there is none. *)
Definition Stat (w : World) (path : gostring) : option Node := files w !! path.

(** os.MkdirAll, its error dropped as the callers do.  The directories above
    [dir] are not tracked. *)
Definition MkdirAll (w : World) (dir : gostring) : World :=
  match files w !! dir with
  | None => setFiles w (<[dir := Dir]> (files w))
  | Some _ => w
  end.

(** os.Remove, its error dropped as the callers do. *)
Definition Remove (w : World) (path : gostring) : World :=
  setFiles w (delete path (files w)).

Definition writeData (w : World) (path : gostring) (d : FileData) : World :=
  setFiles w (<[path := File d]> (files w)).

(** os.WriteFile *)
Definition WriteFile (env : Env) (w : World) (path content : gostring)
  : World * option error :=
  if canCreate env path then (writeData w path (Bytes content), None)
  else (w, Some (Errorf "open: permission denied")).

End World.

(** ** Package path/filepath (Unix) *)

Module Filepath.
Import GoStrings.

Definition SLASH : rune := 47%Z.
Definition isSlash (r : rune) : bool := (r =? SLASH)%Z.

(** One step of Clean over the elements seen so far (innermost first). *)
Definition cleanStep (rooted : bool) (stack : list gostring) (elem : gostring)
  : list gostring :=
  if streq elem [] || streq elem (go ".") then stack
  else if streq elem (go "..") then
    match stack with
    | top :: below => if streq top (go "..") then elem :: stack else below
    | [] => if rooted then [] else [elem]
    end
  else elem :: stack.

(** filepath.Clean *)
Definition Clean (path : gostring) : gostring :=
  let rooted := HasPrefix path [SLASH] in
  let stack := foldl (cleanStep rooted) [] (Split path SLASH) in
  let body := Join (rev stack) [SLASH] in
  let out := if rooted then SLASH :: body else body in
  if streq out [] then go "." else out.

(** filepath.Ext: from the last dot of the last element on. *)
Fixpoint extFrom (reversed : gostring) (seen : gostring) : gostring :=
  match reversed with
  | [] => []
  | c :: before =>
      if isSlash c then []
      else if (c =? DOT)%Z then c :: seen
      else extFrom before (c :: seen)
  end.

Definition Ext (path : gostring) : gostring := extFrom (rev path) [].

(** filepath.Base *)
Definition Base (path : gostring) : gostring :=
  if streq path [] then go "."
  else
    let stripped := dropWhile isSlash (rev path) in
    let last := rev (takeWhile (fun c => negb (isSlash c)) stripped) in
    if streq last [] then [SLASH] else last.

(** filepath.Dir *)
Definition Dir (path : gostring) : gostring :=
  Clean (rev (dropWhile (fun c => negb (isSlash c)) (rev path))).

(** filepath.Join of two elements *)
Definition Join2 (a b : gostring) : gostring :=
  if negb (streq a []) then Clean (a ++ [SLASH] ++ b)
  else if negb (streq b []) then Clean b
  else [].

End Filepath.

(** ** internal/whisper/client.go *)

Module Whisper.
Import GoStrings World.

Record Client := {
  whisperBinaryPath : gostring;
  modelsDir : gostring
}.

Definition RBRACKET : rune := 93%Z.

(** The loop of Transcribe over the lines of the output: [inTranscription]
    and the builder [transcription] are its two variables. *)
Fixpoint scanLines (lines : list gostring) (inTranscription : bool)
    (transcription : gostring) : gostring :=
  match lines with
  | [] => transcription
  | line :: rest =>
      let line := TrimSpace line in
      if Contains line (go "[00:") || inTranscription then
        let transcription :=
          if Contains line [RBRACKET] then
            match SplitN2 line RBRACKET with
            | _ :: after :: _ =>
                let text := TrimSpace after in
                if negb (streq text []) then transcription ++ text ++ [SP]
                else transcription
            | _ => transcription
            end
          else transcription in
        scanLines rest true transcription
      else scanLines rest inTranscription transcription
  end.

Definition modelPath (c : Client) (modelName : gostring) : gostring :=
  Filepath.Join2 (modelsDir c) (go "ggml-" ++ modelName ++ go ".bin").

(** What Transcribe makes of the output of a run that succeeded. *)
Definition parseOutput (output : gostring) : gostring :=
  let lines := Split output NL in
  let result := TrimSpace (scanLines lines false []) in
  if streq result [] then output else result.

(** Transcribe *)
Definition Transcribe (env : Env) (c : Client) (audioPath modelName : gostring)
  : result gostring :=
  match whisperCli env (modelPath c modelName) audioPath with
  | ExitedNonZero _ =>
      Err (Wrapf "whisper transcription failed" (Errorf "exit status"))
  | Exited0 output => Ok (parseOutput output)
  end.

(** The same parse in the words of the specification: the lines before the
    first time stamp are structure; of the lines from there on the content
    is the text after the closing bracket; the contents that are not empty
    are joined by single spaces; an empty parse falls back to the raw
    output. *)
Fixpoint fromFirstTimestamp (lines : list gostring) : list gostring :=
  match lines with
  | [] => []
  | line :: rest =>
      if Contains line (go "[00:") then lines else fromFirstTimestamp rest
  end.

Definition contentOf (line : gostring) : option gostring :=
  match SplitN2 line RBRACKET with
  | _ :: after :: _ =>
      let text := TrimSpace after in
      if streq text [] then None else Some text
  | _ => None
  end.

Fixpoint contents (lines : list gostring) : list gostring :=
  match lines with
  | [] => []
  | line :: rest =>
      match contentOf line with
      | Some text => text :: contents rest
      | None => contents rest
      end
  end.

Definition transcriptOf (output : gostring) : gostring :=
  let lines := map TrimSpace (Split output NL) in
  Join (contents (fromFirstTimestamp lines)) [SP].

Definition transcriptOrRaw (output : gostring) : gostring :=
  if streq (transcriptOf output) [] then output else transcriptOf output.

End Whisper.

(** ** internal/models/manager.go *)

Module Models.
Import GoStrings World.

Record Manager := {
  cacheDir : gostring
}.

Record ModelInfo := {
  Name : gostring;
  Size : string;
  Path : gostring;
  DownloadURL : gostring
}.

(** NewManager.  [homeDir] is what os.UserHomeDir answers (the empty string
    with the error NewManager drops); it is used for an empty cache
    directory only.  The directory NewManager creates is not tracked. *)
Definition NewManager (homeDir dir : gostring) : Manager :=
  {| cacheDir :=
       if streq dir [] then Filepath.Join2 homeDir (go ".whisper")
       else dir |}.

Definition baseURL : gostring :=
  go "https://huggingface.co/ggerganov/whisper.cpp/resolve/main".

Definition modelFile (name : string) : gostring :=
  go "ggml-" ++ go name ++ go ".bin".

Definition mkModel (m : Manager) (name size : string) : ModelInfo :=
  {| Name := go name;
     Size := size;
     Path := Filepath.Join2 (cacheDir m) (modelFile name);
     DownloadURL := baseURL ++ go "/" ++ modelFile name |}.

(** AvailableModels *)
Definition AvailableModels (m : Manager) : list ModelInfo :=
  [ mkModel m "tiny" "39 MB";
    mkModel m "tiny.en" "39 MB";
    mkModel m "base" "142 MB";
    mkModel m "base.en" "142 MB";
    mkModel m "small" "488 MB";
    mkModel m "small.en" "488 MB";
    mkModel m "medium" "1.5 GB";
    mkModel m "medium.en" "1.5 GB";
    mkModel m "large-v3" "2.9 GB";
    mkModel m "large-v3-turbo" "1.5 GB" ].

(** The search loop shared by Download, Info and ensureModelDownloaded. *)
Fixpoint findModel (models : list ModelInfo) (modelName : gostring)
  : option ModelInfo :=
  match models with
  | [] => None
  | model :: rest =>
      if streq (Name model) modelName then Some model
      else findModel rest modelName
  end.

(** io.Copy(out, resp.Body) into the file just created: what arrived is in
    the file; the error of a broken stream is the result. *)
Definition copyBody (w : World) (path : gostring) (body : Body)
  : World * bool :=
  (writeData w path (Bytes (received body)), broken body).

(** Download *)
Definition Download (env : Env) (m : Manager) (modelName : gostring)
    (w : World) : World * option error :=
  match findModel (AvailableModels m) modelName with
  | None => (w, Some (Errorf "unknown model"))
  | Some targetModel =>
      match Stat w (Path targetModel) with
      | Some _ => (w, None)
      | None =>
          let w := {| files := files w;
                      requests := DownloadURL targetModel :: requests w |} in
          match httpGet env (DownloadURL targetModel) with
          | GetFailed =>
              (w, Some (Wrapf "failed to start download" (Errorf "http")))
          | Response status body =>
              if negb (status =? 200)%Z
              then (w, Some (Errorf "download failed with status"))
              else if negb (canCreate env (Path targetModel))
              then (w, Some (Wrapf "failed to create output file"
                                   (Errorf "create")))
              else
                let w := writeData w (Path targetModel) (Bytes []) in
                let (w, failed) := copyBody w (Path targetModel) body in
                if failed
                then (Remove w (Path targetModel),
                      Some (Wrapf "download failed" (Errorf "copy")))
                else (w, None)
          end
      end
  end.

End Models.

(** ** internal/audio/processor.go *)

Module AudioProcessor.
Import GoStrings World.

Record Processor := {
  ffmpegPath : gostring;
  tempDir : gostring
}.

(** ConvertToWav *)
Definition ConvertToWav (env : Env) (p : Processor) (inputPath : gostring)
    (w : World) : World * result gostring :=
  let inputBase := Filepath.Base inputPath in
  let inputExt := Filepath.Ext inputBase in
  let outputName := TrimSuffix inputBase inputExt ++ go "_converted.wav" in
  let outputPath := Filepath.Join2 (tempDir p) outputName in
  match Stat w inputPath with
  | None => (w, Err (Errorf "input file does not exist"))
  | Some _ =>
      match ffmpegConvert env inputPath with
      | FfmpegFailed =>
          (w, Err (Wrapf "ffmpeg conversion failed" (Errorf "exit status")))
      | FfmpegWroteNothing =>
          match Stat w outputPath with
          | None => (w, Err (Errorf "output file was not created"))
          | Some _ => (w, Ok outputPath)
          end
      | FfmpegWrote =>
          (writeData w outputPath (Audio whisperEncoding), Ok outputPath)
      end
  end.

(** Cleanup *)
Definition Cleanup (p : Processor) (filePath : gostring) (w : World) : World :=
  if Contains filePath (tempDir p) then Remove w filePath else w.

End AudioProcessor.

(** ** internal/transcription/service.go *)

Module Service.
Import GoStrings World Formatter.

Record Options := {
  Model : gostring;
  OutputDir : gostring;
  Workers : Z;
  Recursive : bool;
  Timestamps : bool;
  Prompt : gostring;
  Language : gostring;
  Format : gostring;
  CacheDir : gostring;
  Quiet : bool;
  Verbose : bool
}.

Record Service := {
  opts : Options;
  audioProcessor : AudioProcessor.Processor;
  whisperClient : Whisper.Client;
  modelManager : Models.Manager
}.

(** NewService, on a machine whose home directory is [homeDir].  The
    manager replaces an empty cache directory by .whisper in the home
    directory, the whisper client keeps it as it is.  The binary is the one
    findWhisperBinary falls back to; the two directories the constructors
    create are not tracked. *)
Definition NewService (homeDir : gostring) (o : Options) : Service :=
  {| opts := o;
     audioProcessor :=
       {| AudioProcessor.ffmpegPath := go "/opt/homebrew/bin/ffmpeg";
          AudioProcessor.tempDir := go "/tmp/ghospel" |};
     whisperClient :=
       {| Whisper.whisperBinaryPath :=
            go "./whisper_cpp_source/build/bin/whisper-cli";
          Whisper.modelsDir := CacheDir o |};
     modelManager := Models.NewManager homeDir (CacheDir o) |}.

Record FileStats := {
  WordCount : Z;
  Duration : Z
}.

Definition supportedExts : list gostring :=
  [go ".mp3"; go ".m4a"; go ".wav"; go ".flac"; go ".mp4"; go ".aac";
   go ".ogg"].

(** isAudioFile *)
Definition isAudioFile (path : gostring) (exts : list gostring) : bool :=
  let ext := ToLower (Filepath.Ext path) in
  existsb (fun supportedExt => streq ext supportedExt) exts.

(** The callback findAudioFiles hands to filepath.Walk, run over the visits
    of one walk: the first error ends the walk. *)
Fixpoint walkCallback (visits : list WalkVisit) (audioFiles : list gostring)
  : result (list gostring) :=
  match visits with
  | [] => Ok audioFiles
  | v :: rest =>
      if visitErr v then Err (Errorf "walk")
      else if negb (visitIsDir v) && isAudioFile (visitPath v) supportedExts
      then walkCallback rest (audioFiles ++ [visitPath v])
      else walkCallback rest audioFiles
  end.

(** The loop over the entries of a directory that is not walked. *)
Fixpoint scanEntries (input : gostring) (entries : list (gostring * bool))
    (audioFiles : list gostring) : list gostring :=
  match entries with
  | [] => audioFiles
  | (name, isDir) :: rest =>
      let path := Filepath.Join2 input name in
      if negb isDir && isAudioFile path supportedExts
      then scanEntries input rest (audioFiles ++ [path])
      else scanEntries input rest audioFiles
  end.

(** The loop of findAudioFiles over the inputs. *)
Fixpoint findLoop (env : Env) (s : Service) (w : World)
    (inputs : list gostring) (audioFiles : list gostring)
  : result (list gostring) :=
  match inputs with
  | [] => Ok audioFiles
  | input :: rest =>
      match Stat w input with
      | None => Err (Wrapf "cannot access" (Errorf "stat"))
      | Some Dir =>
          if Recursive (opts s) then
            match walkCallback (walk env input) audioFiles with
            | Err e => Err e
            | Ok audioFiles => findLoop env s w rest audioFiles
            end
          else
            match readDir env input with
            | None => Err (Wrapf "cannot read directory" (Errorf "readdir"))
            | Some entries =>
                findLoop env s w rest (scanEntries input entries audioFiles)
            end
      | Some (File _) =>
          if isAudioFile input supportedExts
          then findLoop env s w rest (audioFiles ++ [input])
          else findLoop env s w rest audioFiles
      end
  end.

(** An input findAudioFiles stops at: there is nothing at the path, or it is
    a directory whose listing fails. *)
Definition unreadable (env : Env) (s : Service) (w : World)
    (input : gostring) : bool :=
  match Stat w input with
  | None => true
  | Some Dir =>
      if Recursive (opts s) then existsb visitErr (walk env input)
      else bool_decide (readDir env input = None)
  | Some (File _) => false
  end.

(** findAudioFiles *)
Definition findAudioFiles (env : Env) (s : Service) (w : World)
    (inputs : list gostring) : result (list gostring) :=
  findLoop env s w inputs [].

(** getOutputPath *)
Definition getOutputPath (s : Service) (inputPath : gostring) (w : World)
  : World * gostring :=
  let dir := Filepath.Dir inputPath in
  let (w, dir) :=
    if negb (streq (OutputDir (opts s)) [])
    then (MkdirAll w (OutputDir (opts s)), OutputDir (opts s))
    else (w, dir) in
  let base := TrimSuffix (Filepath.Base inputPath) (Filepath.Ext inputPath) in
  let ext := go "." ++ Format (opts s) in
  (w, Filepath.Join2 dir (base ++ ext)).

(** ensureModelDownloaded *)
Definition ensureModelDownloaded (env : Env) (s : Service) (w : World)
  : World * option error :=
  match Models.findModel (Models.AvailableModels (modelManager s))
                         (Model (opts s)) with
  | None => (w, Some (Errorf "unknown model"))
  | Some targetModel =>
      match Stat w (Models.Path targetModel) with
      | None => Models.Download env (modelManager s) (Model (opts s)) w
      | Some _ => (w, None)
      end
  end.

(** prepareAudioFile: the path to hand to whisper, and whether it is a
    temporary file to clean up. *)
Definition prepareAudioFile (env : Env) (s : Service) (inputPath : gostring)
    (w : World) : World * result (gostring * bool) :=
  let ext := ToLower (Filepath.Ext inputPath) in
  if streq ext (go ".wav") then (w, Ok (inputPath, false))
  else
    match AudioProcessor.ConvertToWav env (audioProcessor s) inputPath w with
    | (w, Err e) => (w, Err e)
    | (w, Ok wavPath) => (w, Ok (wavPath, true))
    end.

(** formatOutput *)
Definition formatOutput (s : Service) (transcription inputPath : gostring)
  : gostring :=
  go "# Transcription of: " ++ Filepath.Base inputPath ++ [NL]
  ++ go "# Model: " ++ Model (opts s) ++ [NL]
  ++ go "# Generated with Ghospel v0.1.0" ++ [NL; NL]
  ++ Formatter.Format NewTextFormatter transcription ++ [NL].

(** countWords of the service *)
Definition countWords (text : gostring) : Z :=
  if streq text [] then 0%Z
  else Z.of_nat (length (Fields (TrimSpace text))).

(** transcribeFile.  GetAudioInfo returns no error in any case, so its
    error branch is not there; the deferred Cleanup runs on every return
    after it is registered. *)
Definition transcribeFile (env : Env) (s : Service) (inputPath : gostring)
    (w : World) : World * result FileStats :=
  let duration := audioDuration env inputPath in
  let (w, outputPath) := getOutputPath s inputPath w in
  match ensureModelDownloaded env s w with
  | (w, Some e) => (w, Err (Wrapf "model preparation failed" e))
  | (w, None) =>
      match prepareAudioFile env s inputPath w with
      | (w, Err e) => (w, Err (Wrapf "audio preparation failed" e))
      | (w, Ok (wavPath, needsCleanup)) =>
          let cleanup (w : World) :=
            if needsCleanup
            then AudioProcessor.Cleanup (audioProcessor s) wavPath w
            else w in
          match Whisper.Transcribe env (whisperClient s) wavPath
                                   (Model (opts s)) with
          | Err e => (cleanup w, Err (Wrapf "transcription failed" e))
          | Ok transcription =>
              let wordCount := countWords transcription in
              let content := formatOutput s transcription inputPath in
              match WriteFile env w outputPath content with
              | (w, Some e) =>
                  (cleanup w, Err (Wrapf "failed to write output file" e))
              | (w, None) =>
                  (cleanup w,
                   Ok {| WordCount := wordCount; Duration := duration |})
              end
          end
      end
  end.

(** The counters TranscribeFiles keeps and prints in its summary. *)
Record Summary := {
  totalWords : Z;
  totalDuration : Z;
  successCount : Z;
  failedCount : Z
}.

Definition noSummary : Summary :=
  {| totalWords := 0; totalDuration := 0; successCount := 0;
     failedCount := 0 |}.

(** The loop of TranscribeFiles over the audio files. *)
Fixpoint transcribeLoop (env : Env) (s : Service) (audioFiles : list gostring)
    (w : World) (sum : Summary) : World * Summary :=
  match audioFiles with
  | [] => (w, sum)
  | file :: rest =>
      match transcribeFile env s file w with
      | (w, Err _) =>
          transcribeLoop env s rest w
            {| totalWords := totalWords sum;
               totalDuration := totalDuration sum;
               successCount := successCount sum;
               failedCount := failedCount sum + 1 |}
      | (w, Ok fileStats) =>
          transcribeLoop env s rest w
            {| totalWords := totalWords sum + WordCount fileStats;
               totalDuration := totalDuration sum + Duration fileStats;
               successCount := successCount sum + 1;
               failedCount := failedCount sum |}
      end
  end.

(** TranscribeFiles: the world after the run, the counters, and the error
    returned (None is Go's nil). *)
Definition TranscribeFiles (env : Env) (s : Service) (inputs : list gostring)
    (w : World) : World * Summary * option error :=
  match findAudioFiles env s w inputs with
  | Err e => (w, noSummary, Some (Wrapf "failed to find audio files" e))
  | Ok audioFiles =>
      if bool_decide (length audioFiles = 0)
      then (w, noSummary, Some (Errorf "no audio files found"))
      else
        let (w, sum) := transcribeLoop env s audioFiles w noSummary in
        (w, sum, None)
  end.

End Service.

(** ** Two callers of ensureModelDownloaded, interleaved

    The statements of ensureModelDownloaded and Download that touch the
    file system or the network, one per step, for callers that share the
    world. *)

Module Race.
Import GoStrings World.

(** Where a caller stands. *)
Inductive Pc :=
| AtEnsureStat                       (* os.Stat in ensureModelDownloaded *)
| AtDownloadStat                     (* os.Stat in Download *)
| AtHttpGet                          (* http.Get *)
| AtCreate (body : Body)             (* os.Create *)
| AtCopy (body : Body)               (* io.Copy *)
| AtRemove                           (* os.Remove after a failed copy *)
| Returned (err : option error).

Record State := {
  world : World;
  callerA : Pc;
  callerB : Pc
}.

Inductive Caller := A | B.

(** One statement of one caller. *)
Definition stepPc (env : Env) (target : Models.ModelInfo) (pc : Pc)
    (w : World) : World * Pc :=
  match pc with
  | AtEnsureStat =>
      match Stat w (Models.Path target) with
      | None => (w, AtDownloadStat)
      | Some _ => (w, Returned None)
      end
  | AtDownloadStat =>
      match Stat w (Models.Path target) with
      | Some _ => (w, Returned None)
      | None => (w, AtHttpGet)
      end
  | AtHttpGet =>
      let w := {| files := files w;
                  requests := Models.DownloadURL target :: requests w |} in
      match httpGet env (Models.DownloadURL target) with
      | GetFailed =>
          (w, Returned (Some (Wrapf "failed to start download"
                                    (Errorf "http"))))
      | Response status body =>
          if negb (status =? 200)%Z
          then (w, Returned (Some (Errorf "download failed with status")))
          else (w, AtCreate body)
      end
  | AtCreate body =>
      if negb (canCreate env (Models.Path target))
      then (w, Returned (Some (Wrapf "failed to create output file"
                                     (Errorf "create"))))
      else (writeData w (Models.Path target) (Bytes []), AtCopy body)
  | AtCopy body =>
      let (w, failed) := Models.copyBody w (Models.Path target) body in
      if failed then (w, AtRemove) else (w, Returned None)
  | AtRemove =>
      (Remove w (Models.Path target),
       Returned (Some (Wrapf "download failed" (Errorf "copy"))))
  | Returned err => (w, Returned err)
  end.

Definition step (env : Env) (target : Models.ModelInfo) (st : State)
    (who : Caller) : State :=
  match who with
  | A => let (w, pc) := stepPc env target (callerA st) (world st) in
         {| world := w; callerA := pc; callerB := callerB st |}
  | B => let (w, pc) := stepPc env target (callerB st) (world st) in
         {| world := w; callerA := callerA st; callerB := pc |}
  end.

Definition run (env : Env) (target : Models.ModelInfo)
    (schedule : list Caller) (st : State) : State :=
  foldl (step env target) st schedule.

Definition start (w : World) : State :=
  {| world := w; callerA := AtEnsureStat; callerB := AtEnsureStat |}.

(** A transfer is in flight from the answer of http.Get until io.Copy
    returns. *)
Definition inFlight (pc : Pc) : bool :=
  match pc with
  | AtCreate _ | AtCopy _ => true
  | _ => false
  end.

(** One caller alone, statement by statement until it returns. *)
Fixpoint runAlone (env : Env) (target : Models.ModelInfo) (fuel : nat)
    (pc : Pc) (w : World) : World * Pc :=
  match fuel with
  | O => (w, pc)
  | S fuel' =>
      let (w, pc) := stepPc env target pc w in
      runAlone env target fuel' pc w
  end.

End Race.

Import GoStrings Formatter World Filepath Whisper.

(** ** Sample runs *)

Module Scenarios.
Import GoStrings World.

(** An environment where every collaborator answers well. *)
Definition fineEnv : Env :=
  {| httpGet := fun _ =>
       Response 200 {| received := go "GGML"; broken := false |};
     canCreate := fun _ => true;
     readDir := fun _ => None;
     walk := fun _ => [];
     ffmpegConvert := fun _ => FfmpegWrote;
     audioDuration := fun _ => 2000000000%Z;
     whisperCli := fun _ _ =>
       Exited0 (go "[00:00:00.000 --> 00:00:02.000]   Hello world.") |}.

(** The same, with a download that breaks after four bytes. *)
Definition brokenEnv : Env :=
  {| httpGet := fun _ =>
       Response 200 {| received := go "GGML"; broken := true |};
     canCreate := canCreate fineEnv;
     readDir := readDir fineEnv;
     walk := walk fineEnv;
     ffmpegConvert := ffmpegConvert fineEnv;
     audioDuration := audioDuration fineEnv;
     whisperCli := whisperCli fineEnv |}.

Definition sampleOptions : Service.Options :=
  {| Service.Model := go "tiny";
     Service.OutputDir := [];
     Service.Workers := 4;
     Service.Recursive := false;
     Service.Timestamps := false;
     Service.Prompt := [];
     Service.Language := go "auto";
     Service.Format := go "txt";
     Service.CacheDir := go "/cache";
     Service.Quiet := true;
     Service.Verbose := false |}.

Definition sampleService : Service.Service :=
  Service.NewService (go "/home/u") sampleOptions.

Definition stereo44k : Encoding :=
  {| channels := 2; sampleRate := 44100; pcm := true |}.

Definition mp3 : Encoding :=
  {| channels := 2; sampleRate := 44100; pcm := false |}.

Definition emptyWorld : World := {| files := ∅; requests := [] |}.

(** a.mp3 beside the transcript of an earlier run. *)
Definition transcribedWorld : World :=
  {| files := {[ go "/in/a.mp3" := File (Audio mp3);
                 go "/in/a.txt" := File (Bytes (go "old transcript")) ]};
     requests := [] |}.

(** A text file and nothing else. *)
Definition notesWorld : World :=
  {| files := {[ go "/in/notes.txt" := File (Bytes (go "notes")) ]};
     requests := [] |}.

(** A stereo WAV file at 44.1 kHz. *)
Definition stereoWorld : World :=
  {| files := {[ go "/in/song.wav" := File (Audio stereo44k) ]};
     requests := [] |}.

Definition tiny : Models.ModelInfo :=
  Models.mkModel (Service.modelManager sampleService) "tiny" "39 MB".

End Scenarios.

(** ** Notions the statements are written with *)

Module Text.
Import GoStrings Formatter.

(** The text starts, or ends, inside a word. *)
Definition startsWord (s : gostring) : bool :=
  match s with
  | [] => false
  | c :: _ => negb (isSpace c)
  end.

Definition endsWord (s : gostring) : bool :=
  match last s with
  | None => false
  | Some c => negb (isSpace c)
  end.

(** Not empty, and nothing for TrimSpace to remove. *)
Definition tight (s : gostring) : bool := startsWord s && endsWord s.

Definition startsReSpace (s : gostring) : bool :=
  match s with
  | [] => false
  | c :: _ => isReSpace c
  end.

(** What collapsing leaves: the only \s rune is the space, and no two of
    them are adjacent. *)
Fixpoint collapsed (s : gostring) : bool :=
  match s with
  | [] => true
  | c :: s' =>
      (if isReSpace c then (c =? SP)%Z && negb (startsReSpace s') else true)
      && collapsed s'
  end.

(** The runes cleanText removes a space in front of. *)
Definition isGlued (r : rune) : bool :=
  ((r =? 44) || (r =? 46) || (r =? 33) || (r =? 63))%Z.

(** No work for the clean-up: no space directly before one of , . ! ? and
    no terminal mark directly followed by the same mark. *)
Fixpoint artifactFree (s : gostring) : bool :=
  match s with
  | [] => true
  | c :: s' =>
      match s' with
      | [] => true
      | d :: _ =>
          negb ((c =? SP)%Z && isGlued d)
          && negb (isTerminal c && (c =? d)%Z)
      end
      && artifactFree s'
  end.

(** The first half of that alone: no space directly before one of
    , . ! ? *)
Fixpoint noSpaceBeforeMark (s : gostring) : bool :=
  match s with
  | [] => true
  | c :: s' =>
      match s' with
      | [] => true
      | d :: _ => negb ((c =? SP)%Z && isGlued d)
      end
      && noSpaceBeforeMark s'
  end.

(** No two adjacent runes form a [bad] pair. *)
Fixpoint noPair (bad : rune -> rune -> bool) (s : gostring) : bool :=
  match s with
  | [] => true
  | c :: s' =>
      match s' with
      | [] => true
      | d :: _ => negb (bad c d)
      end
      && noPair bad s'
  end.

(** The text starts with the rune [c]. *)
Definition nextIs (c : rune) (s : gostring) : bool :=
  match s with
  | y :: _ => (c =? y)%Z
  | [] => false
  end.

(** What squeezeRepeated comes to, rune by rune: of every run of [c] one
    rune is left. *)
Fixpoint squeeze (c : rune) (s : gostring) : gostring :=
  match s with
  | [] => []
  | x :: s' =>
      if (c =? x)%Z && nextIs c s' then squeeze c s' else x :: squeeze c s'
  end.

(** The three squeezes of cleanText, in its order. *)
Definition squeezeMarks (s : gostring) : gostring :=
  squeeze QUERY (squeeze BANG (squeeze DOT s)).

(** The white-space normal form of an input, as splitIntoSentences takes
    it. *)
Definition normalize (text : gostring) : gostring :=
  collapseSpaces (TrimSpace text).

(** The newline of a sentence end, back to the space it replaced. *)
Definition unmark (c : rune) : rune := if (c =? NL)%Z then SP else c.

(** One write of a paragraph to finalFormattedText. *)
Definition writeParagraph (out paragraph : gostring) : gostring :=
  (if bool_decide (0 < length out) then out ++ [NL; NL] else out)
  ++ paragraph.

(** The number of significant sentences of a chunk. *)
Definition significantCount (f : TextFormatter) (chunk : list gostring) : nat :=
  length (filter (fun s => isSignificant f s = true) chunk).

(** Sample inputs. *)
Definition fiveSentences : gostring :=
  go "The cat sat down here. A dog ran up there. We all saw it happen. Nobody said a word then. Rain fell on the roof.".

Definition doubledMarks : gostring :=
  go "Aa bb cc dd.. Ee ff gg hh!! Ii jj kk ll?? Mm nn oo pp... Qq rr ss tt.".

Definition looseComma : gostring :=
  go "A , b c. Aa bb cc dd. Ee ff gg hh. Ii jj kk ll. Mm nn oo pp.".

End Text.

Import Text.

(** ** The batch, job by job *)

Module Batch.
Import GoStrings World.

(** Every job of a batch run in turn, each on the world the job before it
    left, whether that job failed or not: the world after the last job and
    the outcomes of the jobs, in order. *)
Fixpoint runJobs (env : Env) (s : Service.Service)
    (audioFiles : list gostring) (w : World)
  : World * list (result Service.FileStats) :=
  match audioFiles with
  | [] => (w, [])
  | file :: rest =>
      let (w, outcome) := Service.transcribeFile env s file w in
      let (w, outcomes) := runJobs env s rest w in
      (w, outcome :: outcomes)
  end.

(** The statistics of the jobs that succeeded, and the errors of the jobs
    that failed. *)
Fixpoint succeeded (outcomes : list (result Service.FileStats))
  : list Service.FileStats :=
  match outcomes with
  | [] => []
  | Ok fileStats :: rest => fileStats :: succeeded rest
  | Err _ :: rest => succeeded rest
  end.

Fixpoint failed (outcomes : list (result Service.FileStats)) : list error :=
  match outcomes with
  | [] => []
  | Ok _ :: rest => failed rest
  | Err e :: rest => e :: failed rest
  end.

Definition sumOf (measure : Service.FileStats -> Z)
    (stats : list Service.FileStats) : Z :=
  foldr (fun fileStats n => (measure fileStats + n)%Z) 0%Z stats.

End Batch.

(** ** Measures of chunks *)

Module Measures.
Import GoStrings Formatter.

(** currentChunkWordCount after the sentences of a chunk. *)
Definition wordsOf (sentences : list gostring) : Z :=
  foldr (fun sentence n => (countWords sentence + n)%Z) 0%Z sentences.

End Measures.

Import Measures.

Module Samples.
Import GoStrings.

(** Sixty words in two sentences. *)
Definition manyWords : list (list Z) :=
  [go "a a a a a a a a a a a a a a a a a a a a a a a a a a a a a a a a a a a a a a a a a a a a a a a a a a a a a a a.";
   go "B b b b b."; go "C c."].

End Samples.

Import Samples.

(** ** The converted file *)

Module Converted.
Import GoStrings.

(** outputPath of ConvertToWav. *)
Definition convertedPath (p : AudioProcessor.Processor)
    (inputPath : list Z) : list Z :=
  let inputBase := Filepath.Base inputPath in
  let inputExt := Filepath.Ext inputBase in
  let outputName := TrimSuffix inputBase inputExt ++ go "_converted.wav" in
  Filepath.Join2 (AudioProcessor.tempDir p) outputName.

End Converted.

Import Converted.

(** ** internal/config/config.go *)

Module Config.
Import GoStrings World.

Record Config := {
  Model : list Z;
  Language : list Z;
  Prompt : list Z;
  Workers : Z;
  ChunkSize : list Z;
  CacheDir : list Z;
  CacheRetention : list Z;
  AutoCleanup : bool;
  OutputFormat : list Z;
  IncludeTimestamps : bool;
  PreserveStructure : bool;
  FFmpegPath : list Z;
  TempDir : list Z
}.

(** DefaultConfig, for the home directory the operating system reports. *)
Definition DefaultConfig (homeDir : list Z) : Config :=
  {| Model := go "large-v3-turbo";
     Language := go "auto";
     Prompt := [];
     Workers := 4;
     ChunkSize := go "30s";
     CacheDir := Filepath.Join2 homeDir (go ".whisper");
     CacheRetention := go "30d";
     AutoCleanup := true;
     OutputFormat := go "txt";
     IncludeTimestamps := false;
     PreserveStructure := true;
     FFmpegPath := go "/opt/homebrew/bin/ffmpeg";
     TempDir := go "/tmp/ghospel" |}.

Definition validModels : list (list Z) :=
  [go "tiny"; go "base"; go "small"; go "medium"; go "large-v3";
   go "large-v3-turbo"].

Definition validFormats : list (list Z) := [go "txt"; go "srt"; go "vtt"].

(** The loops of Set over validModels and validFormats. *)
Definition oneOf (value : list Z) (valid : list (list Z)) : bool :=
  existsb (fun v => streq value v) valid.

(** The switch of Set, between its Load and its Save: the configuration
    handed to Save, or the error Set returns. *)
Definition setValue (cfg : Config) (key value : list Z) : result Config :=
  if streq key (go "model") then
    if oneOf value validModels then
      Ok {| Model := value; Language := Language cfg; Prompt := Prompt cfg;
            Workers := Workers cfg; ChunkSize := ChunkSize cfg;
            CacheDir := CacheDir cfg; CacheRetention := CacheRetention cfg;
            AutoCleanup := AutoCleanup cfg; OutputFormat := OutputFormat cfg;
            IncludeTimestamps := IncludeTimestamps cfg;
            PreserveStructure := PreserveStructure cfg;
            FFmpegPath := FFmpegPath cfg; TempDir := TempDir cfg |}
    else Err (Errorf "invalid model")
  else if streq key (go "cache_dir") then
    Ok {| Model := Model cfg; Language := Language cfg; Prompt := Prompt cfg;
          Workers := Workers cfg; ChunkSize := ChunkSize cfg;
          CacheDir := value; CacheRetention := CacheRetention cfg;
          AutoCleanup := AutoCleanup cfg; OutputFormat := OutputFormat cfg;
          IncludeTimestamps := IncludeTimestamps cfg;
          PreserveStructure := PreserveStructure cfg;
          FFmpegPath := FFmpegPath cfg; TempDir := TempDir cfg |}
  else if streq key (go "workers") then
    Ok {| Model := Model cfg; Language := Language cfg; Prompt := Prompt cfg;
          Workers := 4; ChunkSize := ChunkSize cfg;
          CacheDir := CacheDir cfg; CacheRetention := CacheRetention cfg;
          AutoCleanup := AutoCleanup cfg; OutputFormat := OutputFormat cfg;
          IncludeTimestamps := IncludeTimestamps cfg;
          PreserveStructure := PreserveStructure cfg;
          FFmpegPath := FFmpegPath cfg; TempDir := TempDir cfg |}
  else if streq key (go "language") then
    Ok {| Model := Model cfg; Language := value; Prompt := Prompt cfg;
          Workers := Workers cfg; ChunkSize := ChunkSize cfg;
          CacheDir := CacheDir cfg; CacheRetention := CacheRetention cfg;
          AutoCleanup := AutoCleanup cfg; OutputFormat := OutputFormat cfg;
          IncludeTimestamps := IncludeTimestamps cfg;
          PreserveStructure := PreserveStructure cfg;
          FFmpegPath := FFmpegPath cfg; TempDir := TempDir cfg |}
  else if streq key (go "output_format") then
    if oneOf value validFormats then
      Ok {| Model := Model cfg; Language := Language cfg;
            Prompt := Prompt cfg; Workers := Workers cfg;
            ChunkSize := ChunkSize cfg; CacheDir := CacheDir cfg;
            CacheRetention := CacheRetention cfg;
            AutoCleanup := AutoCleanup cfg; OutputFormat := value;
            IncludeTimestamps := IncludeTimestamps cfg;
            PreserveStructure := PreserveStructure cfg;
            FFmpegPath := FFmpegPath cfg; TempDir := TempDir cfg |}
    else Err (Errorf "invalid format")
  else if streq key (go "ffmpeg_path") then
    Ok {| Model := Model cfg; Language := Language cfg; Prompt := Prompt cfg;
          Workers := Workers cfg; ChunkSize := ChunkSize cfg;
          CacheDir := CacheDir cfg; CacheRetention := CacheRetention cfg;
          AutoCleanup := AutoCleanup cfg; OutputFormat := OutputFormat cfg;
          IncludeTimestamps := IncludeTimestamps cfg;
          PreserveStructure := PreserveStructure cfg;
          FFmpegPath := value; TempDir := TempDir cfg |}
  else Err (Errorf "unknown config key").

(** What fmt.Println is given by Get. *)
Inductive Printed :=
| Text (s : list Z)
| Number (n : Z).

(** Get: the value printed, or the error. *)
Definition Get (cfg : Config) (key : list Z) : result Printed :=
  if streq key (go "model") then Ok (Text (Model cfg))
  else if streq key (go "cache_dir") then Ok (Text (CacheDir cfg))
  else if streq key (go "workers") then Ok (Number (Workers cfg))
  else if streq key (go "language") then Ok (Text (Language cfg))
  else if streq key (go "output_format") then Ok (Text (OutputFormat cfg))
  else if streq key (go "ffmpeg_path") then Ok (Text (FFmpegPath cfg))
  else Err (Errorf "unknown config key").

End Config.

(** ** internal/audio/processor.go: GetAudioInfo *)

Module AudioInfo.
Import GoStrings.

Definition COMMA : rune := 44%Z.

(** strings.Replace(s, old, new, 1) for a non-empty [old]: the first
    occurrence replaced. *)
Fixpoint replaceFirst (s old new : gostring) : gostring :=
  if HasPrefix s old then new ++ drop (length old) s
  else match s with
       | [] => []
       | c :: s' => c :: replaceFirst s' old new
       end.

(** The body of the loop over the lines of ffmpeg's output.  [info] is the
    map GetAudioInfo fills. *)
Definition infoStep (info : gmap gostring gostring) (line : gostring)
  : gmap gostring gostring :=
  let line := TrimSpace line in
  let info :=
    if Contains line (go "Duration:") then
      match Split line COMMA with
      | part :: _ =>
          let duration :=
            TrimSpace (replaceFirst part (go "Duration:") []) in
          <[go "duration" := duration]> info
      | [] => info
      end
    else info in
  if Contains line (go "Audio:") then <[go "audio_info" := line]> info
  else info.

(** The loop over the lines. *)
Definition parseLines (lines : list gostring) : gmap gostring gostring :=
  foldl infoStep ∅ lines.

(** GetAudioInfo, for the combined output of the ffmpeg run (whose exit
    status the function ignores); the error it returns is always nil. *)
Definition GetAudioInfo (output : gostring) : gmap gostring gostring :=
  parseLines (Split output NL).

End AudioInfo.

Import AudioInfo.

Arguments isSpace : simpl never.
Arguments isReSpace : simpl never.
Arguments isTerminal : simpl never.
Arguments isUpperAZ : simpl never.
Arguments isGlued : simpl never.
Arguments significantCount : simpl never.
Arguments cleanText : simpl never.
Arguments TrimSpace : simpl never.

Ltac class_solve :=
  unfold isSpace, isReSpace, isTerminal, isUpperAZ, isGlued, SP, NL, DOT, BANG,
    QUERY, unmark in *;
  repeat match goal with
  | H : _ = true |- _ =>
      rewrite ?orb_true_iff, ?andb_true_iff, ?negb_true_iff, ?Z.eqb_eq,
        ?Z.leb_le, ?Z.eqb_neq in H
  | H : _ = false |- _ =>
      rewrite ?orb_false_iff, ?andb_false_iff, ?negb_false_iff, ?Z.eqb_neq,
        ?Z.leb_gt in H
  end;
  try match goal with
  | |- _ = true =>
      rewrite ?orb_true_iff, ?andb_true_iff, ?negb_true_iff, ?Z.eqb_eq,
        ?Z.leb_le, ?Z.eqb_neq
  | |- _ = false =>
      rewrite ?orb_false_iff, ?andb_false_iff, ?negb_false_iff, ?Z.eqb_neq,
        ?Z.leb_gt
  end;
  try lia.

(** * Part II: lemmas and theorems *)

(** ** Classes of runes *)

Lemma isReSpace_isSpace c : isReSpace c = true -> isSpace c = true.
Proof. intros H. class_solve. Qed.

Lemma isTerminal_not_space c : isTerminal c = true -> isSpace c = false.
Proof. intros H. class_solve. Qed.

Lemma isUpperAZ_not_space c : isUpperAZ c = true -> isSpace c = false.
Proof. intros H. class_solve. Qed.

Lemma isTerminal_not_respace c : isTerminal c = true -> isReSpace c = false.
Proof. intros H. class_solve. Qed.

Lemma isUpperAZ_not_terminal c : isUpperAZ c = true -> isTerminal c = false.
Proof. intros H. class_solve. Qed.

Lemma isSpace_SP : isSpace SP = true.
Proof. reflexivity. Qed.

Lemma isSpace_NL : isSpace NL = true.
Proof. reflexivity. Qed.

(** ** takeWhile and dropWhile *)

Lemma takeWhile_dropWhile p s : takeWhile p s ++ dropWhile p s = s.
Proof.
  induction s as [|c s IH]; simpl; [done|].
  destruct (p c); simpl; [by rewrite IH | done].
Qed.

Lemma takeWhile_Forall p s : Forall (fun c => p c = true) (takeWhile p s).
Proof.
  induction s as [|c s IH]; simpl; [constructor|].
  destruct (p c) eqn:E; [by constructor | constructor].
Qed.

Lemma dropWhile_head p s c rest : dropWhile p s = c :: rest -> p c = false.
Proof.
  induction s as [|d s IH]; simpl; [done|].
  destruct (p d) eqn:E; [done|]. by intros [= -> _].
Qed.

Lemma dropWhile_app_Forall p l s :
  Forall (fun c => p c = true) l -> dropWhile p (l ++ s) = dropWhile p s.
Proof. induction 1 as [|c l Hc _ IH]; simpl; [done|]. by rewrite Hc. Qed.

Lemma takeWhile_app_Forall p l s :
  Forall (fun c => p c = true) l -> takeWhile p (l ++ s) = l ++ takeWhile p s.
Proof. induction 1 as [|c l Hc _ IH]; simpl; [done|]. by rewrite Hc, IH. Qed.

Lemma dropWhile_length p s : length (dropWhile p s) <= length s.
Proof.
  induction s as [|c s IH]; simpl; [lia|]. destruct (p c); simpl; lia.
Qed.

Lemma takeWhile_nil_dropWhile p s : takeWhile p s = [] -> dropWhile p s = s.
Proof. destruct s as [|c s]; simpl; [done|]. by destruct (p c). Qed.

(** ** strings.Fields *)

Lemma Fields_cons c x :
  Fields (c :: x) =
  if isSpace c then Fields x
  else if startsWord x
       then match Fields x with
            | w :: ws => (c :: w) :: ws
            | [] => [[c]]
            end
       else [c] :: Fields x.
Proof.
  destruct x as [|d x]; simpl; [by destruct (isSpace c)|].
  destruct (isSpace c); [done|]. by destruct (isSpace d).
Qed.

Lemma Fields_startsWord x :
  startsWord x = true -> exists w ws, Fields x = (w : gostring) :: ws.
Proof.
  destruct x as [|c x]; [done|]. intros H. rewrite Fields_cons.
  simpl in H. apply negb_true_iff in H. rewrite H.
  destruct (startsWord x); [|by eauto]. destruct (Fields x); eauto.
Qed.

Lemma Fields_cong c x y :
  Fields x = Fields y -> startsWord x = startsWord y ->
  Fields (c :: x) = Fields (c :: y).
Proof. intros HF HS. by rewrite !Fields_cons, HF, HS. Qed.

Lemma Fields_app_space a c b :
  isSpace c = true -> Fields (a ++ c :: b) = Fields a ++ Fields b.
Proof.
  intros Hc. induction a as [|x a IH].
  - simpl app. by rewrite Fields_cons, Hc.
  - rewrite <- app_comm_cons, !Fields_cons, IH.
    destruct (isSpace x); [done|].
    assert (startsWord (a ++ c :: b) = startsWord a) as ->.
    { destruct a; simpl; [by rewrite Hc | done]. }
    destruct (startsWord a) eqn:Ha; [|done].
    destruct (Fields_startsWord a Ha) as (w & ws & ->). done.
Qed.

Lemma Fields_spaces l b :
  Forall (fun c => isSpace c = true) l -> Fields (l ++ b) = Fields b.
Proof.
  induction 1 as [|c l Hc _ IH]; [done|].
  rewrite <- app_comm_cons, Fields_cons, Hc. done.
Qed.

Lemma Fields_all_spaces l :
  Forall (fun c => isSpace c = true) l -> Fields l = [].
Proof. intros H. rewrite <- (app_nil_r l). by rewrite Fields_spaces. Qed.

Lemma Fields_app_sep a sep b :
  sep <> [] -> Forall (fun c => isSpace c = true) sep ->
  Fields (a ++ sep ++ b) = Fields a ++ Fields b.
Proof.
  intros Hne Hsp. destruct sep as [|c sep]; [done|].
  inversion Hsp; subst. rewrite <- app_comm_cons, Fields_app_space by done.
  by rewrite Fields_spaces.
Qed.

Lemma Fields_app_spaces_r a r :
  Forall (fun c => isSpace c = true) r -> Fields (a ++ r) = Fields a.
Proof.
  intros H. destruct r as [|c r]; [by rewrite app_nil_r|].
  inversion H; subst. rewrite Fields_app_space by done.
  by rewrite (Fields_all_spaces r), app_nil_r.
Qed.

Lemma Fields_Join es sep :
  sep <> [] -> Forall (fun c => isSpace c = true) sep ->
  Fields (Join es sep) = concat (map Fields es).
Proof.
  intros Hne Hsp. induction es as [|e es IH]; [done|].
  destruct es as [|e' es].
  - simpl. by rewrite app_nil_r.
  - change (Join (e :: e' :: es) sep) with (e ++ sep ++ Join (e' :: es) sep).
    rewrite Fields_app_sep, IH by done. done.
Qed.

(** ** strings.TrimSpace *)

Lemma TrimSpace_decompose s :
  exists l r, s = l ++ TrimSpace s ++ r
    /\ Forall (fun c => isSpace c = true) l
    /\ Forall (fun c => isSpace c = true) r.
Proof.
  exists (takeWhile isSpace s),
         (rev (takeWhile isSpace (rev (dropWhile isSpace s)))).
  split; [|split].
  - unfold TrimSpace. rewrite <- rev_app_distr, takeWhile_dropWhile.
    by rewrite rev_involutive, takeWhile_dropWhile.
  - apply takeWhile_Forall.
  - apply List.Forall_rev, takeWhile_Forall.
Qed.

Lemma Fields_TrimSpace s : Fields (TrimSpace s) = Fields s.
Proof.
  destruct (TrimSpace_decompose s) as (l & r & Hs & Hl & Hr).
  rewrite Hs at 2. by rewrite Fields_spaces, Fields_app_spaces_r.
Qed.

Lemma endsWord_rev s : endsWord s = startsWord (rev s).
Proof.
  unfold endsWord. rewrite <- (rev_involutive s) at 1.
  destruct (rev s) as [|c t]; [done|].
  simpl. rewrite last_snoc. done.
Qed.

Lemma dropWhile_startsWord s :
  startsWord s = true -> dropWhile isSpace s = s.
Proof.
  destruct s as [|c s]; [done|]. simpl. intros H.
  apply negb_true_iff in H. by rewrite H.
Qed.

Lemma TrimSpace_tight s : tight s = true -> TrimSpace s = s.
Proof.
  unfold tight. rewrite andb_true_iff, endsWord_rev. intros [H1 H2].
  unfold TrimSpace. rewrite (dropWhile_startsWord s H1).
  by rewrite (dropWhile_startsWord _ H2), rev_involutive.
Qed.

Lemma startsWord_dropWhile s :
  dropWhile isSpace s <> [] -> startsWord (dropWhile isSpace s) = true.
Proof.
  destruct (dropWhile isSpace s) as [|c t] eqn:E; [done|]. intros _.
  simpl. by rewrite (dropWhile_head _ _ _ _ E).
Qed.

Lemma dropWhile_snoc p l c :
  p c = false -> dropWhile p (l ++ [c]) = dropWhile p l ++ [c].
Proof.
  intros Hc. induction l as [|d l IH]; simpl; [by rewrite Hc|].
  by destruct (p d).
Qed.

Lemma tight_TrimSpace s : TrimSpace s <> [] -> tight (TrimSpace s) = true.
Proof.
  intros Hne. unfold tight. rewrite andb_true_iff, endsWord_rev. split.
  - unfold TrimSpace in *.
    destruct (dropWhile isSpace s) as [|c a] eqn:E; [done|].
    pose proof (dropWhile_head _ _ _ _ E) as Hc.
    change (rev (c :: a)) with (rev a ++ [c]).
    rewrite dropWhile_snoc, rev_app_distr by done. simpl. by rewrite Hc.
  - unfold TrimSpace in *. rewrite rev_involutive.
    apply startsWord_dropWhile. intros E. apply Hne. by rewrite E.
Qed.

Lemma tight_nonempty s : tight s = true -> s <> [].
Proof. by destruct s. Qed.

Lemma TrimSpace_nil_Fields s : TrimSpace s = [] -> Fields s = [].
Proof. intros H. by rewrite <- Fields_TrimSpace, H. Qed.

(** ** The two inner loops of Format *)

Lemma tentativeChunk_prefix f ss words sig :
  exists rest, ss = (tentativeChunk f ss words sig).1 ++ rest.
Proof.
  revert words sig. induction ss as [|s ss IH]; intros words sig; simpl.
  - by exists [].
  - destruct (targetWordCount f <=? words + countWords s)%Z; simpl.
    + by exists ss.
    + match goal with |- context [tentativeChunk f ss ?w ?g] =>
        destruct (IH w g) as [rest Hrest];
        destruct (tentativeChunk f ss w g) as [chunk n] end.
      simpl in *. exists rest. by rewrite <- Hrest.
Qed.

Lemma tentativeChunk_nonempty f s ss words sig :
  (tentativeChunk f (s :: ss) words sig).1 <> [].
Proof.
  simpl. destruct (targetWordCount f <=? words + countWords s)%Z; [done|].
  by destruct (tentativeChunk f ss _ _).
Qed.

Lemma significantCount_cons f s chunk :
  significantCount f (s :: chunk) =
  if isSignificant f s then S (significantCount f chunk)
  else significantCount f chunk.
Proof.
  unfold significantCount. rewrite filter_cons.
  destruct (isSignificant f s) eqn:E.
  - rewrite decide_True by done. done.
  - rewrite decide_False by done. done.
Qed.

Lemma tentativeChunk_count f ss words sig :
  (tentativeChunk f ss words sig).2 =
  (sig + Z.of_nat (significantCount f (tentativeChunk f ss words sig).1))%Z.
Proof.
  revert words sig. induction ss as [|s ss IH]; intros words sig; simpl.
  - unfold significantCount. simpl. lia.
  - destruct (targetWordCount f <=? words + countWords s)%Z; simpl.
    + rewrite significantCount_cons. unfold isSignificant.
      destruct (minWordsForSignificantSentence f <=? countWords s)%Z;
        unfold significantCount; simpl; lia.
    + match goal with |- context [tentativeChunk f ss ?w ?g] =>
        specialize (IH w g);
        destruct (tentativeChunk f ss w g) as [chunk n] end.
      simpl in *. rewrite significantCount_cons. unfold isSignificant.
      destruct (minWordsForSignificantSentence f <=? countWords s)%Z; lia.
Qed.

Lemma limitChunk_prefix f chunk sig :
  exists rest, chunk = limitChunk f chunk sig ++ rest.
Proof.
  revert sig. induction chunk as [|s chunk IH]; intros sig; simpl.
  - by exists [].
  - destruct (minWordsForSignificantSentence f <=? countWords s)%Z.
    + destruct (maxSentencesPerChunk f <=? sig + 1)%Z.
      * by exists chunk.
      * destruct (IH (sig + 1)%Z) as [rest Hrest]. exists rest.
        simpl. by rewrite <- Hrest.
    + destruct (IH sig) as [rest Hrest]. exists rest.
      simpl. by rewrite <- Hrest.
Qed.

Lemma limitChunk_nonempty f s chunk sig : limitChunk f (s :: chunk) sig <> [].
Proof.
  simpl. destruct (minWordsForSignificantSentence f <=? countWords s)%Z;
    [destruct (maxSentencesPerChunk f <=? sig + 1)%Z|]; done.
Qed.

Lemma limitChunk_count f chunk sig :
  (sig < maxSentencesPerChunk f)%Z ->
  (sig + Z.of_nat (significantCount f (limitChunk f chunk sig))
   <= maxSentencesPerChunk f)%Z.
Proof.
  revert sig. induction chunk as [|s chunk IH]; intros sig Hsig; simpl.
  - unfold significantCount. simpl. lia.
  - destruct (minWordsForSignificantSentence f <=? countWords s)%Z eqn:Es.
    + destruct (maxSentencesPerChunk f <=? sig + 1)%Z eqn:Em.
      * rewrite significantCount_cons. unfold isSignificant. rewrite Es.
        unfold significantCount. simpl. lia.
      * apply Z.leb_gt in Em. specialize (IH (sig + 1)%Z ltac:(lia)).
        rewrite significantCount_cons. unfold isSignificant. rewrite Es.
        lia.
    + specialize (IH sig Hsig).
      rewrite significantCount_cons. unfold isSignificant. rewrite Es. lia.
Qed.

Lemma finalChunk_prefix f ss : exists rest, ss = finalChunk f ss ++ rest.
Proof.
  unfold finalChunk.
  destruct (tentativeChunk_prefix f ss 0 0) as [rest Hrest].
  destruct (tentativeChunk f ss 0 0) as [chunk n]. simpl in Hrest.
  destruct (maxSentencesPerChunk f <? n)%Z; [|by exists rest].
  destruct (limitChunk_prefix f chunk 0) as [rest' Hrest'].
  exists (rest' ++ rest). by rewrite app_assoc, <- Hrest'.
Qed.

Lemma finalChunk_nonempty f s ss : finalChunk f (s :: ss) <> [].
Proof.
  unfold finalChunk.
  pose proof (tentativeChunk_nonempty f s ss 0 0) as Hne.
  destruct (tentativeChunk f (s :: ss) 0 0) as [chunk n]. simpl in Hne.
  destruct (maxSentencesPerChunk f <? n)%Z; [|done].
  destruct chunk; [done|]. apply limitChunk_nonempty.
Qed.

Lemma finalChunk_count f ss :
  (0 < maxSentencesPerChunk f)%Z ->
  (Z.of_nat (significantCount f (finalChunk f ss))
   <= maxSentencesPerChunk f)%Z.
Proof.
  intros Hmax. unfold finalChunk.
  pose proof (tentativeChunk_count f ss 0 0) as Hn.
  destruct (tentativeChunk f ss 0 0) as [chunk n]. simpl in Hn.
  destruct (maxSentencesPerChunk f <? n)%Z eqn:E.
  - pose proof (limitChunk_count f chunk 0 Hmax). lia.
  - apply Z.ltb_ge in E. lia.
Qed.

(** ** The outer loop of Format *)

Lemma chunksOf_count f fuel ss :
  (0 < maxSentencesPerChunk f)%Z ->
  Forall (fun chunk =>
            (Z.of_nat (significantCount f chunk) <= maxSentencesPerChunk f)%Z)
         (chunksOf f fuel ss).
Proof.
  intros Hmax. revert ss. induction fuel as [|fuel IH]; intros ss; simpl.
  - constructor.
  - destruct ss as [|s ss]; [constructor|].
    pose proof (finalChunk_count f (s :: ss) Hmax) as Hc.
    destruct (finalChunk f (s :: ss)) as [|x final] eqn:E; [constructor|].
    constructor; [done|]. apply IH.
Qed.

(** With a unit of fuel per sentence the loop consumes every sentence: the
    chunks are a partition of the sentences, in order. *)
Lemma chunksOf_concat f fuel ss :
  length ss <= fuel -> concat (chunksOf f fuel ss) = ss.
Proof.
  revert ss. induction fuel as [|fuel IH]; intros ss Hlen.
  - destruct ss; [done|simpl in Hlen; lia].
  - destruct ss as [|s ss]; [done|]. cbn [chunksOf].
    pose proof (finalChunk_nonempty f s ss) as Hne.
    destruct (finalChunk_prefix f (s :: ss)) as [rest Hrest].
    destruct (finalChunk f (s :: ss)) as [|x final] eqn:E; [done|].
    rewrite Hrest, drop_app_length. cbn [concat]. rewrite IH; [done|].
    apply (f_equal length) in Hrest. rewrite length_app in Hrest.
    simpl in *. lia.
Qed.

Lemma chunksOf_nonempty f fuel ss : Forall (fun chunk => chunk <> []) (chunksOf f fuel ss).
Proof.
  revert ss. induction fuel as [|fuel IH]; intros ss; simpl; [constructor|].
  destruct ss as [|s ss]; [constructor|].
  destruct (finalChunk f (s :: ss)) as [|x final] eqn:E; [constructor|].
  constructor; [done|]. apply IH.
Qed.

Lemma formatLoop_chunksOf f fuel ss out :
  formatLoop f fuel ss out =
  foldl writeParagraph out (map paragraphText (chunksOf f fuel ss)).
Proof.
  revert ss out. induction fuel as [|fuel IH]; intros ss out; simpl; [done|].
  destruct ss as [|s ss]; [done|].
  destruct (finalChunk f (s :: ss)) as [|x final] eqn:E; [done|].
  simpl. rewrite IH. done.
Qed.

(** ** Endings of texts *)

Lemma endsWord_app a b : b <> [] -> endsWord (a ++ b) = endsWord b.
Proof.
  intros Hb. unfold endsWord. rewrite last_app.
  destruct (last b) eqn:E; [done|]. by apply last_None in E.
Qed.

Lemma endsWord_cons c l : endsWord l = true -> endsWord (c :: l) = true.
Proof.
  intros H. destruct l as [|d l]; [done|].
  change (c :: d :: l) with ([c] ++ d :: l). by rewrite endsWord_app.
Qed.

Lemma endsWord_Forall (p : rune -> bool) l :
  (forall c, p c = true -> isSpace c = false) ->
  l <> [] -> Forall (fun c => p c = true) l -> endsWord l = true.
Proof.
  intros Hp Hne Hl. unfold endsWord.
  destruct (last l) as [c|] eqn:E; [|by apply last_None in E].
  apply last_Some in E as [l' ->]. apply Forall_app in Hl as [_ Hl].
  inversion Hl; subst. by rewrite Hp.
Qed.

(** ** The matchers *)

Lemma matchSpaces_Some s repl rest :
  matchSpaces s = Some (repl, rest) ->
  repl = [SP] /\ rest = dropWhile isReSpace s /\ startsReSpace s = true.
Proof.
  unfold matchSpaces. destruct s as [|c s]; simpl; [done|].
  destruct (isReSpace c) eqn:E; [|done]. by intros [= <- <-].
Qed.

Lemma matchSpaces_None s : matchSpaces s = None -> startsReSpace s = false.
Proof.
  unfold matchSpaces. destruct s as [|c s]; simpl; [done|].
  by destruct (isReSpace c).
Qed.

Lemma startsReSpace_dropWhile s : startsReSpace (dropWhile isReSpace s) = false.
Proof.
  destruct (dropWhile isReSpace s) as [|c t] eqn:E; [done|].
  simpl. by apply dropWhile_head in E.
Qed.

Lemma matchSentenceEnd_Some s repl rest :
  matchSentenceEnd s = Some (repl, rest) ->
  exists marks w u,
    s = marks ++ w ++ u :: rest
    /\ marks <> [] /\ Forall (fun c => isTerminal c = true) marks
    /\ w <> [] /\ Forall (fun c => isReSpace c = true) w
    /\ isUpperAZ u = true /\ repl = marks ++ [NL; u].
Proof.
  unfold matchSentenceEnd.
  pose proof (takeWhile_dropWhile isTerminal s) as Hs.
  pose proof (takeWhile_Forall isTerminal s) as Hm.
  destruct (takeWhile isTerminal s) as [|m marks] eqn:Em; [done|].
  pose proof (takeWhile_dropWhile isReSpace (dropWhile isTerminal s)) as Hs1.
  pose proof (takeWhile_Forall isReSpace (dropWhile isTerminal s)) as Hw.
  destruct (takeWhile isReSpace (dropWhile isTerminal s)) as [|x w] eqn:Ew;
    [done|].
  destruct (dropWhile isReSpace (dropWhile isTerminal s)) as [|u rest'] eqn:Er;
    [done|].
  destruct (isUpperAZ u) eqn:Eu; [|done].
  intros [= <- <-]. exists (m :: marks), (x :: w), u.
  repeat split; try done. by rewrite <- Hs, <- Hs1.
Qed.

(** ** Replacement keeps the words *)

Lemma replaceLoop_words m :
  (forall s repl rest X,
     m s = Some (repl, rest) ->
     Fields X = Fields rest -> startsWord X = startsWord rest ->
     Fields (repl ++ X) = Fields s /\ startsWord (repl ++ X) = startsWord s) ->
  forall n s,
    Fields (replaceLoop m n s) = Fields s
    /\ startsWord (replaceLoop m n s) = startsWord s.
Proof.
  intros Hm. induction n as [|n IH]; intros s; simpl; [done|].
  destruct s as [|c s]; [done|].
  destruct (m (c :: s)) as [[repl rest]|] eqn:E.
  - destruct (IH rest) as [H1 H2]. by apply (Hm _ _ _ _ E).
  - destruct (IH s) as [H1 H2]. split; [by apply Fields_cong | done].
Qed.

Lemma Forall_ReSpace_Space l :
  Forall (fun c => isReSpace c = true) l -> Forall (fun c => isSpace c = true) l.
Proof. intros H. eapply Forall_impl; [done|]. apply isReSpace_isSpace. Qed.

Lemma startsReSpace_not_word s : startsReSpace s = true -> startsWord s = false.
Proof.
  destruct s as [|c s]; [done|]. simpl. intros H.
  by rewrite (isReSpace_isSpace _ H).
Qed.

Lemma matchSpaces_words s repl rest X :
  matchSpaces s = Some (repl, rest) ->
  Fields X = Fields rest -> startsWord X = startsWord rest ->
  Fields (repl ++ X) = Fields s /\ startsWord (repl ++ X) = startsWord s.
Proof.
  intros (-> & -> & Hs)%matchSpaces_Some HF _. split.
  - cbn [app]. rewrite Fields_cons, isSpace_SP, HF.
    rewrite <- (takeWhile_dropWhile isReSpace s) at 2.
    rewrite Fields_spaces; [done|].
    apply Forall_ReSpace_Space, takeWhile_Forall.
  - by rewrite (startsReSpace_not_word s Hs).
Qed.

Lemma startsWord_app a b : a <> [] -> startsWord (a ++ b) = startsWord a.
Proof. by destruct a. Qed.

Lemma matchSentenceEnd_words s repl rest X :
  matchSentenceEnd s = Some (repl, rest) ->
  Fields X = Fields rest -> startsWord X = startsWord rest ->
  Fields (repl ++ X) = Fields s /\ startsWord (repl ++ X) = startsWord s.
Proof.
  intros (marks & w & u & -> & Hm & _ & Hw & Hws & Hu & ->)%matchSentenceEnd_Some
    HF HS.
  split.
  - rewrite <- app_assoc. cbn [app].
    rewrite Fields_app_space by apply isSpace_NL.
    rewrite Fields_app_sep by (by try apply Forall_ReSpace_Space).
    f_equal. by apply Fields_cong.
  - rewrite <- app_assoc. by rewrite !startsWord_app.
Qed.

Lemma Fields_collapseSpaces s : Fields (collapseSpaces s) = Fields s.
Proof. apply (replaceLoop_words _ matchSpaces_words). Qed.

Lemma startsWord_collapseSpaces s :
  startsWord (collapseSpaces s) = startsWord s.
Proof. apply (replaceLoop_words _ matchSpaces_words). Qed.

Lemma Fields_markSentenceEnds s : Fields (markSentenceEnds s) = Fields s.
Proof. apply (replaceLoop_words _ matchSentenceEnd_words). Qed.

(** ** Collapsed texts *)

Lemma collapsed_app a b : collapsed (a ++ b) = true -> collapsed b = true.
Proof.
  induction a as [|c a IH]; [done|]. simpl.
  rewrite andb_true_iff. intros [_ H]. by apply IH.
Qed.

Lemma collapsed_no_NL s :
  collapsed s = true -> Forall (fun c => c <> NL) s.
Proof.
  induction s as [|c s IH]; simpl; [constructor|].
  rewrite andb_true_iff. intros [Hc Hs]. constructor; [|by apply IH].
  intros ->. change (isReSpace NL) with true in Hc. done.
Qed.

Lemma collapsed_run w x :
  w <> [] -> Forall (fun c => isReSpace c = true) w ->
  collapsed (w ++ x) = true -> w = [SP].
Proof.
  intros Hne Hw. destruct w as [|c w]; [done|].
  inversion Hw as [|? ? Hc Hw']; subst. simpl. rewrite Hc.
  rewrite !andb_true_iff, negb_true_iff, Z.eqb_eq. intros [[-> Hn] _].
  destruct w as [|d w]; [done|]. inversion Hw'; subst. simpl in Hn. congruence.
Qed.

Lemma collapsed_replaceLoop n s :
  length s <= n ->
  collapsed (replaceLoop matchSpaces n s) = true
  /\ startsReSpace (replaceLoop matchSpaces n s) = startsReSpace s.
Proof.
  revert s. induction n as [|n IH]; intros s Hlen.
  - destruct s; [done|simpl in Hlen; lia].
  - destruct s as [|c s]; [done|]. cbn [replaceLoop].
    destruct (matchSpaces (c :: s)) as [[repl rest]|] eqn:E.
    + apply matchSpaces_Some in E as (-> & -> & Hs).
      simpl in Hs. simpl dropWhile. rewrite Hs.
      destruct (IH (dropWhile isReSpace s)) as [H1 H2].
      { pose proof (dropWhile_length isReSpace s). simpl in Hlen. lia. }
      cbn [app]. split; [|done]. cbn [collapsed].
      rewrite H1, H2, startsReSpace_dropWhile. done.
    + apply matchSpaces_None in E. simpl in E.
      destruct (IH s) as [H1 H2]; [simpl in Hlen; lia|].
      split; [|by simpl]. cbn [collapsed]. by rewrite E, H1.
Qed.

Lemma collapsed_collapseSpaces s : collapsed (collapseSpaces s) = true.
Proof. by apply collapsed_replaceLoop. Qed.

(** Collapsing a collapsed text changes nothing. *)
Lemma replaceLoop_collapsed n s :
  collapsed s = true -> replaceLoop matchSpaces n s = s.
Proof.
  revert s. induction n as [|n IH]; intros s Hs; [done|].
  destruct s as [|c s]; [done|]. cbn [replaceLoop].
  simpl in Hs. apply andb_true_iff in Hs as [Hc Hs].
  unfold matchSpaces. simpl. destruct (isReSpace c) eqn:E.
  - apply andb_true_iff in Hc as [->%Z.eqb_eq Hn]. apply negb_true_iff in Hn.
    assert (dropWhile isReSpace s = s) as ->.
    { destruct s as [|d s]; [done|]. simpl in *. by rewrite Hn. }
    cbn [app]. by rewrite IH.
  - by rewrite IH.
Qed.

Lemma collapseSpaces_collapsed s : collapsed s = true -> collapseSpaces s = s.
Proof. apply replaceLoop_collapsed. Qed.

Lemma endsWord_all_spaces l :
  Forall (fun c => isSpace c = true) l -> endsWord l = false.
Proof.
  intros Hl. unfold endsWord. destruct (last l) as [c|] eqn:E; [|done].
  apply last_Some in E as [l' ->]. apply Forall_app in Hl as [_ Hl].
  inversion Hl; subst. by apply negb_false_iff.
Qed.

Lemma replaceLoop_nil m n : replaceLoop m n [] = [].
Proof. by destruct n. Qed.

Lemma endsWord_tail c s : s <> [] -> endsWord (c :: s) = endsWord s.
Proof. intros H. change (c :: s) with ([c] ++ s). by apply endsWord_app. Qed.

Lemma endsWord_replaceLoop_spaces n s :
  endsWord s = true -> endsWord (replaceLoop matchSpaces n s) = true.
Proof.
  revert s. induction n as [|n IH]; intros s Hs; [done|].
  destruct s as [|c s]; [done|]. cbn [replaceLoop].
  destruct (matchSpaces (c :: s)) as [[repl rest]|] eqn:E.
  - apply matchSpaces_Some in E as (-> & -> & Hc).
    pose proof (takeWhile_dropWhile isReSpace (c :: s)) as Hd.
    pose proof (takeWhile_Forall isReSpace (c :: s)) as Hw.
    destruct (dropWhile isReSpace (c :: s)) as [|d rest] eqn:Er.
    + rewrite app_nil_r in Hd. rewrite Hd in Hw.
      apply Forall_ReSpace_Space, endsWord_all_spaces in Hw. congruence.
    + cbn [app]. apply endsWord_cons, IH.
      rewrite <- Hd in Hs. by rewrite endsWord_app in Hs.
  - destruct s as [|d s]; [by rewrite replaceLoop_nil|].
    apply endsWord_cons, IH. by rewrite endsWord_tail in Hs.
Qed.

(** The normal form of a text that is not blank. *)
Lemma normalize_tight text :
  TrimSpace text <> [] -> tight (normalize text) = true.
Proof.
  intros Hne. apply tight_TrimSpace in Hne. unfold tight in *.
  apply andb_true_iff in Hne as [H1 H2]. apply andb_true_iff. split.
  - unfold normalize. by rewrite startsWord_collapseSpaces.
  - by apply endsWord_replaceLoop_spaces.
Qed.

Lemma normalize_collapsed text : collapsed (normalize text) = true.
Proof. apply collapsed_collapseSpaces. Qed.

(** ** Fuel *)

(** A matcher that consumes at least one rune reaches the end of the text
    within one step per rune: more fuel changes nothing. *)
Lemma replaceLoop_enough m n k s :
  (forall t repl rest, m t = Some (repl, rest) -> length rest < length t) ->
  length s <= n -> length s <= k -> replaceLoop m n s = replaceLoop m k s.
Proof.
  intros Hm. revert k s. induction n as [|n IH]; intros k s Hn Hk.
  - destruct s; [by rewrite !replaceLoop_nil|simpl in Hn; lia].
  - destruct k as [|k]; [destruct s; [done|simpl in Hk; lia]|].
    destruct s as [|c s]; [done|]. cbn [replaceLoop].
    destruct (m (c :: s)) as [[repl rest]|] eqn:E.
    + apply Hm in E. simpl in *. f_equal. apply IH; lia.
    + simpl in *. f_equal. apply IH; lia.
Qed.

Lemma matchSpaces_consumes t repl rest :
  matchSpaces t = Some (repl, rest) -> length rest < length t.
Proof.
  intros (_ & -> & Hs)%matchSpaces_Some. destruct t as [|c t]; [done|].
  simpl in *. rewrite Hs. pose proof (dropWhile_length isReSpace t). lia.
Qed.

Lemma matchSentenceEnd_consumes t repl rest :
  matchSentenceEnd t = Some (repl, rest) -> length rest < length t.
Proof.
  intros (marks & w & u & -> & _)%matchSentenceEnd_Some.
  rewrite !length_app. simpl. lia.
Qed.

Lemma matchLiteral_consumes c old new t repl rest :
  matchLiteral (c :: old) new t = Some (repl, rest) -> length rest < length t.
Proof.
  unfold matchLiteral. destruct t as [|d t]; [done|].
  destruct (HasPrefix (d :: t) (c :: old)); [|done]. intros [= _ <-].
  simpl. rewrite length_drop. lia.
Qed.

Lemma matchRepeated_consumes c t repl rest :
  matchRepeated c t = Some (repl, rest) -> length rest < length t.
Proof.
  unfold matchRepeated. destruct t as [|d t]; [done|]. simpl.
  destruct (c =? d)%Z; [|done].
  destruct (takeWhile (Z.eqb c) t); [done|]. intros [= _ <-].
  pose proof (dropWhile_length (Z.eqb c) t). lia.
Qed.

Lemma collapseSpaces_fuel n s :
  length s <= n -> replaceLoop matchSpaces n s = collapseSpaces s.
Proof.
  intros H. by apply replaceLoop_enough; [apply matchSpaces_consumes|..].
Qed.

Lemma markSentenceEnds_fuel n s :
  length s <= n -> replaceLoop matchSentenceEnd n s = markSentenceEnds s.
Proof.
  intros H. by apply replaceLoop_enough; [apply matchSentenceEnd_consumes|..].
Qed.

Lemma ReplaceAll_fuel n s c old new :
  length s <= n ->
  replaceLoop (matchLiteral (c :: old) new) n s = ReplaceAll s (c :: old) new.
Proof.
  intros H. apply replaceLoop_enough; [|done..].
  intros t repl rest. apply matchLiteral_consumes.
Qed.

Lemma squeezeRepeated_fuel n s c :
  length s <= n -> replaceLoop (matchRepeated c) n s = squeezeRepeated c s.
Proof.
  intros H. apply replaceLoop_enough; [|done..].
  intros t repl rest. apply matchRepeated_consumes.
Qed.

(** The outer loop of Format never stops for want of fuel. *)
Lemma chunksOf_fuel f n k ss :
  length ss <= n -> length ss <= k -> chunksOf f n ss = chunksOf f k ss.
Proof.
  revert k ss. induction n as [|n IH]; intros k ss Hn Hk.
  - destruct ss; [by destruct k|simpl in Hn; lia].
  - destruct k as [|k]; [destruct ss; [done|simpl in Hk; lia]|].
    destruct ss as [|s ss]; [done|]. cbn [chunksOf].
    destruct (finalChunk_prefix f (s :: ss)) as [rest Hrest].
    destruct (finalChunk f (s :: ss)) as [|x final] eqn:E; [done|].
    f_equal. rewrite Hrest, drop_app_length.
    apply (f_equal length) in Hrest. rewrite length_app in Hrest.
    simpl in *. apply IH; lia.
Qed.

(** ** strings.Split and strings.Join *)

Lemma Split_nonempty s sep : exists p ps, Split s sep = p :: ps.
Proof.
  induction s as [|c s (p & ps & IH)]; simpl; [by eauto|].
  destruct (c =? sep)%Z; [by eauto|]. rewrite IH. eauto.
Qed.

Lemma Split_no_sep s sep : Forall (fun c => c <> sep) s -> Split s sep = [s].
Proof.
  induction 1 as [|c s Hc _ IH]; simpl; [done|].
  apply Z.eqb_neq in Hc. by rewrite Hc, IH.
Qed.

Lemma Split_app_sep a b sep :
  Forall (fun c => c <> sep) a -> Split (a ++ sep :: b) sep = a :: Split b sep.
Proof.
  induction 1 as [|c a Hc _ IH]; simpl.
  - by rewrite Z.eqb_refl.
  - apply Z.eqb_neq in Hc. by rewrite Hc, IH.
Qed.

Lemma Split_cons c s sep :
  c <> sep ->
  exists p ps, Split s sep = p :: ps /\ Split (c :: s) sep = (c :: p) :: ps.
Proof.
  intros Hc. destruct (Split_nonempty s sep) as (p & ps & E).
  exists p, ps. split; [done|]. simpl. apply Z.eqb_neq in Hc.
  by rewrite Hc, E.
Qed.

Lemma Split_singleton s sep p : Split s sep = [p] -> s = p.
Proof.
  revert p. induction s as [|c s IH]; intros p; simpl; [by intros [= <-]|].
  destruct (c =? sep)%Z.
  - destruct (Split_nonempty s sep) as (q & qs & ->). done.
  - destruct (Split_nonempty s sep) as (q & qs & E). rewrite E.
    intros [= <- ->]. by rewrite (IH q).
Qed.

Lemma Join_cons_cons e e' es sep :
  Join (e :: e' :: es) sep = e ++ sep ++ Join (e' :: es) sep.
Proof. done. Qed.

Lemma Join_cons_head c p ps sep :
  Join ((c :: p) :: ps) sep = c :: Join (p :: ps) sep.
Proof. by destruct ps. Qed.

Lemma Join_Split_unmark s : Join (Split s NL) [SP] = map unmark s.
Proof.
  induction s as [|c s IH]; [done|].
  destruct (Split_nonempty s NL) as (p & ps & E).
  cbn [Split map]. unfold unmark at 1. rewrite E in *.
  destruct (c =? NL)%Z.
  - rewrite Join_cons_cons. cbn [app]. by rewrite IH.
  - rewrite Join_cons_head. by rewrite IH.
Qed.

Lemma Join_app a b sep :
  a <> [] -> b <> [] -> Join (a ++ b) sep = Join a sep ++ sep ++ Join b sep.
Proof.
  intros Ha Hb. induction a as [|e a IH]; [done|].
  destruct a as [|e' a].
  - destruct b; [done|]. done.
  - rewrite <- app_comm_cons. cbn [app] in *. rewrite !Join_cons_cons.
    rewrite IH by done. by rewrite <- !app_assoc.
Qed.

(** ** Sentence ends in a normal text *)

Lemma map_unmark_id s : Forall (fun c => c <> NL) s -> map unmark s = s.
Proof.
  induction 1 as [|c s Hc _ IH]; [done|]. simpl. rewrite IH.
  unfold unmark. apply Z.eqb_neq in Hc. by rewrite Hc.
Qed.

Lemma terminal_no_NL marks :
  Forall (fun c => isTerminal c = true) marks -> Forall (fun c => c <> NL) marks.
Proof.
  intros H. eapply Forall_impl; [done|]. intros c Hc ->. done.
Qed.

(** Turning the newlines back into spaces undoes the marking. *)
Lemma unmark_replaceLoop n s :
  collapsed s = true -> map unmark (replaceLoop matchSentenceEnd n s) = s.
Proof.
  revert s. induction n as [|n IH]; intros s Hs.
  - by apply map_unmark_id, collapsed_no_NL.
  - destruct s as [|c s]; [done|]. cbn [replaceLoop].
    destruct (matchSentenceEnd (c :: s)) as [[repl rest]|] eqn:E.
    + apply matchSentenceEnd_Some in E
        as (marks & w & u & Hcs & Hm & Hmt & Hw & Hws & Hu & ->).
      rewrite Hcs in Hs. pose proof (collapsed_app _ _ Hs) as Hs1.
      pose proof (collapsed_run _ _ Hw Hws Hs1) as ->.
      rewrite Hcs, !map_app, (map_unmark_id marks)
        by by apply terminal_no_NL.
      rewrite <- app_assoc. f_equal. cbn [map app]. f_equal.
      assert (collapsed (u :: rest) = true) as Hur
        by (by apply (collapsed_app [SP])).
      f_equal.
      * unfold unmark. destruct (Z.eqb_spec u NL) as [->|]; done.
      * apply IH. by apply (collapsed_app [u]).
    + cbn [map]. f_equal.
      * apply collapsed_no_NL in Hs. inversion Hs as [|? ? Hc _]; subst.
        unfold unmark. apply Z.eqb_neq in Hc. by rewrite Hc.
      * apply IH. by apply (collapsed_app [c]).
Qed.

(** The pieces between the marks: all but the first are tight, and the first
    starts as the text does and ends inside a word. *)
Lemma pieces_replaceLoop n s :
  Forall (fun c => c <> NL) s -> (s = [] \/ endsWord s = true) ->
  exists p ps,
    Split (replaceLoop matchSentenceEnd n s) NL = p :: ps
    /\ Forall (fun q => tight q = true) ps
    /\ (s = [] -> p = [])
    /\ (s <> [] -> endsWord p = true /\ head p = head s).
Proof.
  revert s. induction n as [|n IH]; intros s Hnl Hend.
  { exists s, []. rewrite Split_no_sep by done.
    split; [done|]. split; [constructor|]. split; [done|].
    intros Hne. by destruct Hend. }
  destruct s as [|c s].
  { exists [], []. rewrite replaceLoop_nil.
    split; [done|]. split; [constructor|]. by split. }
  destruct Hend as [|Hend]; [done|]. cbn [replaceLoop].
  destruct (matchSentenceEnd (c :: s)) as [[repl rest]|] eqn:E.
  - apply matchSentenceEnd_Some in E
      as (marks & w & u & Hcs & Hm & Hmt & Hw & Hws & Hu & ->).
    rewrite Hcs in Hnl, Hend.
    apply Forall_app in Hnl as [_ Hnl]. apply Forall_app in Hnl as [_ Hnl].
    inversion Hnl as [|? ? Hu_nl Hrest]; subst.
    rewrite app_assoc, endsWord_app in Hend by done.
    destruct (IH rest Hrest) as (q & qs & Eq & Hqs & Hnil & Hlast).
    { destruct rest as [|d rest]; [by left|right].
      by rewrite endsWord_tail in Hend. }
    exists marks, ((u :: q) :: qs). split; [|split; [|split]].
    + rewrite <- app_assoc. cbn [app].
      rewrite Split_app_sep by by apply terminal_no_NL.
      f_equal. cbn [Split]. apply Z.eqb_neq in Hu_nl. by rewrite Hu_nl, Eq.
    + constructor; [|done]. unfold tight. apply andb_true_iff. split.
      * simpl. by rewrite isUpperAZ_not_space.
      * destruct rest as [|d rest].
        -- rewrite Hnil by done. done.
        -- apply endsWord_cons. by apply Hlast.
    + done.
    + intros _. split.
      * apply (endsWord_Forall isTerminal); try done.
        apply isTerminal_not_space.
      * rewrite Hcs. by destruct marks.
  - inversion Hnl as [|? ? Hc Hs]; subst.
    destruct (IH s Hs) as (q & qs & Eq & Hqs & Hnil & Hlast).
    { destruct s as [|d s]; [by left|right].
      by rewrite endsWord_tail in Hend. }
    exists (c :: q), qs. split; [|split; [|split]].
    + cbn [Split]. apply Z.eqb_neq in Hc. by rewrite Hc, Eq.
    + done.
    + done.
    + intros _. split; [|done]. destruct s as [|d s].
      * rewrite Hnil by done. done.
      * apply endsWord_cons. by apply Hlast.
Qed.

Lemma nonEmptyTrimmed_tight ps :
  Forall (fun q => tight q = true) ps -> nonEmptyTrimmed ps = ps.
Proof.
  unfold nonEmptyTrimmed. induction 1 as [|q ps Hq _ IH]; [done|].
  cbn [map]. rewrite filter_cons, IH, (TrimSpace_tight q Hq).
  rewrite decide_True; [done|]. by apply tight_nonempty.
Qed.

(** On an input that is not blank splitIntoSentences yields the pieces of
    the marked normal form: each is tight, and joined by single spaces they
    are the normal form again. *)
Lemma splitIntoSentences_pieces text :
  TrimSpace text <> [] ->
  splitIntoSentences text = Split (markSentenceEnds (normalize text)) NL
  /\ Forall (fun q => tight q = true) (splitIntoSentences text)
  /\ Join (splitIntoSentences text) [SP] = normalize text.
Proof.
  intros Hne.
  pose proof (normalize_tight text Hne) as Ht.
  pose proof (normalize_collapsed text) as Hc.
  assert (Hnonnil : normalize text <> []) by by apply tight_nonempty.
  unfold tight in Ht. apply andb_true_iff in Ht as [Ht1 Ht2].
  destruct (pieces_replaceLoop (length (normalize text)) (normalize text))
    as (p & ps & Ep & Hps & _ & Hp); [by apply collapsed_no_NL|by right|].
  destruct (Hp Hnonnil) as [Hp1 Hp2].
  assert (Hall : Forall (fun q => tight q = true) (p :: ps)).
  { constructor; [|done]. unfold tight. rewrite Hp1, andb_true_r.
    destruct (normalize text) as [|c T]; [done|].
    destruct p as [|d p]; [done|]. simpl in Hp2. by injection Hp2 as ->. }
  assert (Hsplit : splitIntoSentences text
                   = Split (markSentenceEnds (normalize text)) NL).
  { unfold splitIntoSentences. fold (normalize text).
    unfold markSentenceEnds, replaceAllMatches. rewrite Ep.
    rewrite (nonEmptyTrimmed_tight _ Hall).
    destruct ps as [|q qs]; simpl; [|done].
    f_equal. by apply Split_singleton in Ep. }
  split; [done|]. rewrite Hsplit.
  unfold markSentenceEnds, replaceAllMatches. rewrite Ep. split; [done|].
  rewrite <- Ep, Join_Split_unmark. by apply unmark_replaceLoop.
Qed.

(** ** Format as a fold over the paragraphs *)

Lemma streq_true a b : streq a b = true <-> a = b.
Proof. unfold streq. apply bool_decide_eq_true. Qed.

Lemma streq_false a b : streq a b = false <-> a <> b.
Proof. unfold streq. apply bool_decide_eq_false. Qed.

Lemma splitIntoSentences_nonempty text :
  TrimSpace text <> [] -> splitIntoSentences text <> [].
Proof.
  intros Hne. destruct (splitIntoSentences_pieces text Hne) as (-> & _ & _).
  by destruct (Split_nonempty (markSentenceEnds (normalize text)) NL)
    as (p & ps & ->).
Qed.

Lemma Format_paragraphs f text :
  Format f text = TrimSpace (foldl writeParagraph [] (paragraphs f text)).
Proof.
  unfold Format, paragraphs, chunks.
  destruct (streq (TrimSpace text) []) eqn:E; [done|].
  apply streq_false in E.
  pose proof (splitIntoSentences_nonempty text E) as Hne.
  rewrite bool_decide_false by (by destruct (splitIntoSentences text)).
  by rewrite formatLoop_chunksOf.
Qed.

Lemma chunks_concat f text :
  TrimSpace text <> [] -> concat (chunks f text) = splitIntoSentences text.
Proof.
  intros Hne. unfold chunks. apply streq_false in Hne. rewrite Hne.
  by apply chunksOf_concat.
Qed.

Lemma chunks_nonempty f text : Forall (fun chunk => chunk <> []) (chunks f text).
Proof.
  unfold chunks. destruct (streq (TrimSpace text) []); [constructor|].
  apply chunksOf_nonempty.
Qed.

(** ** The clean-up of a paragraph *)

Lemma replaceLoop_startsWord m n s :
  (forall repl rest, m s = Some (repl, rest) -> startsWord repl = true) ->
  startsWord s = true -> startsWord (replaceLoop m n s) = true.
Proof.
  intros Hm Hs. destruct n as [|n]; [done|].
  destruct s as [|c s]; [done|]. cbn [replaceLoop].
  destruct (m (c :: s)) as [[repl rest]|] eqn:E; [|done].
  specialize (Hm _ _ eq_refl). by destruct repl.
Qed.

Lemma HasPrefix_startsWord s c old :
  isSpace c = true -> startsWord s = true -> HasPrefix s (c :: old) = false.
Proof.
  intros Hc. destruct s as [|d s]; [done|]. simpl. intros Hd.
  destruct (Z.eqb_spec d c) as [->|]; [|done]. by rewrite Hc in Hd.
Qed.

Lemma ReplaceAll_startsWord s c old new :
  isSpace c = true -> startsWord s = true ->
  startsWord (ReplaceAll s (c :: old) new) = true.
Proof.
  intros Hc Hs. apply replaceLoop_startsWord; [|done].
  intros repl rest. unfold matchLiteral.
  by rewrite HasPrefix_startsWord.
Qed.

Lemma squeezeRepeated_startsWord c s :
  startsWord s = true -> startsWord (squeezeRepeated c s) = true.
Proof.
  intros Hs. apply replaceLoop_startsWord; [|done].
  intros repl rest. unfold matchRepeated.
  destruct s as [|d s]; [done|]. simpl.
  destruct (Z.eqb_spec c d) as [->|]; [|done].
  destruct (takeWhile (Z.eqb d) s); [done|]. by intros [= <- _].
Qed.

Lemma startsWord_TrimSpace s :
  startsWord s = true -> tight (TrimSpace s) = true.
Proof.
  intros Hs. apply tight_TrimSpace. intros Hnil.
  apply TrimSpace_nil_Fields in Hnil.
  by destruct (Fields_startsWord s Hs) as (w & ws & E); rewrite E in Hnil.
Qed.

(** A paragraph that starts inside a word is not cleaned away. *)
Lemma cleanText_startsWord s :
  startsWord s = true -> tight (cleanText s) = true.
Proof.
  intros Hs. unfold cleanText. apply startsWord_TrimSpace.
  do 3 apply squeezeRepeated_startsWord.
  do 4 (apply ReplaceAll_startsWord; [done|]).
  by rewrite startsWord_collapseSpaces.
Qed.

Lemma startsWord_Join e es sep :
  e <> [] -> startsWord (Join (e :: es) sep) = startsWord e.
Proof.
  intros He. destruct es as [|e' es]; [done|].
  rewrite Join_cons_cons. by apply startsWord_app.
Qed.

Lemma endsWord_Join es sep :
  es <> [] -> Forall (fun q => tight q = true) es ->
  endsWord (Join es sep) = true.
Proof.
  intros Hne Hes. induction Hes as [|e es He Hes IH]; [done|].
  destruct es as [|e' es].
  - simpl. unfold tight in He. by apply andb_true_iff in He as [_ ?].
  - rewrite Join_cons_cons, app_assoc, endsWord_app; [by apply IH|].
    intros Hnil. specialize (IH ltac:(done)). by rewrite Hnil in IH.
Qed.

Lemma tight_Join es sep :
  es <> [] -> Forall (fun q => tight q = true) es ->
  tight (Join es sep) = true.
Proof.
  intros Hne Hes. unfold tight. rewrite endsWord_Join, andb_true_r by done.
  destruct Hes as [|e es He Hes]; [done|].
  unfold tight in He. apply andb_true_iff in He as [He _].
  rewrite startsWord_Join; [done|]. by destruct e.
Qed.

Lemma paragraphText_tight chunk :
  chunk <> [] -> Forall (fun q => tight q = true) chunk ->
  tight (paragraphText chunk) = true.
Proof.
  intros Hne Hc. apply cleanText_startsWord.
  pose proof (tight_Join chunk [SP] Hne Hc) as Ht.
  unfold tight in Ht. by apply andb_true_iff in Ht as [? _].
Qed.

(** ** The significance bound *)

(** C4.  Format writes the texts of the chunks of its outer loop, one
    paragraph per chunk; the chunks are the sentences of the input, in
    order; and for every input no chunk holds more than four significant
    sentences (sentences of at least four words). *)
Theorem Format_significance_bound (text : gostring) :
  Format NewTextFormatter text
  = TrimSpace (foldl writeParagraph []
                 (map paragraphText (chunks NewTextFormatter text)))
  /\ concat (chunks NewTextFormatter text)
     = (if streq (TrimSpace text) [] then [] else splitIntoSentences text)
  /\ Forall (fun chunk => significantCount NewTextFormatter chunk <= 4)
       (chunks NewTextFormatter text).
Proof.
  split; [apply Format_paragraphs|]. split.
  - destruct (streq (TrimSpace text) []) eqn:E.
    + unfold chunks. by rewrite E.
    + apply chunks_concat. by apply streq_false.
  - unfold chunks. destruct (streq (TrimSpace text) []); [constructor|].
    eapply Forall_impl; [by apply chunksOf_count|].
    intros chunk H. simpl in H. lia.
Qed.

(** ** Five sentences of five words *)

Lemma TrimSpace_tight_app p q sep :
  tight p = true -> tight q = true -> TrimSpace (p ++ sep ++ q) = p ++ sep ++ q.
Proof.
  intros Hp Hq. apply TrimSpace_tight. unfold tight in *.
  apply andb_true_iff in Hp as [Hp _]. apply andb_true_iff in Hq as [_ Hq].
  apply andb_true_iff. split.
  - rewrite startsWord_app; [done|]. by destruct p.
  - rewrite app_assoc, endsWord_app; [done|]. by destruct q.
Qed.

Lemma splitIntoSentences_blank text :
  TrimSpace text = [] -> splitIntoSentences text = [[]].
Proof. intros H. unfold splitIntoSentences. by rewrite H. Qed.

(** C8.  When the input consists of exactly five sentences of five words
    each, Format writes exactly two paragraphs: the first four sentences,
    then the fifth. *)
Theorem Format_five_sentences (text s1 s2 s3 s4 s5 : gostring) :
  splitIntoSentences text = [s1; s2; s3; s4; s5] ->
  countWords s1 = 5%Z -> countWords s2 = 5%Z -> countWords s3 = 5%Z ->
  countWords s4 = 5%Z -> countWords s5 = 5%Z ->
  chunks NewTextFormatter text = [[s1; s2; s3; s4]; [s5]]
  /\ paragraphs NewTextFormatter text
     = [paragraphText [s1; s2; s3; s4]; paragraphText [s5]]
  /\ Format NewTextFormatter text
     = paragraphText [s1; s2; s3; s4] ++ [NL; NL] ++ paragraphText [s5].
Proof.
  intros Hsplit H1 H2 H3 H4 H5.
  assert (Hne : TrimSpace text <> []).
  { intros Hnil. by rewrite (splitIntoSentences_blank text Hnil) in Hsplit. }
  assert (Hchunks : chunks NewTextFormatter text = [[s1; s2; s3; s4]; [s5]]).
  { unfold chunks. apply streq_false in Hne. rewrite Hne, Hsplit.
    cbn [length chunksOf]. unfold finalChunk.
    cbn [tentativeChunk limitChunk NewTextFormatter targetWordCount
         maxSentencesPerChunk minWordsForSignificantSentence].
    rewrite H1, H2, H3, H4, H5. simpl. rewrite H1, H2, H3, H4. simpl.
    rewrite H5. simpl. done. }
  split; [done|]. split; [by unfold paragraphs; rewrite Hchunks|].
  rewrite Format_paragraphs. unfold paragraphs. rewrite Hchunks.
  destruct (splitIntoSentences_pieces text Hne) as (_ & Ht & _).
  rewrite Hsplit in Ht.
  assert (Hp1 : tight (paragraphText [s1; s2; s3; s4]) = true).
  { apply paragraphText_tight; [done|].
    by repeat (apply Forall_cons in Ht as [? Ht]; constructor; [done|]). }
  assert (Hp2 : tight (paragraphText [s5]) = true).
  { apply paragraphText_tight; [done|].
    do 4 apply Forall_cons in Ht as [_ Ht]. done. }
  cbn [map foldl]. unfold writeParagraph at 2. cbn [app length].
  rewrite bool_decide_false by lia. unfold writeParagraph.
  rewrite bool_decide_true.
  - rewrite <- app_assoc. by apply TrimSpace_tight_app.
  - apply tight_nonempty in Hp1.
    destruct (paragraphText [s1; s2; s3; s4]); [done|simpl; lia].
Qed.

Lemma Format_five_sentences_witness :
  Format NewTextFormatter fiveSentences
  = go "The cat sat down here. A dog ran up there. We all saw it happen. Nobody said a word then."
    ++ [NL; NL] ++ go "Rain fell on the roof.".
Proof.
  destruct (Format_five_sentences fiveSentences
              (go "The cat sat down here.") (go "A dog ran up there.")
              (go "We all saw it happen.") (go "Nobody said a word then.")
              (go "Rain fell on the roof."))
    as (_ & _ & ->); [vm_compute; reflexivity ..|].
  vm_compute. reflexivity.
Defined.

(** ** Texts the clean-up leaves alone *)

Lemma collapsed_prefix a b : collapsed (a ++ b) = true -> collapsed a = true.
Proof.
  induction a as [|c a IH]; [done|]. cbn [app collapsed].
  rewrite !andb_true_iff. intros [Hc Ha]. split; [|by apply IH].
  destruct (isReSpace c); [|done].
  apply andb_true_iff in Hc as [-> Hn]. by destruct a.
Qed.

Lemma artifactFree_app_r a b :
  artifactFree (a ++ b) = true -> artifactFree b = true.
Proof.
  induction a as [|c a IH]; [done|]. cbn [app artifactFree].
  rewrite andb_true_iff. intros [_ H]. by apply IH.
Qed.

Lemma artifactFree_app_l a b :
  artifactFree (a ++ b) = true -> artifactFree a = true.
Proof.
  induction a as [|c a IH]; [done|]. cbn [app artifactFree].
  rewrite !andb_true_iff. intros [Hc Ha]. split; [|by apply IH].
  by destruct a.
Qed.

Lemma replaceLoop_no_match m n s :
  (forall a t, s = a ++ t -> m t = None) -> replaceLoop m n s = s.
Proof.
  revert s. induction n as [|n IH]; intros s Hm; [done|].
  destruct s as [|c s]; [done|]. cbn [replaceLoop].
  rewrite (Hm [] (c :: s) eq_refl). f_equal. apply IH.
  intros a t ->. by apply (Hm (c :: a)).
Qed.

Lemma matchLiteral_artifactFree d new t :
  isGlued d = true -> artifactFree t = true ->
  matchLiteral [SP; d] new t = None.
Proof.
  intros Hd Ht. unfold matchLiteral.
  destruct t as [|x [|y t]]; [done| by simpl; rewrite andb_false_r |].
  simpl in *. destruct (Z.eqb_spec x SP) as [->|]; [|done].
  destruct (Z.eqb_spec y d) as [->|]; [|done].
  rewrite Hd in Ht. done.
Qed.

Lemma matchRepeated_artifactFree c t :
  isTerminal c = true -> artifactFree t = true -> matchRepeated c t = None.
Proof.
  intros Hc Ht. unfold matchRepeated.
  destruct t as [|x [|y t]]; [done| by simpl; destruct (c =? x)%Z |].
  cbn [takeWhile]. destruct (Z.eqb_spec c x) as [<-|]; [|done].
  destruct (Z.eqb_spec c y) as [<-|]; [|done].
  cbn [artifactFree] in Ht. rewrite Hc, Z.eqb_refl in Ht.
  by destruct ((c =? SP)%Z && isGlued c).
Qed.

Lemma ReplaceAll_artifactFree d new s :
  isGlued d = true -> artifactFree s = true -> ReplaceAll s [SP; d] new = s.
Proof.
  intros Hd Hs. apply replaceLoop_no_match. intros a t ->.
  apply matchLiteral_artifactFree; [done|]. by apply artifactFree_app_r in Hs.
Qed.

Lemma squeezeRepeated_artifactFree c s :
  isTerminal c = true -> artifactFree s = true -> squeezeRepeated c s = s.
Proof.
  intros Hc Hs. apply replaceLoop_no_match. intros a t ->.
  apply matchRepeated_artifactFree; [done|]. by apply artifactFree_app_r in Hs.
Qed.

(** cleanText changes nothing in a tight, collapsed text without
    artifacts. *)
Lemma cleanText_clean s :
  collapsed s = true -> artifactFree s = true -> tight s = true ->
  cleanText s = s.
Proof.
  intros Hc Ha Ht. unfold cleanText.
  rewrite (collapseSpaces_collapsed s Hc).
  change (go " ,") with [SP; 44%Z]. change (go " .") with [SP; 46%Z].
  change (go " !") with [SP; 33%Z]. change (go " ?") with [SP; 63%Z].
  rewrite (ReplaceAll_artifactFree 44%Z _ s) by (reflexivity || assumption).
  rewrite (ReplaceAll_artifactFree 46%Z _ s) by (reflexivity || assumption).
  rewrite (ReplaceAll_artifactFree 33%Z _ s) by (reflexivity || assumption).
  rewrite (ReplaceAll_artifactFree 63%Z _ s) by (reflexivity || assumption).
  rewrite (squeezeRepeated_artifactFree DOT s) by (reflexivity || assumption).
  rewrite (squeezeRepeated_artifactFree BANG s) by (reflexivity || assumption).
  rewrite (squeezeRepeated_artifactFree QUERY s) by (reflexivity || assumption).
  by apply TrimSpace_tight.
Qed.

Lemma Join_concat cs sep :
  Forall (fun chunk => chunk <> []) cs ->
  Join (map (fun chunk => Join chunk sep) cs) sep = Join (concat cs) sep.
Proof.
  induction 1 as [|c cs Hc Hcs IH]; [done|].
  destruct cs as [|c' cs].
  - simpl. by rewrite app_nil_r.
  - cbn [map concat] in *. rewrite Join_cons_cons, IH.
    rewrite (Join_app c (c' ++ concat cs)); [done|done|].
    inversion Hcs; subst. by destruct c'.
Qed.

Lemma chunk_texts_clean cs :
  Forall (fun chunk => chunk <> []) cs ->
  Forall (fun q => tight q = true) (concat cs) ->
  collapsed (Join (concat cs) [SP]) = true ->
  artifactFree (Join (concat cs) [SP]) = true ->
  Forall (fun chunk => paragraphText chunk = Join chunk [SP]) cs.
Proof.
  induction 1 as [|c cs Hc Hcs IH]; [constructor|].
  cbn [concat]. intros Ht Hcol Haf. apply Forall_app in Ht as [Ht1 Ht2].
  destruct cs as [|c' cs].
  - cbn [concat] in *. rewrite app_nil_r in *.
    constructor; [|constructor].
    apply cleanText_clean; [done..|]. by apply tight_Join.
  - assert (Hrest : concat (c' :: cs) <> []).
    { inversion Hcs; subst. by destruct c'. }
    rewrite Join_app in Hcol, Haf by done.
    constructor.
    + apply cleanText_clean.
      * by apply collapsed_prefix in Hcol.
      * by apply artifactFree_app_l in Haf.
      * by apply tight_Join.
    + apply IH; [done| |].
      * rewrite app_assoc in Hcol. by apply collapsed_app in Hcol.
      * rewrite app_assoc in Haf. by apply artifactFree_app_r in Haf.
Qed.

Lemma paragraphs_clean f text :
  artifactFree (normalize text) = true ->
  paragraphs f text = map (fun chunk => Join chunk [SP]) (chunks f text).
Proof.
  intros Haf. unfold paragraphs.
  destruct (decide (TrimSpace text = [])) as [Hnil|Hne].
  { unfold chunks. apply streq_true in Hnil. by rewrite Hnil. }
  destruct (splitIntoSentences_pieces text Hne) as (_ & Ht & HJ).
  apply List.map_ext_Forall.
  pose proof (chunk_texts_clean (chunks f text) (chunks_nonempty f text)) as H.
  rewrite chunks_concat, HJ in H by done.
  exact (H Ht (normalize_collapsed text) Haf).
Qed.

Lemma Fields_writeParagraph out p :
  Fields (writeParagraph out p) = Fields out ++ Fields p.
Proof.
  unfold writeParagraph. case_bool_decide as Hlen.
  - rewrite <- app_assoc. apply Fields_app_sep; [done|].
    by repeat constructor.
  - destruct out; [done|simpl in Hlen; lia].
Qed.

Lemma Fields_foldl_writeParagraph ps out :
  Fields (foldl writeParagraph out ps) = Fields out ++ concat (map Fields ps).
Proof.
  revert out. induction ps as [|p ps IH]; intros out; simpl.
  - by rewrite app_nil_r.
  - by rewrite IH, Fields_writeParagraph, <- app_assoc.
Qed.

Lemma concat_map_Fields_Join cs :
  concat (map Fields (map (fun chunk => Join chunk [SP]) cs))
  = concat (map Fields (concat cs)).
Proof.
  induction cs as [|c cs IH]; [done|]. cbn [map concat].
  rewrite map_app, concat_app, IH. f_equal.
  apply Fields_Join; [done|]. by repeat constructor.
Qed.

(** The words of the sentences are the words of the input. *)
Lemma splitIntoSentences_words text :
  TrimSpace text <> [] ->
  concat (map Fields (splitIntoSentences text)) = Fields text.
Proof.
  intros Hne. destruct (splitIntoSentences_pieces text Hne) as (_ & _ & HJ).
  rewrite <- (Fields_Join _ [SP]) by (by repeat constructor).
  rewrite HJ. unfold normalize.
  by rewrite Fields_collapseSpaces, Fields_TrimSpace.
Qed.

(** Without artifacts the paragraphs, rejoined by single spaces, are the
    normal form of the input. *)
Lemma paragraphs_rejoined f text :
  artifactFree (normalize text) = true ->
  Join (paragraphs f text) [SP] = normalize text.
Proof.
  intros Haf. destruct (decide (TrimSpace text = [])) as [Hnil|Hne].
  { pose proof (proj2 (streq_true _ _) Hnil) as Hs.
    unfold normalize, paragraphs, chunks. by rewrite Hs, Hnil. }
  destruct (splitIntoSentences_pieces text Hne) as (_ & _ & HJ).
  rewrite (paragraphs_clean f text Haf).
  rewrite Join_concat by apply chunks_nonempty.
  by rewrite chunks_concat.
Qed.

(** ** Word preservation *)

(** C1, as the code has it.  When the white-space normal form of the input
    has no space directly before one of , . ! ? and no terminal mark
    directly followed by the same mark, the words of the output of Format
    are the words of the input, in order; the paragraphs, rejoined by single
    spaces, are the normal form of the input itself. *)
Theorem Format_preserves_words (f : TextFormatter) (text : gostring) :
  artifactFree (normalize text) = true ->
  Fields (Format f text) = Fields text
  /\ Join (paragraphs f text) [SP] = normalize text.
Proof.
  intros Haf. split; [|by apply paragraphs_rejoined].
  rewrite Format_paragraphs, Fields_TrimSpace.
  rewrite Fields_foldl_writeParagraph. cbn [Fields app].
  destruct (decide (TrimSpace text = [])) as [Hnil|Hne].
  - rewrite (TrimSpace_nil_Fields text Hnil). unfold paragraphs, chunks.
    apply streq_true in Hnil. by rewrite Hnil.
  - rewrite (paragraphs_clean f text Haf), concat_map_Fields_Join.
    rewrite chunks_concat by done. by apply splitIntoSentences_words.
Qed.

Lemma Format_preserves_words_witness :
  Fields (Format NewTextFormatter fiveSentences) = Fields fiveSentences.
Proof.
  apply (Format_preserves_words NewTextFormatter fiveSentences).
  vm_compute. reflexivity.
Defined.

(** C1, as the specification has it, fails: the clean-up glues a comma that
    stands alone to the word before it. *)
Lemma Format_words_counterexample :
  Fields (Format NewTextFormatter (go "hello , world"))
  <> Fields (go "hello , world").
Proof. vm_compute. discriminate. Qed.

(** ** The squeeze, rune by rune *)

Lemma squeeze_head c s : head (squeeze c s) = head s.
Proof.
  induction s as [|x s IH]; [done|]. cbn [squeeze].
  destruct (Z.eqb_spec c x) as [<-|Hx]; [|done].
  destruct s as [|y s]; [done|]. cbn [nextIs].
  destruct (Z.eqb_spec c y) as [<-|Hy]; [|done].
  cbn [andb]. by rewrite IH.
Qed.

Lemma nextIs_head c s t : head s = head t -> nextIs c s = nextIs c t.
Proof. destruct s, t; try done. by intros [= ->]. Qed.

Lemma nextIs_squeeze c d s : nextIs c (squeeze d s) = nextIs c s.
Proof. apply nextIs_head, squeeze_head. Qed.

Lemma squeeze_nil c s : squeeze c s = [] -> s = [].
Proof.
  intros H. pose proof (squeeze_head c s) as Hh. rewrite H in Hh.
  by destruct s.
Qed.

Lemma squeeze_last c s : last (squeeze c s) = last s.
Proof.
  induction s as [|x s IH]; [done|]. cbn [squeeze].
  destruct s as [|y s]; [by rewrite andb_false_r|].
  destruct ((c =? x)%Z && nextIs c (y :: s)).
  - by rewrite IH.
  - destruct (squeeze c (y :: s)) as [|z zs] eqn:E.
    + by apply squeeze_nil in E.
    + rewrite last_cons_cons, IH. done.
Qed.

(** A rune other than [c] stops the squeeze on both sides. *)
Lemma squeeze_app_sep c a x b :
  (c =? x)%Z = false ->
  squeeze c (a ++ x :: b) = squeeze c a ++ x :: squeeze c b.
Proof.
  intros Hx. induction a as [|y a IH].
  - cbn [app squeeze]. by rewrite Hx.
  - cbn [app squeeze]. rewrite IH.
    assert (nextIs c (a ++ x :: b) = nextIs c a) as ->.
    { destruct a; [|done]. cbn [app nextIs]. by rewrite Hx. }
    by destruct ((c =? y)%Z && nextIs c a).
Qed.

Lemma squeeze_app_last c a u b :
  last a = Some u -> (c =? u)%Z = false ->
  squeeze c (a ++ b) = squeeze c a ++ squeeze c b.
Proof.
  intros Hl Hu.
  destruct (last_Some a u) as [[a0 ->] _]; [done|].
  rewrite <- app_assoc. cbn [app].
  rewrite !(squeeze_app_sep c a0 u) by done.
  by rewrite <- app_assoc.
Qed.

Lemma squeeze_Forall (P : Z -> Prop) c s :
  Forall P s -> Forall P (squeeze c s).
Proof.
  induction 1 as [|x s Hx Hs IH]; [constructor|]. cbn [squeeze].
  destruct ((c =? x)%Z && _); [done|by constructor].
Qed.

(** Of a run of [c] at the head the squeeze leaves one. *)
Lemma squeeze_run c s :
  squeeze c (c :: s) = c :: squeeze c (dropWhile (Z.eqb c) s).
Proof.
  induction s as [|y s IH].
  { cbn [squeeze dropWhile nextIs]. by rewrite andb_false_r. }
  cbn [dropWhile]. destruct (Z.eqb_spec c y) as [<-|Hy].
  - rewrite <- IH. cbn [squeeze nextIs]. by rewrite Z.eqb_refl.
  - cbn [squeeze nextIs]. apply Z.eqb_neq in Hy.
    by rewrite Hy, andb_false_r.
Qed.

(** squeezeRepeated is that squeeze. *)
Lemma replaceLoop_squeeze c n s :
  length s <= n -> replaceLoop (matchRepeated c) n s = squeeze c s.
Proof.
  revert s. induction n as [|n IH]; intros s Hn.
  { destruct s; [done|simpl in Hn; lia]. }
  destruct s as [|x s]; [done|]. cbn [replaceLoop length] in *.
  destruct (Z.eqb_spec c x) as [<-|Hx].
  - destruct s as [|y s].
    + assert (matchRepeated c [c] = None) as ->.
      { unfold matchRepeated. cbn [takeWhile]. by rewrite Z.eqb_refl. }
      rewrite replaceLoop_nil. cbn [squeeze nextIs].
      by rewrite andb_false_r.
    + destruct (Z.eqb_spec c y) as [<-|Hy].
      * assert (matchRepeated c (c :: c :: s)
                = Some ([c], dropWhile (Z.eqb c) s)) as ->.
        { unfold matchRepeated. cbn [takeWhile dropWhile].
          by rewrite !Z.eqb_refl. }
        rewrite IH.
        2:{ pose proof (dropWhile_length (Z.eqb c) s).
            cbn [length] in Hn. lia. }
        rewrite (squeeze_run c (c :: s)). cbn [dropWhile app].
        by rewrite Z.eqb_refl.
      * apply Z.eqb_neq in Hy.
        assert (matchRepeated c (c :: y :: s) = None) as ->.
        { unfold matchRepeated. cbn [takeWhile].
          by rewrite Z.eqb_refl, Hy. }
        rewrite IH by lia. cbn [squeeze nextIs].
        by rewrite Hy, andb_false_r.
  - apply Z.eqb_neq in Hx.
    assert (matchRepeated c (x :: s) = None) as ->.
    { unfold matchRepeated. cbn [takeWhile]. by rewrite Hx. }
    rewrite IH by lia. cbn [squeeze]. by rewrite Hx.
Qed.

Lemma squeezeRepeated_squeeze c s : squeezeRepeated c s = squeeze c s.
Proof. by apply replaceLoop_squeeze. Qed.

(** What the squeeze keeps. *)

Lemma startsWord_squeeze c s : startsWord (squeeze c s) = startsWord s.
Proof.
  pose proof (squeeze_head c s) as H.
  destruct s as [|x s], (squeeze c _) as [|y t]; try done.
  by injection H as ->.
Qed.

Lemma startsReSpace_squeeze c s :
  startsReSpace (squeeze c s) = startsReSpace s.
Proof.
  pose proof (squeeze_head c s) as H.
  destruct s as [|x s], (squeeze c _) as [|y t]; try done.
  by injection H as ->.
Qed.

Lemma tight_squeeze c s : tight (squeeze c s) = tight s.
Proof.
  unfold tight, endsWord. by rewrite startsWord_squeeze, squeeze_last.
Qed.

Lemma collapsed_squeeze c s :
  collapsed s = true -> collapsed (squeeze c s) = true.
Proof.
  induction s as [|x s IH]; [done|]. cbn [collapsed squeeze].
  rewrite andb_true_iff. intros [Hx Hs]. specialize (IH Hs).
  destruct ((c =? x)%Z && _); [done|].
  cbn [collapsed]. by rewrite startsReSpace_squeeze, Hx, IH.
Qed.

Lemma noPair_squeeze bad c s :
  noPair bad s = true -> noPair bad (squeeze c s) = true.
Proof.
  induction s as [|x s IH]; [done|]. cbn [noPair squeeze].
  rewrite andb_true_iff. intros [Hx Hs]. specialize (IH Hs).
  destruct ((c =? x)%Z && _); [done|].
  cbn [noPair]. rewrite IH, andb_true_r.
  pose proof (squeeze_head c s) as Hh.
  destruct s as [|y s], (squeeze c _) as [|z t]; try done.
  by injection Hh as ->.
Qed.

(** After the squeeze of [c] no two of them are adjacent. *)
Lemma noPair_squeeze_self c s :
  noPair (fun a b => (c =? a)%Z && (c =? b)%Z) (squeeze c s) = true.
Proof.
  induction s as [|x s IH]; [done|]. cbn [squeeze].
  destruct ((c =? x)%Z && _) eqn:E; [done|].
  cbn [noPair]. rewrite IH, andb_true_r.
  pose proof (squeeze_head c s) as Hh.
  destruct s as [|y s], (squeeze c _) as [|z t]; try done.
  injection Hh as ->. cbn [nextIs] in E. by rewrite E.
Qed.

Lemma noPair_cons bad x y s :
  noPair bad (x :: y :: s) = negb (bad x y) && noPair bad (y :: s).
Proof. done. Qed.

Lemma noPair_ext bad bad' s :
  (forall a b, bad a b = bad' a b) -> noPair bad s = noPair bad' s.
Proof.
  intros H. induction s as [|x s IH]; [done|].
  destruct s as [|y s]; [done|]. by rewrite !noPair_cons, H, IH.
Qed.

Lemma noPair_or bad bad' s :
  noPair (fun a b => bad a b || bad' a b) s
  = noPair bad s && noPair bad' s.
Proof.
  induction s as [|x s IH]; [done|].
  destruct s as [|y s]; [done|]. rewrite !noPair_cons, IH, negb_orb.
  destruct (bad x y), (bad' x y), (noPair bad (y :: s)),
    (noPair bad' (y :: s)); done.
Qed.

Lemma noSpaceBeforeMark_noPair s :
  noSpaceBeforeMark s = noPair (fun a b => (a =? SP)%Z && isGlued b) s.
Proof.
  induction s as [|x s IH]; [done|].
  destruct s as [|y s]; [done|]. rewrite noPair_cons, <- IH. done.
Qed.

Lemma artifactFree_noPair s :
  artifactFree s
  = noPair (fun a b => (a =? SP)%Z && isGlued b
                       || isTerminal a && (a =? b)%Z) s.
Proof.
  induction s as [|x s IH]; [done|].
  destruct s as [|y s]; [done|]. rewrite noPair_cons, <- IH, negb_orb. done.
Qed.

Lemma isTerminal_doubled a b :
  isTerminal a && (a =? b)%Z
  = (DOT =? a)%Z && (DOT =? b)%Z
    || ((BANG =? a)%Z && (BANG =? b)%Z
        || (QUERY =? a)%Z && (QUERY =? b)%Z).
Proof.
  unfold isTerminal, DOT, BANG, QUERY.
  destruct (Z.eqb_spec a b) as [<-|Hne].
  - rewrite andb_true_r, !(Z.eqb_sym a), !andb_diag. by rewrite <- orb_assoc.
  - rewrite andb_false_r.
    destruct (Z.eqb_spec 46 a), (Z.eqb_spec 46 b), (Z.eqb_spec 33 a),
      (Z.eqb_spec 33 b), (Z.eqb_spec 63 a), (Z.eqb_spec 63 b);
      try done; congruence.
Qed.

Lemma noSpaceBeforeMark_squeeze c s :
  noSpaceBeforeMark s = true -> noSpaceBeforeMark (squeeze c s) = true.
Proof. rewrite !noSpaceBeforeMark_noPair. apply noPair_squeeze. Qed.

(** After the three squeezes nothing is left for the clean-up to do. *)
Lemma artifactFree_squeezeMarks s :
  noSpaceBeforeMark s = true -> artifactFree (squeezeMarks s) = true.
Proof.
  intros H. rewrite artifactFree_noPair, noPair_or.
  rewrite <- noSpaceBeforeMark_noPair.
  assert (noSpaceBeforeMark (squeezeMarks s) = true) as ->.
  { unfold squeezeMarks. by do 3 apply noSpaceBeforeMark_squeeze. }
  cbn [andb]. unfold squeezeMarks.
  rewrite (noPair_ext _ _ _ isTerminal_doubled), !noPair_or.
  rewrite !andb_true_iff. repeat split.
  - by apply noPair_squeeze, noPair_squeeze, noPair_squeeze_self.
  - by apply noPair_squeeze, noPair_squeeze_self.
  - by apply noPair_squeeze_self.
Qed.

Lemma tight_squeezeMarks s : tight (squeezeMarks s) = tight s.
Proof. unfold squeezeMarks. by rewrite !tight_squeeze. Qed.

Lemma collapsed_squeezeMarks s :
  collapsed s = true -> collapsed (squeezeMarks s) = true.
Proof. intros H. unfold squeezeMarks. by do 3 apply collapsed_squeeze. Qed.

Lemma cleanText_squeezeMarks s :
  collapsed s = true -> noSpaceBeforeMark s = true -> tight s = true ->
  cleanText (squeezeMarks s) = squeezeMarks s.
Proof.
  intros Hc Hn Ht. apply cleanText_clean.
  - by apply collapsed_squeezeMarks.
  - by apply artifactFree_squeezeMarks.
  - by rewrite tight_squeezeMarks.
Qed.

(** cleanText of a text without a space before a mark. *)

Lemma noSpaceBeforeMark_app_r a b :
  noSpaceBeforeMark (a ++ b) = true -> noSpaceBeforeMark b = true.
Proof.
  induction a as [|c a IH]; [done|]. cbn [app noSpaceBeforeMark].
  rewrite andb_true_iff. intros [_ H]. by apply IH.
Qed.

Lemma noSpaceBeforeMark_app_l a b :
  noSpaceBeforeMark (a ++ b) = true -> noSpaceBeforeMark a = true.
Proof.
  induction a as [|c a IH]; [done|]. cbn [app noSpaceBeforeMark].
  rewrite !andb_true_iff. intros [Hc Ha]. split; [|by apply IH].
  by destruct a.
Qed.

Lemma matchLiteral_noSpaceBeforeMark d new t :
  isGlued d = true -> noSpaceBeforeMark t = true ->
  matchLiteral [SP; d] new t = None.
Proof.
  intros Hd Ht. unfold matchLiteral.
  destruct t as [|x [|y t]]; [done| by simpl; rewrite andb_false_r |].
  simpl in *. destruct (Z.eqb_spec x SP) as [->|]; [|done].
  destruct (Z.eqb_spec y d) as [->|]; [|done].
  rewrite Hd in Ht. done.
Qed.

Lemma ReplaceAll_noSpaceBeforeMark d new s :
  isGlued d = true -> noSpaceBeforeMark s = true ->
  ReplaceAll s [SP; d] new = s.
Proof.
  intros Hd Hs. apply replaceLoop_no_match. intros a t ->.
  apply matchLiteral_noSpaceBeforeMark; [done|].
  by apply noSpaceBeforeMark_app_r in Hs.
Qed.

(** In a collapsed, tight text without a space before a mark the clean-up
    comes down to its three squeezes. *)
Lemma cleanText_squeeze s :
  collapsed s = true -> noSpaceBeforeMark s = true -> tight s = true ->
  cleanText s = squeezeMarks s.
Proof.
  intros Hc Hn Ht. unfold cleanText.
  rewrite (collapseSpaces_collapsed s Hc).
  change (go " ,") with [SP; 44%Z]. change (go " .") with [SP; 46%Z].
  change (go " !") with [SP; 33%Z]. change (go " ?") with [SP; 63%Z].
  rewrite (ReplaceAll_noSpaceBeforeMark 44%Z _ s)
    by (reflexivity || assumption).
  rewrite (ReplaceAll_noSpaceBeforeMark 46%Z _ s)
    by (reflexivity || assumption).
  rewrite (ReplaceAll_noSpaceBeforeMark 33%Z _ s)
    by (reflexivity || assumption).
  rewrite (ReplaceAll_noSpaceBeforeMark 63%Z _ s)
    by (reflexivity || assumption).
  rewrite !squeezeRepeated_squeeze. fold (squeezeMarks s).
  apply TrimSpace_tight. by rewrite tight_squeezeMarks.
Qed.

(** The squeeze and the words. *)

Lemma countWords_Fields s :
  Formatter.countWords s = Z.of_nat (length (Fields s)).
Proof.
  unfold Formatter.countWords. cbv zeta.
  destruct (streq (TrimSpace s) []) eqn:E.
  - apply streq_true in E. by rewrite (TrimSpace_nil_Fields s E).
  - by rewrite Fields_TrimSpace.
Qed.

Lemma Fields_squeeze_length c s :
  isSpace c = false ->
  length (Fields (squeeze c s)) = length (Fields s).
Proof.
  intros Hc. induction s as [|x s IH]; [done|]. cbn [squeeze].
  destruct ((c =? x)%Z && _) eqn:E.
  - apply andb_true_iff in E as [Hx Hy]. apply Z.eqb_eq in Hx. subst x.
    rewrite IH, Fields_cons, Hc.
    destruct s as [|y s]; [done|]. cbn [nextIs] in Hy.
    apply Z.eqb_eq in Hy. subst y.
    assert (Hs : startsWord (c :: s) = true) by (cbn; by rewrite Hc).
    rewrite Hs. destruct (Fields_startsWord _ Hs) as (w & ws & ->). done.
  - rewrite !Fields_cons, startsWord_squeeze.
    destruct (isSpace x); [done|].
    destruct (startsWord s) eqn:Hs.
    + destruct (Fields_startsWord _ Hs) as (w & ws & Hw).
      rewrite Hw in IH |- *.
      destruct (Fields (squeeze c s)) as [|w' ws']; [done|]. done.
    + cbn [length]. by rewrite IH.
Qed.

Lemma countWords_squeeze c s :
  isSpace c = false -> countWords (squeeze c s) = countWords s.
Proof.
  intros Hc. by rewrite !countWords_Fields, Fields_squeeze_length.
Qed.

Lemma countWords_squeezeMarks s : countWords (squeezeMarks s) = countWords s.
Proof. unfold squeezeMarks. by rewrite !countWords_squeeze. Qed.

(** The squeeze, the pieces and the joins. *)

Lemma Split_head s sep p ps :
  Split s sep = p :: ps ->
  head p = match s with
           | y :: _ => if (y =? sep)%Z then None else Some y
           | [] => None
           end.
Proof.
  destruct s as [|y s]; cbn [Split]; [by intros [= <- <-]|].
  destruct (y =? sep)%Z; [by intros [= <- <-]|].
  destruct (Split s sep); by intros [= <- <-].
Qed.

Lemma Split_squeeze c s sep :
  (c =? sep)%Z = false ->
  Split (squeeze c s) sep = map (squeeze c) (Split s sep).
Proof.
  intros Hc. induction s as [|x s IH]; [done|]. cbn [squeeze].
  destruct ((c =? x)%Z && _) eqn:E.
  - apply andb_true_iff in E as [Hx Hy]. apply Z.eqb_eq in Hx. subst x.
    destruct s as [|y s]; [done|]. cbn [nextIs] in Hy.
    apply Z.eqb_eq in Hy. subst y.
    rewrite IH. cbn [Split] in *. rewrite !Hc.
    destruct (Split s sep) as [|p ps] eqn:Ep.
    + cbn [map squeeze nextIs]. by rewrite Z.eqb_refl.
    + cbn [map squeeze nextIs]. by rewrite Z.eqb_refl.
  - cbn [Split]. destruct (Z.eqb_spec x sep) as [->|Hx].
    + by rewrite IH.
    + rewrite IH. destruct (Split_nonempty s sep) as (p & ps & Ep).
      rewrite Ep.
      cbn [map squeeze]. pose proof (Split_head _ _ _ _ Ep) as Hp.
      assert (nextIs c p = nextIs c s) as ->; [|by rewrite E].
      destruct s as [|y s]; [by destruct p|].
      destruct (Z.eqb_spec y sep) as [->|Hy].
      * destruct p; [|done]. cbn [nextIs]. by rewrite Hc.
      * destruct p as [|z p]; [done|]. by injection Hp as ->.
Qed.

Lemma Join_squeeze c ps :
  (c =? SP)%Z = false ->
  Join (map (squeeze c) ps) [SP] = squeeze c (Join ps [SP]).
Proof.
  intros Hc. induction ps as [|p ps IH]; [done|].
  destruct ps as [|q ps]; [done|].
  cbn [map] in *. rewrite !Join_cons_cons, IH. cbn [app].
  by rewrite squeeze_app_sep.
Qed.

Lemma Split_squeezeMarks s :
  Split (squeezeMarks s) NL = map squeezeMarks (Split s NL).
Proof.
  unfold squeezeMarks. rewrite !Split_squeeze by done.
  by rewrite !map_map.
Qed.

Lemma Join_squeezeMarks ps :
  Join (map squeezeMarks ps) [SP] = squeezeMarks (Join ps [SP]).
Proof.
  unfold squeezeMarks. rewrite <- !Join_squeeze by done.
  by rewrite !map_map.
Qed.

(** The squeeze and the sentence ends. *)

Lemma terminal_neq c x :
  isTerminal c = true -> isTerminal x = false -> (c =? x)%Z = false.
Proof.
  intros Hc Hx. destruct (Z.eqb_spec c x) as [->|]; [congruence|done].
Qed.

Lemma nextIs_takeWhile c s :
  isTerminal c = true -> nextIs c (takeWhile isTerminal s) = nextIs c s.
Proof.
  intros Hc. destruct s as [|y s]; [done|]. cbn [takeWhile nextIs].
  destruct (isTerminal y) eqn:Hy; [done|].
  cbn [nextIs]. symmetry. by apply terminal_neq.
Qed.

Lemma takeWhile_terminal_squeeze c s :
  isTerminal c = true ->
  takeWhile isTerminal (squeeze c s) = squeeze c (takeWhile isTerminal s)
  /\ dropWhile isTerminal (squeeze c s) = squeeze c (dropWhile isTerminal s).
Proof.
  intros Hc. induction s as [|x s [IH1 IH2]]; [done|].
  cbn [squeeze takeWhile dropWhile].
  destruct (isTerminal x) eqn:Hx.
  - cbn [squeeze]. rewrite (nextIs_takeWhile c s Hc).
    destruct ((c =? x)%Z && nextIs c s) eqn:E.
    + by rewrite IH1, IH2.
    + cbn [takeWhile dropWhile]. by rewrite Hx, IH1, IH2.
  - rewrite (terminal_neq c x Hc Hx). cbn [andb takeWhile dropWhile squeeze].
    rewrite Hx. split; [done|]. cbn [squeeze].
    by rewrite (terminal_neq c x Hc Hx).
Qed.

Lemma takeWhile_respace_squeeze c s :
  isTerminal c = true ->
  takeWhile isReSpace (squeeze c s) = takeWhile isReSpace s
  /\ dropWhile isReSpace (squeeze c s) = squeeze c (dropWhile isReSpace s).
Proof.
  intros Hc. induction s as [|x s [IH1 IH2]]; [done|].
  destruct (isReSpace x) eqn:Hx.
  - assert (Hcx : (c =? x)%Z = false).
    { apply terminal_neq; [done|].
      destruct (isTerminal x) eqn:Ht; [|done].
      by rewrite (isTerminal_not_respace x Ht) in Hx. }
    cbn [squeeze]. rewrite Hcx. cbn [andb takeWhile dropWhile].
    by rewrite Hx, IH1, IH2.
  - cbn [takeWhile dropWhile]. rewrite Hx.
    pose proof (squeeze_head c (x :: s)) as Hh.
    destruct (squeeze c (x :: s)) as [|z t]; [done|].
    injection Hh as ->. cbn [takeWhile dropWhile]. by rewrite Hx.
Qed.

(** A sentence end is matched in the squeezed text where it is matched in
    the text, with the squeezed marks. *)
Lemma matchSentenceEnd_squeeze c s :
  isTerminal c = true ->
  matchSentenceEnd (squeeze c s)
  = match matchSentenceEnd s with
    | Some (repl, rest) => Some (squeeze c repl, squeeze c rest)
    | None => None
    end.
Proof.
  intros Hc. unfold matchSentenceEnd.
  destruct (takeWhile_terminal_squeeze c s Hc) as [-> ->].
  destruct (takeWhile isTerminal s) as [|m marks] eqn:Em.
  { done. }
  destruct (squeeze c (m :: marks)) as [|m' marks'] eqn:Em'.
  { by apply squeeze_nil in Em'. }
  rewrite <- Em'. clear m' marks' Em'.
  destruct (takeWhile_respace_squeeze c (dropWhile isTerminal s) Hc)
    as [-> ->].
  destruct (takeWhile isReSpace (dropWhile isTerminal s)) as [|sp w]; [done|].
  destruct (dropWhile isReSpace (dropWhile isTerminal s)) as [|u rest];
    [done|].
  destruct (isUpperAZ u) eqn:Hu.
  - assert (Hcu : (c =? u)%Z = false).
    { apply terminal_neq; [done|]. by apply isUpperAZ_not_terminal. }
    cbn [squeeze]. rewrite Hcu. cbn [andb]. rewrite Hu.
    f_equal. f_equal.
    change (m :: marks ++ [NL; u]) with ((m :: marks) ++ NL :: [u]).
    rewrite squeeze_app_sep by (by apply terminal_neq).
    cbn [squeeze app nextIs]. by rewrite andb_false_r.
  - pose proof (squeeze_head c (u :: rest)) as Hh.
    destruct (squeeze c (u :: rest)) as [|z t]; [done|].
    injection Hh as ->. by rewrite Hu.
Qed.

Lemma markSentenceEnds_step x s :
  markSentenceEnds (x :: s)
  = match matchSentenceEnd (x :: s) with
    | Some (repl, rest) => repl ++ markSentenceEnds rest
    | None => x :: markSentenceEnds s
    end.
Proof.
  unfold markSentenceEnds at 1, replaceAllMatches.
  cbn [length replaceLoop].
  destruct (matchSentenceEnd (x :: s)) as [[repl rest]|] eqn:E.
  - rewrite markSentenceEnds_fuel; [done|].
    apply matchSentenceEnd_consumes in E. cbn [length] in E. lia.
  - by rewrite markSentenceEnds_fuel.
Qed.

Lemma markSentenceEnds_head s : head (markSentenceEnds s) = head s.
Proof.
  destruct s as [|x s]; [done|]. rewrite markSentenceEnds_step.
  destruct (matchSentenceEnd (x :: s)) as [[repl rest]|] eqn:E; [|done].
  apply matchSentenceEnd_Some in E
    as (marks & w & u & Hs & Hm & _ & _ & _ & _ & ->).
  destruct marks as [|m marks]; [done|].
  cbn [app] in *. by injection Hs as -> _.
Qed.

Lemma markSentenceEnds_squeeze_fuel c n s :
  isTerminal c = true -> length s <= n ->
  markSentenceEnds (squeeze c s) = squeeze c (markSentenceEnds s).
Proof.
  intros Hc. revert s. induction n as [|n IH]; intros s Hn.
  { destruct s; [done|simpl in Hn; lia]. }
  destruct s as [|x s]; [done|]. cbn [length] in Hn.
  pose proof (matchSentenceEnd_squeeze c (x :: s) Hc) as Hm.
  rewrite (markSentenceEnds_step x s).
  destruct (matchSentenceEnd (x :: s)) as [[repl rest]|] eqn:E.
  - pose proof (matchSentenceEnd_consumes _ _ _ E) as Hlen.
    cbn [length] in Hlen.
    destruct (squeeze c (x :: s)) as [|x' s'] eqn:Es.
    { by apply squeeze_nil in Es. }
    rewrite markSentenceEnds_step, Hm, IH by lia.
    apply matchSentenceEnd_Some in E
      as (marks & w & u & _ & _ & _ & _ & _ & Hu & ->).
    assert (Hcu : (c =? u)%Z = false).
    { apply terminal_neq; [done|]. by apply isUpperAZ_not_terminal. }
    symmetry. apply (squeeze_app_last c _ u); [|done].
    change [NL; u] with ([NL] ++ [u]). by rewrite app_assoc, last_snoc.
  - cbn [squeeze] in *.
    rewrite (nextIs_head c (markSentenceEnds s) s)
      by apply markSentenceEnds_head.
    destruct ((c =? x)%Z && nextIs c s) eqn:Ec.
    + by rewrite IH by lia.
    + by rewrite markSentenceEnds_step, Hm, IH by lia.
Qed.

Lemma markSentenceEnds_squeezeMarks s :
  markSentenceEnds (squeezeMarks s) = squeezeMarks (markSentenceEnds s).
Proof.
  unfold squeezeMarks.
  rewrite (markSentenceEnds_squeeze_fuel QUERY _ _ eq_refl (le_n _)).
  rewrite (markSentenceEnds_squeeze_fuel BANG _ _ eq_refl (le_n _)).
  by rewrite (markSentenceEnds_squeeze_fuel DOT _ _ eq_refl (le_n _)).
Qed.

(** The chunks see the sentences through their word counts only. *)

Section SameCounts.
Variable g : gostring -> gostring.
Hypothesis counts : forall s, countWords (g s) = countWords s.

Lemma tentativeChunk_map f ss words sig :
  tentativeChunk f (map g ss) words sig
  = (map g (tentativeChunk f ss words sig).1,
     (tentativeChunk f ss words sig).2).
Proof.
  revert words sig. induction ss as [|s ss IH]; intros words sig; [done|].
  cbn [map tentativeChunk]. cbv zeta. rewrite counts.
  destruct (targetWordCount f <=? words + countWords s)%Z; [done|].
  rewrite IH.
  by destruct (tentativeChunk f ss _ _) as [chunk n].
Qed.

Lemma limitChunk_map f chunk sig :
  limitChunk f (map g chunk) sig = map g (limitChunk f chunk sig).
Proof.
  revert sig. induction chunk as [|s chunk IH]; intros sig; [done|].
  cbn [map limitChunk]. rewrite counts.
  destruct (minWordsForSignificantSentence f <=? countWords s)%Z.
  - destruct (maxSentencesPerChunk f <=? sig + 1)%Z; [done|].
    cbn [map]. by rewrite IH.
  - cbn [map]. by rewrite IH.
Qed.

Lemma finalChunk_map f ss :
  finalChunk f (map g ss) = map g (finalChunk f ss).
Proof.
  unfold finalChunk. rewrite tentativeChunk_map.
  destruct (tentativeChunk f ss 0 0) as [chunk n]. cbn [fst snd].
  destruct (maxSentencesPerChunk f <? n)%Z; [|done].
  apply limitChunk_map.
Qed.

Lemma chunksOf_map f fuel ss :
  chunksOf f fuel (map g ss) = map (map g) (chunksOf f fuel ss).
Proof.
  revert ss. induction fuel as [|fuel IH]; intros ss; [done|].
  destruct ss as [|s ss]; [done|].
  cbn [chunksOf]. change (g s :: map g ss) with (map g (s :: ss)).
  rewrite finalChunk_map.
  destruct (finalChunk f (s :: ss)) as [|x final]; [done|].
  cbn [map]. f_equal. rewrite <- IH. f_equal.
  change (g x :: map g final) with (map g (x :: final)).
  change (g s :: map g ss) with (map g (s :: ss)).
  by rewrite length_map, List.skipn_map.
Qed.

End SameCounts.

(** ** Idempotence *)

Lemma chunk_texts_squeezed cs :
  Forall (fun chunk => chunk <> []) cs ->
  Forall (fun q => tight q = true) (concat cs) ->
  collapsed (Join (concat cs) [SP]) = true ->
  noSpaceBeforeMark (Join (concat cs) [SP]) = true ->
  Forall (fun chunk =>
            paragraphText chunk = squeezeMarks (Join chunk [SP])
            /\ paragraphText (map squeezeMarks chunk)
               = squeezeMarks (Join chunk [SP])) cs.
Proof.
  assert (Hone : forall c,
            c <> [] -> Forall (fun q => tight q = true) c ->
            collapsed (Join c [SP]) = true ->
            noSpaceBeforeMark (Join c [SP]) = true ->
            paragraphText c = squeezeMarks (Join c [SP])
            /\ paragraphText (map squeezeMarks c)
               = squeezeMarks (Join c [SP])).
  { intros c Hc Ht Hcol Hn.
    pose proof (tight_Join c [SP] Hc Ht) as HtJ. unfold paragraphText. split.
    - by apply cleanText_squeeze.
    - rewrite Join_squeezeMarks. by apply cleanText_squeezeMarks. }
  induction 1 as [|c cs Hc Hcs IH]; [constructor|].
  cbn [concat]. intros Ht Hcol Hn. apply Forall_app in Ht as [Ht1 Ht2].
  destruct cs as [|c' cs].
  - cbn [concat] in *. rewrite app_nil_r in *.
    constructor; [|constructor]. by apply Hone.
  - assert (Hrest : concat (c' :: cs) <> []).
    { inversion Hcs; subst. by destruct c'. }
    rewrite Join_app in Hcol, Hn by done.
    constructor.
    + apply Hone; [done..| |].
      * by apply collapsed_prefix in Hcol.
      * by apply noSpaceBeforeMark_app_l in Hn.
    + apply IH; [done| |].
      * rewrite app_assoc in Hcol. by apply collapsed_app in Hcol.
      * rewrite app_assoc in Hn. by apply noSpaceBeforeMark_app_r in Hn.
Qed.

(** C9, as the code has it.  For an input whose normal form has no space
    directly before one of , . ! ? Format applied to its own paragraphs,
    rejoined by single spaces, writes the same paragraphs in the same
    order.  (Doubled marks do no harm: the first run squeezes them, which
    moves no sentence end and changes no word count.) *)
Theorem Format_idempotent (f : TextFormatter) (text : gostring) :
  noSpaceBeforeMark (normalize text) = true ->
  paragraphs f (Join (paragraphs f text) [SP]) = paragraphs f text.
Proof.
  intros Hn. destruct (decide (TrimSpace text = [])) as [Hnil|Hne].
  { pose proof (proj2 (streq_true _ _) Hnil) as Hs.
    unfold paragraphs, chunks. by rewrite Hs. }
  destruct (splitIntoSentences_pieces text Hne) as (Hsplit & Hts & HJ).
  pose proof (normalize_tight text Hne) as Htight.
  pose proof (normalize_collapsed text) as Hcol.
  pose proof (chunk_texts_squeezed (chunks f text) (chunks_nonempty f text))
    as Htexts.
  rewrite chunks_concat, HJ in Htexts by done.
  specialize (Htexts Hts Hcol Hn).
  assert (Hpar : paragraphs f text
                 = map (fun chunk => squeezeMarks (Join chunk [SP]))
                       (chunks f text)).
  { unfold paragraphs. apply List.map_ext_Forall.
    eapply Forall_impl; [exact Htexts|]. by intros c [H _]. }
  assert (Hjoin : Join (paragraphs f text) [SP]
                  = squeezeMarks (normalize text)).
  { rewrite Hpar.
    rewrite <- (map_map (fun chunk => Join chunk [SP]) squeezeMarks).
    rewrite Join_squeezeMarks, Join_concat by apply chunks_nonempty.
    by rewrite chunks_concat, HJ. }
  rewrite Hjoin.
  set (text' := squeezeMarks (normalize text)).
  assert (Htight' : tight text' = true).
  { unfold text'. by rewrite tight_squeezeMarks. }
  pose proof (TrimSpace_tight _ Htight') as Htrim'.
  assert (Hne' : TrimSpace text' <> []).
  { rewrite Htrim'. by apply tight_nonempty. }
  assert (Hnorm' : normalize text' = text').
  { unfold normalize. rewrite Htrim'.
    apply collapseSpaces_collapsed. by apply collapsed_squeezeMarks. }
  assert (Hsplit' : splitIntoSentences text'
                    = map squeezeMarks (splitIntoSentences text)).
  { destruct (splitIntoSentences_pieces text' Hne') as (-> & _ & _).
    rewrite Hnorm', Hsplit. unfold text'.
    by rewrite markSentenceEnds_squeezeMarks, Split_squeezeMarks. }
  assert (Hchunks : chunks f text'
                    = map (map squeezeMarks) (chunks f text)).
  { unfold chunks. apply streq_false in Hne, Hne'. rewrite Hne, Hne'.
    cbv zeta. rewrite Hsplit', length_map.
    apply chunksOf_map, countWords_squeezeMarks. }
  unfold paragraphs at 1. rewrite Hchunks, map_map, Hpar.
  apply List.map_ext_Forall.
  eapply Forall_impl; [exact Htexts|]. by intros c [_ H].
Qed.

Lemma Format_idempotent_witness :
  paragraphs NewTextFormatter
    (Join (paragraphs NewTextFormatter doubledMarks) [SP])
  = paragraphs NewTextFormatter doubledMarks.
Proof.
  apply (Format_idempotent NewTextFormatter doubledMarks).
  vm_compute. reflexivity.
Defined.

(** C9, as the specification has it, fails: the clean-up takes a word from
    the first sentence, which is then no longer significant, and the second
    run keeps in one paragraph what the first run cut in two. *)
Lemma Format_idempotence_counterexample :
  paragraphs NewTextFormatter
    (Join (paragraphs NewTextFormatter looseComma) [SP])
  <> paragraphs NewTextFormatter looseComma.
Proof. vm_compute. discriminate. Qed.

(** ** The parse of the output of whisper-cli *)

Lemma HasPrefix_nil s : HasPrefix s [] = true.
Proof. by destruct s. Qed.

Lemma SplitN2_not_Contains line c :
  Contains line [c] = false -> SplitN2 line c = [line].
Proof.
  induction line as [|x line IH]; [done|]. cbn [Contains HasPrefix SplitN2].
  rewrite HasPrefix_nil, andb_true_r. destruct (x =? c)%Z; [done|]. cbn [orb].
  intros H. by rewrite (IH H).
Qed.

Lemma scan_contentOf line acc :
  (if Contains line [RBRACKET]
   then match SplitN2 line RBRACKET with
        | _ :: after :: _ =>
            if negb (streq (TrimSpace after) [])
            then acc ++ TrimSpace after ++ [SP] else acc
        | _ => acc
        end
   else acc)
  = match contentOf line with
    | Some text => acc ++ text ++ [SP]
    | None => acc
    end.
Proof.
  unfold contentOf. destruct (Contains line [RBRACKET]) eqn:E.
  - destruct (SplitN2 line RBRACKET) as [|? [|after ?]]; [done..|].
    by destruct (streq (TrimSpace after) []).
  - by rewrite (SplitN2_not_Contains _ _ E).
Qed.

Lemma scanLines_contents lines inTranscription acc :
  scanLines lines inTranscription acc
  = acc ++ concat (map (fun text => text ++ [SP])
                       (contents
                          (if inTranscription then map TrimSpace lines
                           else fromFirstTimestamp (map TrimSpace lines)))).
Proof.
  revert inTranscription acc.
  induction lines as [|line lines IH]; intros inT acc.
  - destruct inT; simpl; by rewrite app_nil_r.
  - cbn [scanLines map fromFirstTimestamp]. cbv zeta.
    rewrite scan_contentOf.
    destruct (Contains (TrimSpace line) (go "[00:")) eqn:E; cbn [orb].
    + rewrite IH.
      replace (if inT then TrimSpace line :: map TrimSpace lines
               else TrimSpace line :: map TrimSpace lines)
        with (TrimSpace line :: map TrimSpace lines) by (by destruct inT).
      cbn [contents].
      destruct (contentOf (TrimSpace line)); cbn [map concat];
        by rewrite <- ?app_assoc.
    + destruct inT.
      * rewrite IH. cbn [contents].
        destruct (contentOf (TrimSpace line)); cbn [map concat];
          by rewrite <- ?app_assoc.
      * by rewrite IH.
Qed.

Lemma contentOf_tight line text :
  contentOf line = Some text -> tight text = true.
Proof.
  unfold contentOf.
  destruct (SplitN2 line RBRACKET) as [|? [|after ?]]; [done..|].
  destruct (streq (TrimSpace after) []) eqn:E; [done|].
  intros [= <-]. apply tight_TrimSpace. by apply streq_false.
Qed.

Lemma contents_tight lines : Forall (fun q => tight q = true) (contents lines).
Proof.
  induction lines as [|line lines IH]; [constructor|]. cbn [contents].
  destruct (contentOf line) eqn:E; [|done].
  constructor; [by apply (contentOf_tight line)|done].
Qed.

Lemma concat_trailing_Join ts :
  ts <> [] ->
  concat (map (fun text => text ++ [SP]) ts) = Join ts [SP] ++ [SP].
Proof.
  induction ts as [|t ts IH]; [done|]. intros _.
  destruct ts as [|t' ts].
  - simpl. by rewrite app_nil_r.
  - cbn [map concat] in *. rewrite IH by done.
    rewrite Join_cons_cons. by rewrite <- !app_assoc.
Qed.

Lemma TrimSpace_app_spaces x r :
  tight x = true -> Forall (fun c => isSpace c = true) r ->
  TrimSpace (x ++ r) = x.
Proof.
  intros Hx Hr. unfold tight in Hx. apply andb_true_iff in Hx as [H1 H2].
  rewrite endsWord_rev in H2. unfold TrimSpace.
  rewrite (dropWhile_startsWord (x ++ r))
    by (rewrite startsWord_app; [done|by destruct x]).
  rewrite rev_app_distr, dropWhile_app_Forall by by apply List.Forall_rev.
  by rewrite dropWhile_startsWord, rev_involutive.
Qed.

(** The builder of Transcribe, trimmed, is the contents joined by single
    spaces. *)
Lemma scanLines_transcriptOf output :
  TrimSpace (scanLines (Split output NL) false []) = transcriptOf output.
Proof.
  rewrite scanLines_contents. cbn [app]. unfold transcriptOf. cbv zeta.
  pose proof (contents_tight
                (fromFirstTimestamp (map TrimSpace (Split output NL)))) as Ht.
  destruct (contents (fromFirstTimestamp (map TrimSpace (Split output NL))))
    as [|t ts] eqn:E; [done|].
  rewrite concat_trailing_Join by done.
  apply TrimSpace_app_spaces; [by apply tight_Join|]. by repeat constructor.
Qed.

(** C7.  Transcribe drops the lines before the first time stamp, takes from
    every later line the text after the closing bracket, and joins the texts
    that are not empty by single spaces; when nothing is left it returns the
    raw output of the engine.  A run of the engine that succeeded never
    yields an error. *)
Theorem Transcribe_parse (env : Env) (c : Client)
    (audioPath modelName : gostring) :
  Transcribe env c audioPath modelName
  = match whisperCli env (modelPath c modelName) audioPath with
    | Exited0 output => Ok (transcriptOrRaw output)
    | ExitedNonZero _ =>
        Err (Wrapf "whisper transcription failed" (Errorf "exit status"))
    end.
Proof.
  unfold Transcribe.
  destruct (whisperCli env (modelPath c modelName) audioPath); [|done].
  unfold parseOutput, transcriptOrRaw. cbv zeta.
  by rewrite scanLines_transcriptOf.
Qed.

(** ** Download *)

(** C10.  A Download that returns an error leaves the files as they were:
    when the copy breaks the partial file is removed again, and no file
    stands at the cache path of the model. *)
Theorem Download_failure_keeps_cache (env : Env) (m : Models.Manager)
    (modelName : gostring) (w w' : World) (e : error) :
  Models.Download env m modelName w = (w', Some e) ->
  files w' = files w
  /\ forall target,
       Models.findModel (Models.AvailableModels m) modelName = Some target ->
       files w' !! Models.Path target = None.
Proof.
  unfold Models.Download.
  destruct (Models.findModel (Models.AvailableModels m) modelName)
    as [target|] eqn:Ef.
  2: { intros [= <- _]. by split. }
  unfold Stat. destruct (files w !! Models.Path target) eqn:Es; [done|].
  assert (forall w1 : World, files w1 = files w ->
            files w1 = files w
            /\ forall t, Some target = Some t ->
                         files w1 !! Models.Path t = None) as Hok.
  { intros w1 Hw1. split; [done|]. intros t [= <-]. by rewrite Hw1. }
  destruct (httpGet env (Models.DownloadURL target)) as [|status body].
  { intros [= <- _]. by apply Hok. }
  destruct (negb (status =? 200)%Z).
  { intros [= <- _]. by apply Hok. }
  destruct (negb (canCreate env (Models.Path target))).
  { intros [= <- _]. by apply Hok. }
  unfold Models.copyBody. destruct (broken body); [|done].
  intros [= <- _]. apply Hok. unfold Remove, writeData, setFiles. simpl.
  rewrite insert_insert_eq. by apply delete_insert_id.
Qed.

Lemma Download_failure_keeps_cache_witness :
  files (Models.Download Scenarios.brokenEnv
           (Service.modelManager Scenarios.sampleService) (go "tiny")
           Scenarios.emptyWorld).1
  = files Scenarios.emptyWorld.
Proof.
  eapply (Download_failure_keeps_cache Scenarios.brokenEnv
            (Service.modelManager Scenarios.sampleService) (go "tiny")
            Scenarios.emptyWorld).
  vm_compute. reflexivity.
Defined.

(** ** Discovery and the batch *)

Lemma walkCallback_errors visits acc :
  if existsb visitErr visits
  then exists e, Service.walkCallback visits acc = Err e
  else exists found, Service.walkCallback visits acc = Ok found.
Proof.
  revert acc. induction visits as [|v visits IH]; intros acc;
    cbn [existsb Service.walkCallback].
  - by eauto.
  - destruct (visitErr v); cbn [orb]; [by eauto|].
    destruct (negb (visitIsDir v)
              && Service.isAudioFile (visitPath v) Service.supportedExts);
      apply IH.
Qed.

Lemma findLoop_errors env s w inputs acc :
  if existsb (Service.unreadable env s w) inputs
  then exists e, Service.findLoop env s w inputs acc = Err e
  else exists found, Service.findLoop env s w inputs acc = Ok found.
Proof.
  revert acc. induction inputs as [|input inputs IH]; intros acc.
  - simpl. by eauto.
  - cbn [existsb Service.findLoop]. unfold Service.unreadable at 1.
    destruct (Stat w input) as [[|d]|]; cbn [orb].
    + destruct (Service.Recursive (Service.opts s)).
      * pose proof (walkCallback_errors (walk env input) acc) as Hw.
        destruct (existsb visitErr (walk env input)); cbn [orb].
        -- destruct Hw as [e ->]. by exists e.
        -- destruct Hw as [found ->]. apply IH.
      * destruct (readDir env input) as [entries|].
        -- rewrite bool_decide_false by done. apply IH.
        -- rewrite bool_decide_true by done. cbn [orb]. by eauto.
    + destruct (Service.isAudioFile input Service.supportedExts); apply IH.
    + by eauto.
Qed.

Lemma transcribeLoop_runJobs env s audioFiles w sum :
  Service.transcribeLoop env s audioFiles w sum
  = ((Batch.runJobs env s audioFiles w).1,
     {| Service.totalWords :=
          Service.totalWords sum
          + Batch.sumOf Service.WordCount
              (Batch.succeeded (Batch.runJobs env s audioFiles w).2);
        Service.totalDuration :=
          Service.totalDuration sum
          + Batch.sumOf Service.Duration
              (Batch.succeeded (Batch.runJobs env s audioFiles w).2);
        Service.successCount :=
          Service.successCount sum
          + Z.of_nat
              (length (Batch.succeeded (Batch.runJobs env s audioFiles w).2));
        Service.failedCount :=
          Service.failedCount sum
          + Z.of_nat
              (length (Batch.failed (Batch.runJobs env s audioFiles w).2))
     |})%Z.
Proof.
  revert w sum. induction audioFiles as [|file rest IH]; intros w sum.
  - cbn [Service.transcribeLoop Batch.runJobs fst snd Batch.succeeded
         Batch.failed Batch.sumOf foldr length].
    destruct sum. cbn. f_equal. f_equal; lia.
  - cbn [Service.transcribeLoop Batch.runJobs].
    destruct (Service.transcribeFile env s file w) as [w1 [stats|e]];
      rewrite IH; destruct (Batch.runJobs env s rest w1) as [w2 outcomes];
      cbn [fst snd Batch.succeeded Batch.failed Batch.sumOf foldr length
           Service.totalWords Service.totalDuration Service.successCount
           Service.failedCount];
      f_equal; f_equal; lia.
Qed.

Lemma runJobs_length env s audioFiles w :
  length (Batch.runJobs env s audioFiles w).2 = length audioFiles.
Proof.
  revert w. induction audioFiles as [|file rest IH]; intros w; [done|].
  cbn [Batch.runJobs].
  destruct (Service.transcribeFile env s file w) as [w1 outcome].
  specialize (IH w1). destruct (Batch.runJobs env s rest w1) as [w2 outcomes].
  cbn [snd length] in *. by rewrite IH.
Qed.

Lemma succeeded_failed_length outcomes :
  length (Batch.succeeded outcomes) + length (Batch.failed outcomes)
  = length outcomes.
Proof.
  induction outcomes as [|[stats|e] outcomes IH]; cbn [Batch.succeeded
    Batch.failed length]; lia.
Qed.

(** C5, as the code has it.  TranscribeFiles fails as a whole in two cases:
    an input cannot be read, or no audio file is found; in both nothing has
    been transcribed.  In every other case it returns nil, whatever happens
    to the single files: every audio file found gets its job, each on the
    world the job before it left and whether or not that job failed, and
    the summary counts the jobs that succeeded (with their words and
    durations) and the jobs that failed. *)
Theorem TranscribeFiles_failure_policy (env : Env) (s : Service.Service)
    (inputs : list gostring) (w : World) :
  if existsb (Service.unreadable env s w) inputs
  then exists e,
         Service.TranscribeFiles env s inputs w
         = (w, Service.noSummary, Some e)
  else exists audioFiles,
         Service.findAudioFiles env s w inputs = Ok audioFiles
         /\ if bool_decide (audioFiles = [])
            then Service.TranscribeFiles env s inputs w
                 = (w, Service.noSummary, Some (Errorf "no audio files found"))
            else exists w' sum outcomes,
                Service.TranscribeFiles env s inputs w = (w', sum, None)
                /\ Batch.runJobs env s audioFiles w = (w', outcomes)
                /\ length outcomes = length audioFiles
                /\ Service.successCount sum
                   = Z.of_nat (length (Batch.succeeded outcomes))
                /\ Service.failedCount sum
                   = Z.of_nat (length (Batch.failed outcomes))
                /\ Service.totalWords sum
                   = Batch.sumOf Service.WordCount (Batch.succeeded outcomes)
                /\ Service.totalDuration sum
                   = Batch.sumOf Service.Duration (Batch.succeeded outcomes)
                /\ (Service.successCount sum + Service.failedCount sum
                    = Z.of_nat (length audioFiles))%Z.
Proof.
  pose proof (findLoop_errors env s w inputs []) as Hfind.
  unfold Service.TranscribeFiles, Service.findAudioFiles.
  destruct (existsb (Service.unreadable env s w) inputs).
  - destruct Hfind as [e ->]. by eauto.
  - destruct Hfind as [found ->]. exists found. split; [done|].
    destruct found as [|file found].
    + by rewrite bool_decide_true.
    + rewrite bool_decide_false by done.
      rewrite bool_decide_false by done.
      rewrite transcribeLoop_runJobs.
      pose proof (runJobs_length env s (file :: found) w) as Hlen.
      destruct (Batch.runJobs env s (file :: found) w) as [w' outcomes].
      pose proof (succeeded_failed_length outcomes) as Hsplit.
      cbn [fst snd] in *.
      eexists w', _, outcomes. split; [reflexivity|].
      cbn [Service.successCount Service.failedCount Service.totalWords
           Service.totalDuration Service.noSummary].
      repeat split; try done; lia.
Qed.

(** C5, as the specification has it, fails: every input is readable and the
    run still fails as a whole, because none of them is an audio file. *)
Lemma TranscribeFiles_only_discovery_counterexample :
  existsb (Service.unreadable Scenarios.fineEnv Scenarios.sampleService
             Scenarios.notesWorld) [go "/in/notes.txt"] = false
  /\ (Service.TranscribeFiles Scenarios.fineEnv Scenarios.sampleService
        [go "/in/notes.txt"] Scenarios.notesWorld).2
     = Some (Errorf "no audio files found").
Proof. split; vm_compute; reflexivity. Qed.

(** ** The output path and the files that are transcribed *)

Lemma getOutputPath_rule s inputPath w :
  (Service.getOutputPath s inputPath w).2
  = Join2 (if streq (Service.OutputDir (Service.opts s)) []
           then Dir inputPath else Service.OutputDir (Service.opts s))
          (TrimSuffix (Base inputPath) (Ext inputPath)
           ++ go "." ++ Service.Format (Service.opts s)).
Proof.
  unfold Service.getOutputPath.
  by destruct (streq (Service.OutputDir (Service.opts s)) []).
Qed.

(** C3 at an input where code and specification part: the transcript of
    a.mp3 exists at the expected output path, nothing forces a new run, and
    TranscribeFiles transcribes the file again and overwrites it. *)
Theorem TranscribeFiles_overwrites_existing_output :
  (Service.getOutputPath Scenarios.sampleService (go "/in/a.mp3")
     Scenarios.transcribedWorld).2 = go "/in/a.txt"
  /\ files Scenarios.transcribedWorld !! go "/in/a.txt"
     = Some (File (Bytes (go "old transcript")))
  /\ (Service.TranscribeFiles Scenarios.fineEnv Scenarios.sampleService
        [go "/in/a.mp3"] Scenarios.transcribedWorld).2 = None
  /\ Service.successCount
       (Service.TranscribeFiles Scenarios.fineEnv Scenarios.sampleService
          [go "/in/a.mp3"] Scenarios.transcribedWorld).1.2 = 1%Z
  /\ files (Service.TranscribeFiles Scenarios.fineEnv Scenarios.sampleService
              [go "/in/a.mp3"] Scenarios.transcribedWorld).1.1
       !! go "/in/a.txt"
     = Some (File (Bytes (Service.formatOutput Scenarios.sampleService
                            (go "Hello world.") (go "/in/a.mp3")))).
Proof. repeat split; vm_compute; reflexivity. Qed.

(** ** The audio handed to whisper *)

Lemma prepareAudioFile_wav env s inputPath w :
  ToLower (Ext inputPath) = go ".wav" ->
  Service.prepareAudioFile env s inputPath w = (w, Ok (inputPath, false)).
Proof.
  intros H. unfold Service.prepareAudioFile. cbv zeta.
  apply streq_true in H. by rewrite H.
Qed.

(** C6 at an input where code and specification part: a stereo file at
    44.1 kHz whose name ends in .wav is handed to whisper as it is. *)
Theorem prepareAudioFile_trusts_extension :
  files Scenarios.stereoWorld !! go "/in/song.wav"
  = Some (File (Audio Scenarios.stereo44k))
  /\ isWhisperEncoding Scenarios.stereo44k = false
  /\ Service.prepareAudioFile Scenarios.fineEnv Scenarios.sampleService
       (go "/in/song.wav") Scenarios.stereoWorld
     = (Scenarios.stereoWorld, Ok (go "/in/song.wav", false)).
Proof. repeat split; vm_compute; reflexivity. Qed.

(** ** Two callers and one model *)

(** One caller alone, statement by statement, is ensureModelDownloaded. *)
Lemma runAlone_ensureModelDownloaded env s w target :
  Models.findModel (Models.AvailableModels (Service.modelManager s))
    (Service.Model (Service.opts s)) = Some target ->
  Race.runAlone env target 6 Race.AtEnsureStat w
  = let (w', err) := Service.ensureModelDownloaded env s w in
    (w', Race.Returned err).
Proof.
  intros Hfind. unfold Service.ensureModelDownloaded, Models.Download.
  rewrite Hfind. unfold Stat.
  destruct (files w !! Models.Path target) eqn:Es.
  { cbn [Race.runAlone Race.stepPc]. unfold Stat. by rewrite Es. }
  do 2 (cbn [Race.runAlone Race.stepPc]; unfold Stat; rewrite Es).
  cbn [Race.runAlone Race.stepPc].
  destruct (httpGet env (Models.DownloadURL target)) as [|status body];
    [done|].
  destruct (negb (status =? 200)%Z); [done|].
  cbn [Race.runAlone Race.stepPc].
  destruct (negb (canCreate env (Models.Path target))); [done|].
  cbn [Race.runAlone Race.stepPc]. unfold Models.copyBody.
  by destruct (broken body).
Qed.

Lemma run_app env target a b st :
  Race.run env target (a ++ b) st
  = Race.run env target b (Race.run env target a st).
Proof. apply foldl_app. Qed.

Lemma run_A env target n st :
  Race.run env target (replicate n Race.A) st
  = let (w, pc) := Race.runAlone env target n (Race.callerA st) (Race.world st) in
    {| Race.world := w; Race.callerA := pc; Race.callerB := Race.callerB st |}.
Proof.
  revert st. induction n as [|n IH]; intros st; [by destruct st|].
  unfold Race.run in *. cbn [replicate foldl Race.runAlone]. rewrite IH.
  unfold Race.step.
  by destruct (Race.stepPc env target (Race.callerA st) (Race.world st)).
Qed.

Lemma run_B env target n st :
  Race.run env target (replicate n Race.B) st
  = let (w, pc) := Race.runAlone env target n (Race.callerB st) (Race.world st) in
    {| Race.world := w; Race.callerA := Race.callerA st; Race.callerB := pc |}.
Proof.
  revert st. induction n as [|n IH]; intros st; [by destruct st|].
  unfold Race.run in *. cbn [replicate foldl Race.runAlone]. rewrite IH.
  unfold Race.step.
  by destruct (Race.stepPc env target (Race.callerB st) (Race.world st)).
Qed.

Lemma runAlone_cached env target n w :
  is_Some (files w !! Models.Path target) ->
  Race.runAlone env target (S n) Race.AtEnsureStat w = (w, Race.Returned None).
Proof.
  intros [node Hn]. cbn [Race.runAlone Race.stepPc]. unfold Stat. rewrite Hn.
  induction n as [|n IH]; [done|]. by cbn [Race.runAlone Race.stepPc].
Qed.

Lemma runAlone_downloaded env target w w' :
  files w !! Models.Path target = None ->
  Race.runAlone env target 6 Race.AtEnsureStat w = (w', Race.Returned None) ->
  requests w' = Models.DownloadURL target :: requests w
  /\ is_Some (files w' !! Models.Path target).
Proof.
  intros Es.
  do 2 (cbn [Race.runAlone Race.stepPc]; unfold Stat; rewrite Es).
  cbn [Race.runAlone Race.stepPc].
  destruct (httpGet env (Models.DownloadURL target)) as [|status body];
    [done|].
  destruct (negb (status =? 200)%Z); [done|].
  cbn [Race.runAlone Race.stepPc].
  destruct (negb (canCreate env (Models.Path target))); [done|].
  cbn [Race.runAlone Race.stepPc]. unfold Models.copyBody.
  destruct (broken body); [done|]. cbn [Race.runAlone Race.stepPc].
  intros [= <-]. unfold writeData, setFiles. cbn [files requests].
  split; [done|]. rewrite lookup_insert_eq. by eexists.
Qed.

(** C2, as the code has it.  When the two callers run one after the other,
    as the loop of TranscribeFiles runs them, and the download of the
    first succeeds, one request is made: the second caller finds the file
    and returns without a download, and the model is in the cache. *)
Theorem sequential_callers_fetch_once (env : Env)
    (target : Models.ModelInfo) (w : World) :
  Stat w (Models.Path target) = None ->
  Race.callerA (Race.run env target
                  (replicate 6 Race.A ++ replicate 6 Race.B) (Race.start w))
  = Race.Returned None ->
  Race.callerB (Race.run env target
                  (replicate 6 Race.A ++ replicate 6 Race.B) (Race.start w))
  = Race.Returned None
  /\ requests (Race.world
                 (Race.run env target
                    (replicate 6 Race.A ++ replicate 6 Race.B) (Race.start w)))
     = Models.DownloadURL target :: requests w
  /\ is_Some (files (Race.world
                       (Race.run env target
                          (replicate 6 Race.A ++ replicate 6 Race.B)
                          (Race.start w)))
              !! Models.Path target).
Proof.
  intros Es. unfold Stat in Es.
  rewrite run_app, (run_A env target 6 (Race.start w)).
  cbn [Race.start Race.callerA Race.callerB Race.world].
  destruct (Race.runAlone env target 6 Race.AtEnsureStat w) as [w1 pcA] eqn:EA.
  rewrite run_B. cbn [Race.callerA Race.callerB Race.world].
  destruct (Race.runAlone env target 6 Race.AtEnsureStat w1) as [w2 pcB] eqn:EB.
  cbn [Race.callerA Race.callerB Race.world]. intros ->.
  destruct (runAlone_downloaded env target w w1 Es EA) as [Hreq Hfile].
  rewrite (runAlone_cached env target 5 w1 Hfile) in EB.
  injection EB as <- <-. done.
Qed.

Lemma sequential_callers_fetch_once_witness :
  Race.callerB (Race.run Scenarios.fineEnv Scenarios.tiny
                  (replicate 6 Race.A ++ replicate 6 Race.B)
                  (Race.start Scenarios.emptyWorld))
  = Race.Returned None.
Proof.
  eapply (sequential_callers_fetch_once Scenarios.fineEnv Scenarios.tiny
            Scenarios.emptyWorld); vm_compute; reflexivity.
Defined.

(** C2, as the specification has it, fails: nothing keeps the second caller
    from its own check while the first is between its check and its
    download.  With the two callers taking turns both find no file, both
    send a request, and both transfers are in flight at once. *)
Lemma single_flight_counterexample :
  Race.inFlight
    (Race.callerA
       (Race.run Scenarios.fineEnv Scenarios.tiny
          [Race.A; Race.B; Race.A; Race.B; Race.A; Race.B]
          (Race.start Scenarios.emptyWorld))) = true
  /\ Race.inFlight
       (Race.callerB
          (Race.run Scenarios.fineEnv Scenarios.tiny
             [Race.A; Race.B; Race.A; Race.B; Race.A; Race.B]
             (Race.start Scenarios.emptyWorld))) = true
  /\ length (requests
               (Race.world
                  (Race.run Scenarios.fineEnv Scenarios.tiny
                     [Race.A; Race.B; Race.A; Race.B; Race.A; Race.B]
                     (Race.start Scenarios.emptyWorld)))) = 2.
Proof. repeat split; vm_compute; reflexivity. Qed.

(** ** Sample evaluations *)

Example Format_single_short_sentence :
  Format NewTextFormatter (go "  hi.  ") = go "hi.".
Proof. vm_compute. reflexivity. Qed.

Example Format_blank : Format NewTextFormatter (go "   ") = [].
Proof. vm_compute. reflexivity. Qed.

Example splitIntoSentences_marks :
  splitIntoSentences (go "Wait...  What?! Yes. no. A")
  = [go "Wait..."; go "What?!"; go "Yes. no."; go "A"].
Proof. vm_compute. reflexivity. Qed.

Example cleanText_artifacts :
  cleanText (go "Wait... What ?! Yes , no  .") = go "Wait. What?! Yes, no.".
Proof. vm_compute. reflexivity. Qed.

Example Fields_mixed_spaces :
  Fields (go "  a b   c ") = [go "a"; go "b"; go "c"].
Proof. vm_compute. reflexivity. Qed.

Example filepath_samples :
  Clean (go "/a//b/./c/../d/") = go "/a/b/d"
  /\ Ext (go "/x.y/a.tar.gz") = go ".gz"
  /\ Ext (go "/x.y/a") = []
  /\ Base (go "/x/y.mp3/") = go "y.mp3"
  /\ Dir (go "/x/y.mp3") = go "/x"
  /\ Dir (go "y.mp3") = go "."
  /\ Join2 (go "/tmp/") (go "a.wav") = go "/tmp/a.wav".
Proof. repeat split; vm_compute; reflexivity. Qed.

Example parseOutput_sample :
  parseOutput (go "whisper_init: loading model
[00:00:00.000 --> 00:00:05.000]   Hello there.
[00:00:05.000 --> 00:00:09.000]   General Kenobi!

whisper_print_timings: done
") = go "Hello there. General Kenobi!".
Proof. vm_compute. reflexivity. Qed.

Example parseOutput_fallback :
  parseOutput (go "no time stamps here") = go "no time stamps here".
Proof. vm_compute. reflexivity. Qed.

(** * Part III: further properties of the code *)

(** ** Sentences *)

(** X1.  On an input that is not blank every sentence of
    splitIntoSentences is tight (not empty, no white space at either end),
    and the sentences joined by single spaces are the white-space normal
    form of the input: segmentation loses and adds nothing. *)
Theorem splitIntoSentences_round_trip (text : gostring) :
  TrimSpace text <> [] ->
  Forall (fun sentence => tight sentence = true) (splitIntoSentences text)
  /\ Join (splitIntoSentences text) [SP] = collapseSpaces (TrimSpace text).
Proof.
  intros Hne. by destruct (splitIntoSentences_pieces text Hne) as (_ & ? & ?).
Qed.

Lemma splitIntoSentences_round_trip_witness :
  Join (splitIntoSentences (go "  Hi   there.  How are you?  fine. "))
       [SP]
  = collapseSpaces (TrimSpace (go "  Hi   there.  How are you?  fine. ")).
Proof.
  apply (splitIntoSentences_round_trip
           (go "  Hi   there.  How are you?  fine. ")).
  vm_compute. discriminate.
Defined.

(** ** Word counts *)

(** X3.  The two countWords of the code, the one of the formatter and the
    one of the service, count the same: the fields of the text.  White
    space around the text or runs of white space inside it do not change
    the count. *)
Theorem countWords_agree (text : gostring) :
  Service.countWords text = Formatter.countWords text
  /\ Formatter.countWords text = Z.of_nat (length (Fields text))
  /\ Formatter.countWords (collapseSpaces (TrimSpace text))
     = Formatter.countWords text.
Proof.
  split; [|split].
  - rewrite countWords_Fields. unfold Service.countWords.
    destruct (streq text []) eqn:E.
    + apply streq_true in E. by subst.
    + by rewrite Fields_TrimSpace.
  - apply countWords_Fields.
  - by rewrite !countWords_Fields, Fields_collapseSpaces, Fields_TrimSpace.
Qed.

Lemma wordsOf_Fields ss :
  wordsOf ss = Z.of_nat (length (concat (map Fields ss))).
Proof.
  induction ss as [|s ss IH]; [done|]. cbn [wordsOf foldr map concat].
  fold (wordsOf ss). rewrite IH, countWords_Fields, length_app. lia.
Qed.

(** X2.  The word counts of the sentences add up to the word count of the
    text: no word is lost or counted twice by the segmentation. *)
Theorem splitIntoSentences_word_count (text : gostring) :
  wordsOf (splitIntoSentences text) = Formatter.countWords text.
Proof.
  rewrite wordsOf_Fields, countWords_Fields.
  destruct (decide (TrimSpace text = [])) as [Hnil|Hne].
  - rewrite (splitIntoSentences_blank text Hnil).
    by rewrite (TrimSpace_nil_Fields text Hnil).
  - by rewrite splitIntoSentences_words.
Qed.

(** ** The shape of the output *)

Lemma Join_cons_app p q ps sep :
  Join ((p ++ sep ++ q) :: ps) sep = p ++ sep ++ Join (q :: ps) sep.
Proof.
  destruct ps as [|r ps]; [done|]. rewrite !Join_cons_cons.
  by rewrite <- !app_assoc.
Qed.

Lemma foldl_writeParagraph_Join ps p :
  p <> [] -> Forall (fun q => q <> []) ps ->
  foldl writeParagraph p ps = Join (p :: ps) [NL; NL].
Proof.
  intros Hp Hps. revert p Hp. induction Hps as [|q ps Hq _ IH]; intros p Hp.
  - done.
  - cbn [foldl]. unfold writeParagraph at 2.
    rewrite bool_decide_true by (destruct p; [done|simpl; lia]).
    rewrite IH by (by destruct p).
    rewrite <- app_assoc. by rewrite Join_cons_app.
Qed.

Lemma Forall_concat_tight (cs : list (list (list Z))) :
  Forall (fun q => tight q = true) (concat cs) ->
  Forall (fun c => Forall (fun q => tight q = true) c) cs.
Proof.
  induction cs as [|c cs IH]; [constructor|]. cbn [concat].
  intros [H1 H2]%Forall_app. constructor; [done|by apply IH].
Qed.

Lemma paragraphs_tight f text :
  Forall (fun p => tight p = true) (paragraphs f text).
Proof.
  unfold paragraphs. apply Forall_map.
  destruct (decide (TrimSpace text = [])) as [Hnil|Hne].
  { unfold chunks. apply streq_true in Hnil. rewrite Hnil. constructor. }
  destruct (splitIntoSentences_pieces text Hne) as (_ & Ht & _).
  rewrite <- (chunks_concat f text Hne) in Ht.
  apply Forall_concat_tight in Ht.
  pose proof (chunks_nonempty f text) as Hn.
  induction Hn as [|c cs Hc Hcs IH]; [constructor|].
  inversion Ht; subst. constructor; [by apply paragraphText_tight|by apply IH].
Qed.

Lemma replaceLoop_Forall (P : Z -> Prop) m n s :
  (forall t repl rest, m t = Some (repl, rest) ->
     Forall P t -> Forall P repl /\ Forall P rest) ->
  Forall P s -> Forall P (replaceLoop m n s).
Proof.
  intros Hm. revert s. induction n as [|n IH]; intros s Hs; [done|].
  destruct s as [|c s]; [done|]. cbn [replaceLoop].
  destruct (m (c :: s)) as [[repl rest]|] eqn:E.
  - destruct (Hm _ _ _ E Hs) as [H1 H2]. apply Forall_app. split; [done|].
    by apply IH.
  - inversion Hs; subst. constructor; [done|]. by apply IH.
Qed.

Lemma dropWhile_Forall (P : Z -> Prop) p s :
  Forall P s -> Forall P (dropWhile p s).
Proof.
  induction 1 as [|c s Hc Hs IH]; [constructor|]. simpl.
  destruct (p c); [done|by constructor].
Qed.

Lemma TrimSpace_Forall (P : Z -> Prop) s :
  Forall P s -> Forall P (TrimSpace s).
Proof.
  intros H. unfold TrimSpace.
  by apply List.Forall_rev, dropWhile_Forall, List.Forall_rev, dropWhile_Forall.
Qed.

Lemma ReplaceAll_no_NL s old new :
  Forall (fun c => c <> NL) new -> Forall (fun c => c <> NL) s ->
  Forall (fun c => c <> NL) (ReplaceAll s old new).
Proof.
  intros Hnew. apply replaceLoop_Forall. intros t repl rest.
  unfold matchLiteral. destruct (HasPrefix t old); [|done].
  intros [= <- <-] Ht. split; [done|]. by apply Forall_drop.
Qed.

Lemma squeezeRepeated_no_NL c s :
  c <> NL -> Forall (fun c => c <> NL) s ->
  Forall (fun c => c <> NL) (squeezeRepeated c s).
Proof.
  intros Hc. apply replaceLoop_Forall. intros t repl rest.
  unfold matchRepeated. destruct (takeWhile (Z.eqb c) t) as [|? [|? ?]];
    [done..|].
  intros [= <- <-] Ht. split; [by repeat constructor|].
  by apply dropWhile_Forall.
Qed.

(** cleanText leaves no newline in a paragraph. *)
Lemma cleanText_no_NL s : Forall (fun c => c <> NL) (cleanText s).
Proof.
  unfold cleanText. apply TrimSpace_Forall.
  do 3 (apply squeezeRepeated_no_NL; [done|]).
  do 4 (apply ReplaceAll_no_NL; [by repeat constructor|]).
  apply collapsed_no_NL, collapsed_collapseSpaces.
Qed.

Lemma Format_Join_paragraphs f text :
  Format f text = Join (paragraphs f text) [NL; NL].
Proof.
  pose proof (paragraphs_tight f text) as Ht.
  rewrite Format_paragraphs.
  destruct (paragraphs f text) as [|p ps] eqn:E; [done|].
  inversion Ht as [|? ? Hp Hps]; subst. cbn [foldl].
  unfold writeParagraph at 2. cbn [length app].
  rewrite bool_decide_false by lia. cbn [app].
  rewrite foldl_writeParagraph_Join.
  - by apply TrimSpace_tight, tight_Join.
  - by apply tight_nonempty.
  - eapply Forall_impl; [done|]. intros q. apply tight_nonempty.
Qed.

(** X4.  The output of Format is its paragraphs joined by one blank line
    each: every paragraph is tight and holds no newline, so the only
    newlines of the output are the separators, and neither the final
    TrimSpace nor the emptiness test of the builder ever changes
    anything. *)
Theorem Format_blank_line_separated (f : TextFormatter) (text : gostring) :
  Format f text = Join (paragraphs f text) [NL; NL]
  /\ Forall (fun p => tight p = true) (paragraphs f text)
  /\ Forall (fun p => Forall (fun c => c <> NL) p) (paragraphs f text).
Proof.
  split; [apply Format_Join_paragraphs|].
  split; [apply paragraphs_tight|].
  unfold paragraphs. apply Forall_map, Forall_forall. intros c _.
  apply cleanText_no_NL.
Qed.

(** X5.  Format returns the empty string exactly for blank inputs. *)
Theorem Format_empty_iff_blank (f : TextFormatter) (text : gostring) :
  Format f text = [] <-> TrimSpace text = [].
Proof.
  split.
  - intros HF. destruct (decide (TrimSpace text = [])) as [|Hne]; [done|].
    exfalso. pose proof (Format_Join_paragraphs f text) as HJ.
    pose proof (paragraphs_tight f text) as Ht.
    rewrite HJ in HF.
    assert (Hps : paragraphs f text <> []).
    { unfold paragraphs.
      pose proof (chunks_concat f text Hne) as Hc.
      pose proof (splitIntoSentences_nonempty text Hne) as Hs.
      destruct (chunks f text); [|done]. simpl in Hc. congruence. }
    pose proof (tight_Join _ [NL; NL] Hps Ht) as HT.
    rewrite HF in HT. done.
  - intros Hnil. unfold Format. apply streq_true in Hnil. by rewrite Hnil.
Qed.

(** ** The chunks *)

Lemma tentativeChunk_greedy f ss words sig :
  (words < targetWordCount f)%Z ->
  (length (tentativeChunk f ss words sig).1 < length ss ->
   (targetWordCount f <= words + wordsOf (tentativeChunk f ss words sig).1)%Z)
  /\ (words + wordsOf (removelast (tentativeChunk f ss words sig).1)
      < targetWordCount f)%Z.
Proof.
  revert words sig. induction ss as [|s ss IH]; intros words sig Hw.
  - simpl. split; lia.
  - cbn [tentativeChunk]. cbv zeta.
    destruct (targetWordCount f <=? words + countWords s)%Z eqn:E.
    + apply Z.leb_le in E. simpl. split; lia.
    + apply Z.leb_gt in E.
      match goal with |- context [tentativeChunk f ss ?w ?g] =>
        specialize (IH w g E);
        destruct (tentativeChunk f ss w g) as [chunk n] end.
      cbn [fst length] in *. destruct IH as [IH1 IH2]. split.
      * intros Hlen. cbn [wordsOf foldr]. fold (wordsOf chunk).
        specialize (IH1 ltac:(lia)). lia.
      * destruct chunk as [|c chunk]; [simpl; lia|].
        change (removelast (s :: c :: chunk))
          with (s :: removelast (c :: chunk)).
        cbn [wordsOf foldr]. fold (wordsOf (removelast (c :: chunk))). lia.
Qed.

(** X6.  The tentative chunk is greedy: it stops at the first sentence that
    brings the word count to the target of 50.  Without its last sentence it
    has fewer than 50 words, and when sentences are left over it has at
    least 50. *)
Theorem tentativeChunk_stops_at_target (sentences : list gostring) :
  (wordsOf (removelast (tentativeChunk NewTextFormatter sentences 0 0).1)
   < 50)%Z
  /\ (length (tentativeChunk NewTextFormatter sentences 0 0).1
        < length sentences ->
      (50 <= wordsOf (tentativeChunk NewTextFormatter sentences 0 0).1)%Z).
Proof.
  destruct (tentativeChunk_greedy NewTextFormatter sentences 0 0) as [H1 H2];
    [done|].
  cbn [targetWordCount NewTextFormatter] in *.
  split; [lia|]. intros H. specialize (H1 H). lia.
Qed.

Lemma tentativeChunk_stops_at_target_witness :
  (50 <= wordsOf (tentativeChunk NewTextFormatter manyWords 0 0).1)%Z.
Proof.
  apply (tentativeChunk_stops_at_target manyWords). vm_compute. lia.
Defined.

Lemma limitChunk_exact f chunk sig :
  (sig < maxSentencesPerChunk f)%Z ->
  (maxSentencesPerChunk f <= sig + Z.of_nat (significantCount f chunk))%Z ->
  (sig + Z.of_nat (significantCount f (limitChunk f chunk sig))
   = maxSentencesPerChunk f)%Z
  /\ exists s, last (limitChunk f chunk sig) = Some s
               /\ isSignificant f s = true.
Proof.
  revert sig. induction chunk as [|s chunk IH]; intros sig Hsig Hcount.
  - unfold significantCount in Hcount. simpl in Hcount. lia.
  - cbn [limitChunk]. rewrite significantCount_cons in Hcount.
    unfold isSignificant in *.
    destruct (minWordsForSignificantSentence f <=? countWords s)%Z eqn:Es.
    + destruct (maxSentencesPerChunk f <=? sig + 1)%Z eqn:Em.
      * apply Z.leb_le in Em. split.
        -- rewrite significantCount_cons. unfold isSignificant. rewrite Es.
           unfold significantCount. simpl. lia.
        -- exists s. by split.
      * apply Z.leb_gt in Em.
        destruct (IH (sig + 1)%Z ltac:(lia) ltac:(lia)) as [H1 (x & Hx & Hs)].
        split.
        -- rewrite significantCount_cons. unfold isSignificant. rewrite Es.
           lia.
        -- exists x. split; [|done]. rewrite last_cons, Hx. done.
    + destruct (IH sig Hsig ltac:(lia)) as [H1 (x & Hx & Hs)]. split.
      * rewrite significantCount_cons. unfold isSignificant. rewrite Es. lia.
      * exists x. split; [|done]. rewrite last_cons, Hx. done.
Qed.

(** X7.  When the tentative chunk holds more than 4 significant sentences,
    the final chunk holds exactly 4 and ends with the fourth; otherwise the
    tentative chunk is kept whole. *)
Theorem finalChunk_cut (sentences : list gostring) :
  if (4 <? (tentativeChunk NewTextFormatter sentences 0 0).2)%Z
  then significantCount NewTextFormatter
         (finalChunk NewTextFormatter sentences) = 4
       /\ exists s, last (finalChunk NewTextFormatter sentences) = Some s
                    /\ isSignificant NewTextFormatter s = true
  else finalChunk NewTextFormatter sentences
       = (tentativeChunk NewTextFormatter sentences 0 0).1.
Proof.
  unfold finalChunk.
  pose proof (tentativeChunk_count NewTextFormatter sentences 0 0) as Hn.
  destruct (tentativeChunk NewTextFormatter sentences 0 0) as [chunk n].
  cbn [fst snd maxSentencesPerChunk NewTextFormatter] in *.
  destruct (4 <? n)%Z eqn:E; [|done]. apply Z.ltb_lt in E.
  destruct (limitChunk_exact NewTextFormatter chunk 0) as [H1 H2];
    [done|simpl; lia|].
  split; [|done]. simpl in H1. lia.
Qed.

(** ** The transcript of a run *)

Lemma Split_pieces_no_sep s sep :
  Forall (fun piece => Forall (fun c => c <> sep) piece) (Split s sep).
Proof.
  induction s as [|c s IH]; [by repeat constructor|]. cbn [Split].
  destruct (Z.eqb_spec c sep) as [->|Hc]; [by constructor|].
  destruct (Split s sep) as [|p ps]; [by repeat constructor|].
  inversion IH; subst. by repeat constructor.
Qed.

Lemma SplitN2_pieces_Forall (P : Z -> Prop) s sep :
  Forall P s -> Forall (fun piece => Forall P piece) (SplitN2 s sep).
Proof.
  induction 1 as [|c s Hc Hs IH]; [by repeat constructor|]. cbn [SplitN2].
  destruct (c =? sep)%Z; [by repeat constructor|].
  destruct (SplitN2 s sep) as [|p ps]; [by repeat constructor|].
  inversion IH; subst. by repeat constructor.
Qed.

Lemma contentOf_Forall (P : Z -> Prop) line text :
  Forall P line -> contentOf line = Some text -> Forall P text.
Proof.
  intros Hl. unfold contentOf.
  pose proof (SplitN2_pieces_Forall P line RBRACKET Hl) as Hp.
  destruct (SplitN2 line RBRACKET) as [|? [|after ?]]; [done..|].
  destruct (streq (TrimSpace after) []); [done|]. intros [= <-].
  apply TrimSpace_Forall. inversion Hp as [|? ? _ Hp']; subst.
  by inversion Hp'.
Qed.

Lemma contents_Forall (P : Z -> Prop) lines :
  Forall (fun line => Forall P line) lines ->
  Forall (fun text => Forall P text) (contents lines).
Proof.
  induction 1 as [|line lines Hl _ IH]; [constructor|]. cbn [contents].
  destruct (contentOf line) eqn:E; [|done].
  constructor; [by apply (contentOf_Forall P line)|done].
Qed.

Lemma fromFirstTimestamp_Forall (P : list Z -> Prop) lines :
  Forall P lines -> Forall P (fromFirstTimestamp lines).
Proof.
  induction 1 as [|line lines Hl Hls IH]; [constructor|].
  cbn [fromFirstTimestamp].
  destruct (Contains line (go "[00:")); [by constructor|done].
Qed.

Lemma Join_Forall (P : Z -> Prop) es sep :
  Forall P sep -> Forall (fun e => Forall P e) es -> Forall P (Join es sep).
Proof.
  intros Hsep. induction 1 as [|e es He Hes IH]; [constructor|].
  destruct es as [|e' es]; [done|]. rewrite Join_cons_cons.
  apply Forall_app. split; [done|]. apply Forall_app. by split.
Qed.

(** X8.  What Transcribe returns for a run that succeeded is either the raw
    output, untouched, or a single line: a text without newline that neither
    starts nor ends with white space. *)
Theorem parseOutput_raw_or_one_line (output : gostring) :
  parseOutput output = output
  \/ (tight (parseOutput output) = true
      /\ Forall (fun c => c <> NL) (parseOutput output)).
Proof.
  unfold parseOutput. cbv zeta. rewrite scanLines_transcriptOf.
  destruct (streq (transcriptOf output) []) eqn:E; [by left|right].
  apply streq_false in E. unfold transcriptOf in *. cbv zeta in *.
  set (lines := fromFirstTimestamp (map TrimSpace (Split output NL))) in *.
  split.
  - apply tight_Join; [|apply contents_tight].
    intros Hnil. by rewrite Hnil in E.
  - apply Join_Forall; [by repeat constructor|].
    apply contents_Forall, fromFirstTimestamp_Forall, Forall_map.
    eapply Forall_impl; [apply Split_pieces_no_sep|].
    intros line. apply TrimSpace_Forall.
Qed.

(** ** The model file *)

(** X9.  With a cache directory that is set, the file the service looks
    for and downloads is the file it hands to whisper-cli: for every model
    of the catalogue the path of the manager and the path Transcribe builds
    agree.  (With an empty cache directory they do not: the manager then
    works in .whisper of the home directory and the client in the working
    directory, see [empty_cache_dir_paths].) *)
Theorem model_path_agrees (homeDir : gostring) (o : Service.Options)
    (target : Models.ModelInfo) :
  Service.CacheDir o <> [] ->
  Models.findModel
    (Models.AvailableModels
       (Service.modelManager (Service.NewService homeDir o)))
    (Service.Model o) = Some target ->
  Models.Name target = Service.Model o
  /\ Models.Path target
     = modelPath (Service.whisperClient (Service.NewService homeDir o))
                 (Service.Model o).
Proof.
  intros Hdir. unfold Models.AvailableModels, modelPath.
  cbn [Service.NewService Service.modelManager Service.whisperClient
       modelsDir].
  unfold Models.NewManager.
  rewrite (proj2 (streq_false (Service.CacheDir o) []) Hdir).
  cbn [Models.cacheDir].
  repeat (cbn [Models.findModel];
          match goal with
          | |- context [streq (Models.Name ?m) ?n] =>
              destruct (streq (Models.Name m) n) eqn:?E;
                [apply streq_true in E; intros [= <-]; split; [done|];
                 rewrite <- E; reflexivity|clear E]
          end).
  done.
Qed.

Lemma model_path_agrees_witness :
  Models.Path Scenarios.tiny
  = modelPath (Service.whisperClient
                 (Service.NewService (go "/home/u") Scenarios.sampleOptions))
              (Service.Model Scenarios.sampleOptions).
Proof.
  apply (model_path_agrees (go "/home/u") Scenarios.sampleOptions
           Scenarios.tiny).
  - vm_compute. discriminate.
  - vm_compute. reflexivity.
Defined.

(** The same service with an empty cache directory, in the home directory
    /home/u: the manager keeps the model in /home/u/.whisper, whisper-cli is
    sent to the working directory. *)
Example empty_cache_dir_paths :
  let o := {| Service.Model := go "tiny";
              Service.OutputDir := [];
              Service.Workers := 4;
              Service.Recursive := false;
              Service.Timestamps := false;
              Service.Prompt := [];
              Service.Language := go "auto";
              Service.Format := go "txt";
              Service.CacheDir := [];
              Service.Quiet := true;
              Service.Verbose := false |} in
  let s := Service.NewService (go "/home/u") o in
  option_map Models.Path
    (Models.findModel (Models.AvailableModels (Service.modelManager s))
       (go "tiny"))
  = Some (go "/home/u/.whisper/ggml-tiny.bin")
  /\ modelPath (Service.whisperClient s) (go "tiny") = go "ggml-tiny.bin".
Proof. split; vm_compute; reflexivity. Qed.

(** X10.  A Download that succeeded need not be repeated: the same call
    on the world it left returns success again, makes no request and
    changes nothing. *)
Theorem Download_idempotent (env : Env) (m : Models.Manager)
    (modelName : gostring) (w w1 : World) :
  Models.Download env m modelName w = (w1, None) ->
  Models.Download env m modelName w1 = (w1, None).
Proof.
  unfold Models.Download.
  destruct (Models.findModel (Models.AvailableModels m) modelName)
    as [target|]; [|done].
  unfold Stat. destruct (files w !! Models.Path target) eqn:Es.
  { intros [= <-]. by rewrite Es. }
  destruct (httpGet env (Models.DownloadURL target)) as [|status body];
    [done|].
  destruct (negb (status =? 200)%Z); [done|].
  destruct (negb (canCreate env (Models.Path target))); [done|].
  unfold Models.copyBody. destruct (broken body); [done|].
  intros [= <-]. unfold writeData, setFiles. cbn [files].
  by rewrite lookup_insert_eq.
Qed.

Lemma Download_idempotent_witness :
  Models.Download Scenarios.fineEnv
    (Service.modelManager Scenarios.sampleService) (go "tiny")
    (Models.Download Scenarios.fineEnv
       (Service.modelManager Scenarios.sampleService) (go "tiny")
       Scenarios.emptyWorld).1
  = ((Models.Download Scenarios.fineEnv
        (Service.modelManager Scenarios.sampleService) (go "tiny")
        Scenarios.emptyWorld).1, None).
Proof.
  apply (Download_idempotent Scenarios.fineEnv _ _ Scenarios.emptyWorld).
  vm_compute. reflexivity.
Defined.

(** ** Discovery *)

Lemma toLowerRune_idem c : toLowerRune (toLowerRune c) = toLowerRune c.
Proof.
  unfold toLowerRune. destruct (isUpperAZ c) eqn:E; [|by rewrite E].
  assert (isUpperAZ (c + 32) = false) as -> by class_solve. done.
Qed.

Lemma ToLower_idem s : ToLower (ToLower s) = ToLower s.
Proof.
  unfold ToLower. rewrite map_map. apply map_ext. apply toLowerRune_idem.
Qed.

Lemma toLowerRune_slash c : isSlash (toLowerRune c) = isSlash c.
Proof.
  unfold toLowerRune, isSlash, SLASH.
  destruct (isUpperAZ c) eqn:E; [|done].
  destruct (Z.eqb_spec (c + 32) 47), (Z.eqb_spec c 47); try done;
    class_solve.
Qed.

Lemma toLowerRune_dot c : (toLowerRune c =? DOT)%Z = (c =? DOT)%Z.
Proof.
  unfold toLowerRune, DOT. destruct (isUpperAZ c) eqn:E; [|done].
  destruct (Z.eqb_spec (c + 32) 46), (Z.eqb_spec c 46); try done;
    class_solve.
Qed.

Lemma extFrom_ToLower reversed seen :
  extFrom (ToLower reversed) (ToLower seen) = ToLower (extFrom reversed seen).
Proof.
  revert seen. induction reversed as [|c r IH]; intros seen; [done|].
  cbn [ToLower map extFrom]. fold (ToLower r). fold (ToLower seen).
  rewrite toLowerRune_slash, toLowerRune_dot.
  destruct (isSlash c); [done|]. destruct (c =? DOT)%Z; [done|].
  apply (IH (c :: seen)).
Qed.

Lemma Ext_ToLower path : Ext (ToLower path) = ToLower (Ext path).
Proof.
  unfold Ext. unfold ToLower at 1. rewrite <- map_rev.
  apply (extFrom_ToLower (rev path) []).
Qed.

(** X11.  isAudioFile does not look at the case of the letters A-Z: a path
    and its lower-case form are accepted or rejected alike. *)
Theorem isAudioFile_ignores_case (path : gostring) (exts : list gostring) :
  Service.isAudioFile (ToLower path) exts = Service.isAudioFile path exts.
Proof.
  unfold Service.isAudioFile. cbv zeta. by rewrite Ext_ToLower, ToLower_idem.
Qed.

Lemma walkCallback_sound P visits acc found :
  (forall p, Service.isAudioFile p Service.supportedExts = true -> P p) ->
  Forall P acc -> Service.walkCallback visits acc = Ok found ->
  Forall P found.
Proof.
  intros HP. revert acc. induction visits as [|v visits IH]; intros acc Hacc.
  - by intros [= <-].
  - cbn [Service.walkCallback]. destruct (visitErr v); [done|].
    destruct (negb (visitIsDir v)) ; cbn [andb]; [|by apply IH].
    destruct (Service.isAudioFile (visitPath v) Service.supportedExts) eqn:E;
      [|by apply IH].
    apply IH. apply Forall_app. split; [done|]. by repeat constructor; apply HP.
Qed.

Lemma scanEntries_sound P input entries acc :
  (forall p, Service.isAudioFile p Service.supportedExts = true -> P p) ->
  Forall P acc -> Forall P (Service.scanEntries input entries acc).
Proof.
  intros HP. revert acc.
  induction entries as [|[name isDir] entries IH]; intros acc Hacc; [done|].
  cbn [Service.scanEntries]. cbv zeta.
  destruct (negb isDir); cbn [andb]; [|by apply IH].
  destruct (Service.isAudioFile (Join2 input name) Service.supportedExts)
    eqn:E; [|by apply IH].
  apply IH. apply Forall_app. split; [done|]. by repeat constructor; apply HP.
Qed.

Lemma findLoop_sound P env s w inputs acc found :
  (forall p, Service.isAudioFile p Service.supportedExts = true -> P p) ->
  Forall P acc -> Service.findLoop env s w inputs acc = Ok found ->
  Forall P found.
Proof.
  intros HP. revert acc. induction inputs as [|input inputs IH]; intros acc Hacc.
  - by intros [= <-].
  - cbn [Service.findLoop]. destruct (Stat w input) as [[|d]|]; [| |done].
    + destruct (Service.Recursive (Service.opts s)).
      * destruct (Service.walkCallback (walk env input) acc) as [acc'|e] eqn:E;
          [|done].
        apply IH. by apply (walkCallback_sound P _ _ _ HP Hacc E).
      * destruct (readDir env input) as [entries|]; [|done].
        apply IH. by apply scanEntries_sound.
    + destruct (Service.isAudioFile input Service.supportedExts) eqn:E;
        [|by apply IH].
      apply IH. apply Forall_app. split; [done|].
      by repeat constructor; apply HP.
Qed.

(** X12.  Every path findAudioFiles returns has one of the seven supported
    extensions, whether it was given as an input, listed in a directory or
    met on a walk. *)
Theorem findAudioFiles_only_audio (env : Env) (s : Service.Service)
    (w : World) (inputs found : list gostring) :
  Service.findAudioFiles env s w inputs = Ok found ->
  Forall (fun path => Service.isAudioFile path Service.supportedExts = true)
         found.
Proof. apply findLoop_sound; [done|constructor]. Qed.

Lemma findAudioFiles_only_audio_witness :
  Forall (fun path => Service.isAudioFile path Service.supportedExts = true)
         [go "/in/a.mp3"].
Proof.
  apply (findAudioFiles_only_audio Scenarios.fineEnv Scenarios.sampleService
           Scenarios.transcribedWorld [go "/in/a.mp3"; go "/in/a.txt"]).
  vm_compute. reflexivity.
Defined.

Lemma findLoop_files env s w inputs acc :
  Forall (fun input => exists d, Stat w input = Some (File d)) inputs ->
  Service.findLoop env s w inputs acc
  = Ok (acc ++ filter (fun p => Service.isAudioFile p Service.supportedExts
                                = true) inputs).
Proof.
  intros H. revert acc. induction H as [|input inputs [d Hd] _ IH]; intros acc.
  - simpl. by rewrite app_nil_r.
  - cbn [Service.findLoop]. rewrite Hd, filter_cons.
    destruct (Service.isAudioFile input Service.supportedExts) eqn:E.
    + rewrite decide_True by done. rewrite IH. by rewrite <- app_assoc.
    + rewrite decide_False by done. by rewrite IH.
Qed.

(** X13.  When every input is a regular file, findAudioFiles returns the
    inputs with a supported extension, in the order given and as often as
    given; the other inputs are dropped without an error. *)
Theorem findAudioFiles_of_files (env : Env) (s : Service.Service)
    (w : World) (inputs : list gostring) :
  Forall (fun input => exists d, Stat w input = Some (File d)) inputs ->
  Service.findAudioFiles env s w inputs
  = Ok (filter (fun p => Service.isAudioFile p Service.supportedExts = true)
               inputs).
Proof. intros H. by apply (findLoop_files env s w inputs []). Qed.

Lemma findAudioFiles_of_files_witness :
  Service.findAudioFiles Scenarios.fineEnv Scenarios.sampleService
    Scenarios.transcribedWorld [go "/in/a.txt"; go "/in/a.mp3"; go "/in/a.mp3"]
  = Ok (filter (fun p => Service.isAudioFile p Service.supportedExts = true)
               [go "/in/a.txt"; go "/in/a.mp3"; go "/in/a.mp3"]).
Proof.
  apply (findAudioFiles_of_files Scenarios.fineEnv Scenarios.sampleService
           Scenarios.transcribedWorld).
  repeat constructor; eexists; vm_compute; reflexivity.
Defined.

(** ** The converted file *)

Lemma ConvertToWav_path env p inputPath w w' out :
  AudioProcessor.ConvertToWav env p inputPath w = (w', Ok out) ->
  out = convertedPath p inputPath
  /\ is_Some (files w' !! out)
  /\ (forall q, is_Some (files w !! q) -> is_Some (files w' !! q)).
Proof.
  unfold AudioProcessor.ConvertToWav, convertedPath. cbv zeta.
  destruct (Stat w inputPath); [|done].
  destruct (ffmpegConvert env inputPath).
  - intros [= <- <-]. split; [done|]. unfold writeData, setFiles. cbn [files].
    split; [by rewrite lookup_insert_eq|]. intros q Hq.
    rewrite lookup_insert. by case_decide.
  - unfold Stat.
    match goal with |- context [files w !! ?p] =>
      destruct (files w !! p) eqn:E end; [|done].
    intros [= <- <-]. by rewrite E.
  - done.
Qed.

Lemma Base_cases path :
  Base path = [SLASH]
  \/ (Base path <> [] /\ Forall (fun c => c <> SLASH) (Base path)).
Proof.
  unfold Base. destruct (streq path []); [right; split; [done|]|].
  { repeat constructor; done. }
  cbv zeta.
  set (last := rev (takeWhile (fun c => negb (isSlash c))
                              (dropWhile isSlash (rev path)))).
  destruct (streq last []) eqn:E; [by left|right].
  apply streq_false in E. split; [done|].
  apply List.Forall_rev.
  eapply Forall_impl; [apply takeWhile_Forall|].
  intros c Hc ->. done.
Qed.

Lemma TrimSuffix_Forall (P : Z -> Prop) s suffix :
  Forall P s -> Forall P (TrimSuffix s suffix).
Proof.
  intros H. unfold TrimSuffix.
  destruct (HasPrefix (rev s) (rev suffix)); [by apply Forall_take|done].
Qed.

Lemma HasPrefix_app p s : HasPrefix (p ++ s) p = true.
Proof.
  induction p as [|c p IH]; [apply HasPrefix_nil|].
  cbn [app HasPrefix]. by rewrite Z.eqb_refl, IH.
Qed.

Lemma Clean_in_temp name :
  Forall (fun c => c <> SLASH) name ->
  name <> [] -> name <> go "." -> name <> go ".." ->
  Clean (go "/tmp/ghospel" ++ [SLASH] ++ name) = go "/tmp/ghospel/" ++ name.
Proof.
  intros Hs H0 H1 H2. unfold Clean.
  assert (HasPrefix (go "/tmp/ghospel" ++ [SLASH] ++ name) [SLASH] = true)
    as ->.
  { change (go "/tmp/ghospel" ++ [SLASH] ++ name)
      with ([SLASH] ++ (go "tmp/ghospel" ++ [SLASH] ++ name)).
    apply HasPrefix_app. }
  change (go "/tmp/ghospel" ++ [SLASH] ++ name)
    with ([] ++ SLASH :: (go "tmp" ++ SLASH :: (go "ghospel" ++ SLASH :: name))).
  cbv zeta.
  rewrite !Split_app_sep by (by repeat constructor).
  rewrite (Split_no_sep name SLASH Hs). cbn [foldl].
  change (cleanStep true [] []) with (@nil (list Z)).
  change (cleanStep true [] (go "tmp")) with [go "tmp"].
  change (cleanStep true [go "tmp"] (go "ghospel")) with [go "ghospel"; go "tmp"].
  unfold cleanStep.
  apply streq_false in H0, H1, H2. rewrite H0, H1, H2. cbn [orb].
  cbn [rev app]. rewrite !Join_cons_cons. cbn [Join].
  unfold streq at 1. by rewrite bool_decide_false.
Qed.

(** The converted file of the service lies in /tmp/ghospel and its name
    ends in _converted.wav. *)
Lemma convertedPath_shape homeDir o inputPath :
  exists stem,
    convertedPath (Service.audioProcessor (Service.NewService homeDir o)) inputPath
    = go "/tmp/ghospel/" ++ stem ++ go "_converted.wav".
Proof.
  unfold convertedPath. cbv zeta.
  cbn [Service.NewService Service.audioProcessor AudioProcessor.tempDir].
  destruct (Base_cases inputPath) as [Hroot|[Hne Hs]].
  - rewrite Hroot. exists []. vm_compute. reflexivity.
  - set (stem := TrimSuffix (Base inputPath) (Ext (Base inputPath))).
    exists stem. unfold Join2.
    change (negb (streq (go "/tmp/ghospel") [])) with true. cbv iota.
    apply Clean_in_temp.
    + apply Forall_app. split; [by apply TrimSuffix_Forall|].
      by repeat constructor.
    + by destruct stem.
    + intros H. apply (f_equal length) in H. rewrite length_app in H.
      simpl in H. lia.
    + intros H. apply (f_equal length) in H. rewrite length_app in H.
      simpl in H. lia.
Qed.

Lemma Ext_wav x : Ext (x ++ go ".wav") = go ".wav".
Proof. unfold Ext. rewrite rev_app_distr. reflexivity. Qed.

Lemma Contains_HasPrefix s substr :
  HasPrefix s substr = true -> Contains s substr = true.
Proof. intros H. destruct s; cbn [Contains]; by rewrite H. Qed.

Lemma convertedPath_facts homeDir o inputPath :
  Contains (convertedPath (Service.audioProcessor (Service.NewService homeDir o))
                          inputPath) (go "/tmp/ghospel") = true
  /\ HasPrefix (convertedPath (Service.audioProcessor (Service.NewService homeDir o))
                              inputPath) (go "/tmp/ghospel/") = true
  /\ Ext (convertedPath (Service.audioProcessor (Service.NewService homeDir o))
                        inputPath) = go ".wav".
Proof.
  destruct (convertedPath_shape homeDir o inputPath) as [stem ->].
  split; [|split].
  - apply Contains_HasPrefix.
    change (go "/tmp/ghospel/" ++ stem ++ go "_converted.wav")
      with (go "/tmp/ghospel" ++ (SLASH :: stem ++ go "_converted.wav")).
    apply HasPrefix_app.
  - apply HasPrefix_app.
  - change (go "_converted.wav") with (go "_converted" ++ go ".wav").
    rewrite !app_assoc. apply Ext_wav.
Qed.

Lemma Cleanup_converted homeDir o inputPath x :
  AudioProcessor.Cleanup (Service.audioProcessor (Service.NewService homeDir o))
    (convertedPath (Service.audioProcessor (Service.NewService homeDir o)) inputPath) x
  = Remove x (convertedPath (Service.audioProcessor (Service.NewService homeDir o))
                            inputPath).
Proof.
  destruct (convertedPath_facts homeDir o inputPath) as (Hc & _ & _).
  unfold AudioProcessor.Cleanup.
  change (AudioProcessor.tempDir
            (Service.audioProcessor (Service.NewService homeDir o)))
    with (go "/tmp/ghospel").
  by rewrite Hc.
Qed.

(** X14.  When ConvertToWav of the service succeeds, the path it returns
    is that of an existing file directly under /tmp/ghospel whose extension
    is .wav, so that Cleanup accepts it; and no file that was there before
    has disappeared. *)
Theorem ConvertToWav_output (env : Env) (homeDir : gostring)
    (o : Service.Options)
    (inputPath out : gostring) (w w' : World) :
  AudioProcessor.ConvertToWav env
    (Service.audioProcessor (Service.NewService homeDir o)) inputPath w
  = (w', Ok out) ->
  HasPrefix out (go "/tmp/ghospel/") = true
  /\ Ext out = go ".wav"
  /\ is_Some (files w' !! out)
  /\ AudioProcessor.Cleanup (Service.audioProcessor (Service.NewService homeDir o))
       out w' = Remove w' out
  /\ forall q, is_Some (files w !! q) -> is_Some (files w' !! q).
Proof.
  intros (-> & Hout & Hkeep)%ConvertToWav_path.
  destruct (convertedPath_facts homeDir o inputPath) as (Hc & Hp & He).
  repeat split; try done. apply Cleanup_converted.
Qed.

Lemma ConvertToWav_output_witness :
  Ext (go "/tmp/ghospel/a_converted.wav") = go ".wav".
Proof.
  eapply (ConvertToWav_output Scenarios.fineEnv (go "/home/u")
            Scenarios.sampleOptions
            (go "/in/a.mp3") (go "/tmp/ghospel/a_converted.wav")
            Scenarios.transcribedWorld).
  vm_compute. reflexivity.
Defined.

(** ** What a job leaves behind *)

Lemma prepareAudioFile_convert env s inputPath w :
  ToLower (Ext inputPath) <> go ".wav" ->
  Service.prepareAudioFile env s inputPath w
  = match AudioProcessor.ConvertToWav env (Service.audioProcessor s)
            inputPath w with
    | (w, Err e) => (w, Err e)
    | (w, Ok wavPath) => (w, Ok (wavPath, true))
    end.
Proof.
  intros H. unfold Service.prepareAudioFile. cbv zeta.
  apply streq_false in H. by rewrite H.
Qed.

(** X15.  For an input that is not a .wav file, once the conversion has
    succeeded the converted file is removed again, however the job ends:
    after transcribeFile either the job failed in the model or the audio
    stage, or there is no file at the converted path. *)
Theorem transcribeFile_removes_converted (env : Env) (homeDir : gostring)
    (o : Service.Options)
    (inputPath : gostring) (w : World) :
  ToLower (Ext inputPath) <> go ".wav" ->
  (exists e, (Service.transcribeFile env (Service.NewService homeDir o) inputPath w).2
             = Err (Wrapf "model preparation failed" e))
  \/ (exists e,
        (Service.transcribeFile env (Service.NewService homeDir o) inputPath w).2
        = Err (Wrapf "audio preparation failed" e))
  \/ files (Service.transcribeFile env (Service.NewService homeDir o) inputPath w).1
       !! convertedPath (Service.audioProcessor (Service.NewService homeDir o))
                        inputPath = None.
Proof.
  intros Hext. unfold Service.transcribeFile. cbv zeta.
  destruct (Service.getOutputPath (Service.NewService homeDir o) inputPath w)
    as [w0 outputPath].
  destruct (Service.ensureModelDownloaded env (Service.NewService homeDir o) w0)
    as [w1 [e|]]; [left; by eexists|right].
  rewrite (prepareAudioFile_convert _ _ _ _ Hext).
  destruct (AudioProcessor.ConvertToWav env
              (Service.audioProcessor (Service.NewService homeDir o)) inputPath w1)
    as [w2 [wavPath|e]] eqn:Ec; [|left; by eexists].
  right.
  pose proof (ConvertToWav_path _ _ _ _ _ _ Ec) as (-> & _ & _).
  destruct (convertedPath_facts homeDir o inputPath) as (Hc & _ & _).
  set (conv := convertedPath (Service.audioProcessor (Service.NewService homeDir o))
                             inputPath) in *.
  assert (forall x : World,
            files (AudioProcessor.Cleanup
                     (Service.audioProcessor (Service.NewService homeDir o)) conv x)
            !! conv = None) as Hclean.
  { intros x. unfold conv. rewrite Cleanup_converted.
    unfold Remove, setFiles. cbn [files]. apply lookup_delete_eq. }
  destruct (Transcribe env (Service.whisperClient (Service.NewService homeDir o))
              conv (Service.Model (Service.opts (Service.NewService homeDir o))))
    as [transcription|e]; [|apply Hclean].
  destruct (WriteFile env w2 outputPath _) as [w3 [e|]]; apply Hclean.
Qed.

Lemma transcribeFile_removes_converted_witness :
  files (Service.transcribeFile Scenarios.fineEnv
           (Service.NewService (go "/home/u") Scenarios.sampleOptions)
           (go "/in/a.mp3") Scenarios.transcribedWorld).1
    !! go "/tmp/ghospel/a_converted.wav" = None.
Proof.
  destruct (transcribeFile_removes_converted Scenarios.fineEnv
              (go "/home/u") Scenarios.sampleOptions (go "/in/a.mp3")
              Scenarios.transcribedWorld) as [[e H]|[[e H]|H]].
  - vm_compute. discriminate.
  - vm_compute in H. discriminate.
  - vm_compute in H. discriminate.
  - vm_compute. reflexivity.
Defined.

Lemma MkdirAll_keeps w dir q :
  is_Some (files w !! q) -> is_Some (files (MkdirAll w dir) !! q).
Proof.
  intros Hq. unfold MkdirAll. destruct (files w !! dir) eqn:E; [done|].
  unfold setFiles. cbn [files]. rewrite lookup_insert. by case_decide.
Qed.

Lemma writeData_keeps w path d q :
  is_Some (files w !! q) -> is_Some (files (writeData w path d) !! q).
Proof.
  intros Hq. unfold writeData, setFiles. cbn [files].
  rewrite lookup_insert. by case_decide.
Qed.

Lemma Remove_keeps w path q :
  q <> path -> is_Some (files w !! q) -> is_Some (files (Remove w path) !! q).
Proof.
  intros Hne Hq. unfold Remove, setFiles. cbn [files].
  by rewrite lookup_delete_ne.
Qed.

Lemma getOutputPath_keeps s inputPath w q :
  is_Some (files w !! q) ->
  is_Some (files (Service.getOutputPath s inputPath w).1 !! q).
Proof.
  intros Hq. unfold Service.getOutputPath. cbv zeta.
  destruct (negb (streq (Service.OutputDir (Service.opts s)) [])); [|done].
  by apply MkdirAll_keeps.
Qed.

Lemma Download_keeps env m modelName w q :
  is_Some (files w !! q) ->
  is_Some (files (Models.Download env m modelName w).1 !! q).
Proof.
  intros Hq. unfold Models.Download.
  destruct (Models.findModel (Models.AvailableModels m) modelName)
    as [target|]; [|done].
  unfold Stat. destruct (files w !! Models.Path target) eqn:Es; [done|].
  destruct (httpGet env (Models.DownloadURL target)) as [|status body];
    [done|].
  destruct (negb (status =? 200)%Z); [done|].
  destruct (negb (canCreate env (Models.Path target))); [done|].
  assert (q <> Models.Path target) as Hne.
  { intros ->. rewrite Es in Hq. by destruct Hq. }
  unfold Models.copyBody. destruct (broken body); cbn [fst].
  - apply Remove_keeps; [done|]. by do 2 apply writeData_keeps.
  - by do 2 apply writeData_keeps.
Qed.

Lemma ensureModelDownloaded_keeps env s w q :
  is_Some (files w !! q) ->
  is_Some (files (Service.ensureModelDownloaded env s w).1 !! q).
Proof.
  intros Hq. unfold Service.ensureModelDownloaded.
  destruct (Models.findModel _ _) as [target|]; [|done].
  destruct (Stat w (Models.Path target)); [done|]. by apply Download_keeps.
Qed.

Lemma ConvertToWav_failure_keeps env p inputPath w w' e :
  AudioProcessor.ConvertToWav env p inputPath w = (w', Err e) -> w' = w.
Proof.
  unfold AudioProcessor.ConvertToWav. cbv zeta.
  destruct (Stat w inputPath); [|by intros [= <-]].
  destruct (ffmpegConvert env inputPath); [done| |by intros [= <-]].
  destruct (Stat w _); [done|by intros [= <-]].
Qed.

Lemma WriteFile_keeps env w path content q :
  is_Some (files w !! q) ->
  is_Some (files (WriteFile env w path content).1 !! q).
Proof.
  intros Hq. unfold WriteFile. destruct (canCreate env path); [|done].
  by apply writeData_keeps.
Qed.

(** X16.  transcribeFile never deletes its input: whatever the collaborators
    answer and however the job ends, a file that stood at the input path
    before the job stands there after it. *)
Theorem transcribeFile_keeps_input (env : Env) (homeDir : gostring)
    (o : Service.Options)
    (inputPath : gostring) (w : World) :
  is_Some (files w !! inputPath) ->
  is_Some (files (Service.transcribeFile env (Service.NewService homeDir o)
                    inputPath w).1 !! inputPath).
Proof.
  intros Hin. unfold Service.transcribeFile. cbv zeta.
  pose proof (getOutputPath_keeps (Service.NewService homeDir o) inputPath w _ Hin)
    as H0.
  destruct (Service.getOutputPath (Service.NewService homeDir o) inputPath w)
    as [w0 outputPath]. cbn [fst] in H0.
  pose proof (ensureModelDownloaded_keeps env (Service.NewService homeDir o) w0 _ H0)
    as H1.
  destruct (Service.ensureModelDownloaded env (Service.NewService homeDir o) w0)
    as [w1 [e|]]; [done|]. cbn [fst] in H1.
  destruct (decide (ToLower (Ext inputPath) = go ".wav")) as [Hwav|Hext].
  - rewrite (prepareAudioFile_wav _ _ _ _ Hwav).
    destruct (Transcribe _ _ _ _) as [transcription|e]; [|done].
    pose proof (WriteFile_keeps env w1 outputPath
                  (Service.formatOutput (Service.NewService homeDir o) transcription
                     inputPath) _ H1) as H2.
    by destruct (WriteFile env w1 outputPath _) as [w3 [e|]].
  - rewrite (prepareAudioFile_convert _ _ _ _ Hext).
    destruct (AudioProcessor.ConvertToWav env
                (Service.audioProcessor (Service.NewService homeDir o)) inputPath w1)
      as [w2 [wavPath|e]] eqn:Ec.
    2: { apply ConvertToWav_failure_keeps in Ec. by subst. }
    pose proof (ConvertToWav_path _ _ _ _ _ _ Ec) as (-> & _ & Hkeep).
    specialize (Hkeep _ H1).
    destruct (convertedPath_facts homeDir o inputPath) as (_ & _ & He).
    assert (inputPath
            <> convertedPath (Service.audioProcessor (Service.NewService homeDir o))
                             inputPath) as Hne.
    { intros Heq. apply Hext. rewrite Heq at 1. by rewrite He. }
    destruct (Transcribe _ _ _ _) as [transcription|e].
    + pose proof (WriteFile_keeps env w2 outputPath
                    (Service.formatOutput (Service.NewService homeDir o) transcription
                       inputPath) _ Hkeep) as H2.
      destruct (WriteFile env w2 outputPath _) as [w3 [e|]]; cbn [fst] in *;
        rewrite Cleanup_converted; by apply Remove_keeps.
    + cbn [fst]. rewrite Cleanup_converted. by apply Remove_keeps.
Qed.

Lemma transcribeFile_keeps_input_witness :
  is_Some (files (Service.transcribeFile Scenarios.fineEnv
                    (Service.NewService (go "/home/u") Scenarios.sampleOptions)
                    (go "/in/a.mp3") Scenarios.transcribedWorld).1
           !! go "/in/a.mp3").
Proof.
  apply (transcribeFile_keeps_input Scenarios.fineEnv (go "/home/u")
           Scenarios.sampleOptions
           (go "/in/a.mp3") Scenarios.transcribedWorld).
  vm_compute. by eexists.
Defined.

(** ** The configuration *)

(** X17.  What Set stores under a key is what Get prints for that key:
    the value given, except for workers, where Set stores 4 whatever the
    value is. *)
Theorem Config_set_get (cfg cfg' : Config.Config) (key value : gostring) :
  Config.setValue cfg key value = Ok cfg' ->
  Config.Get cfg' key
  = Ok (if streq key (go "workers") then Config.Number 4
        else Config.Text value).
Proof.
  unfold Config.setValue, Config.Get.
  destruct (streq key (go "model")) eqn:E1.
  { apply streq_true in E1. subst key.
    destruct (Config.oneOf value Config.validModels); [|done].
    by intros [= <-]. }
  destruct (streq key (go "cache_dir")) eqn:E2.
  { apply streq_true in E2. subst key. by intros [= <-]. }
  destruct (streq key (go "workers")) eqn:E3.
  { by intros [= <-]. }
  destruct (streq key (go "language")) eqn:E4.
  { by intros [= <-]. }
  destruct (streq key (go "output_format")) eqn:E5.
  { destruct (Config.oneOf value Config.validFormats); [|done].
    by intros [= <-]. }
  destruct (streq key (go "ffmpeg_path")) eqn:E6; [|done].
  by intros [= <-].
Qed.

Lemma Config_set_get_witness :
  exists cfg',
    Config.setValue (Config.DefaultConfig (go "/home/u")) (go "model")
      (go "tiny") = Ok cfg'
    /\ Config.Get cfg' (go "model") = Ok (Config.Text (go "tiny")).
Proof.
  eexists. split; [cbv; reflexivity|].
  apply (Config_set_get (Config.DefaultConfig (go "/home/u")) _ (go "model")
           (go "tiny")).
  cbv. reflexivity.
Defined.

(** X18.  Set changes one key only: after a successful Set of [key], Get
    prints for every other key what it printed before. *)
Theorem Config_set_other_keys (cfg cfg' : Config.Config)
    (key value other : gostring) :
  Config.setValue cfg key value = Ok cfg' ->
  other <> key ->
  Config.Get cfg' other = Config.Get cfg other.
Proof.
  unfold Config.setValue. intros Hset Hne.
  destruct (streq key (go "model")) eqn:E1.
  { apply streq_true in E1. subst key.
    destruct (Config.oneOf value Config.validModels); [|done].
    injection Hset as <-. unfold Config.Get.
    rewrite (proj2 (streq_false other (go "model")) Hne). reflexivity. }
  destruct (streq key (go "cache_dir")) eqn:E2.
  { apply streq_true in E2. subst key.
    injection Hset as <-. unfold Config.Get.
    rewrite (proj2 (streq_false other (go "cache_dir")) Hne). reflexivity. }
  destruct (streq key (go "workers")) eqn:E3.
  { apply streq_true in E3. subst key.
    injection Hset as <-. unfold Config.Get.
    rewrite (proj2 (streq_false other (go "workers")) Hne). reflexivity. }
  destruct (streq key (go "language")) eqn:E4.
  { apply streq_true in E4. subst key.
    injection Hset as <-. unfold Config.Get.
    rewrite (proj2 (streq_false other (go "language")) Hne). reflexivity. }
  destruct (streq key (go "output_format")) eqn:E5.
  { apply streq_true in E5. subst key.
    destruct (Config.oneOf value Config.validFormats); [|done].
    injection Hset as <-. unfold Config.Get.
    rewrite (proj2 (streq_false other (go "output_format")) Hne). reflexivity. }
  destruct (streq key (go "ffmpeg_path")) eqn:E6; [|done].
  apply streq_true in E6. subst key.
  injection Hset as <-. unfold Config.Get.
  rewrite (proj2 (streq_false other (go "ffmpeg_path")) Hne). reflexivity.
Qed.

Lemma Config_set_other_keys_witness :
  exists cfg',
    Config.setValue (Config.DefaultConfig (go "/home/u")) (go "language")
      (go "de") = Ok cfg'
    /\ Config.Get cfg' (go "model")
       = Config.Get (Config.DefaultConfig (go "/home/u")) (go "model").
Proof.
  eexists. split; [cbv; reflexivity|].
  apply (Config_set_other_keys (Config.DefaultConfig (go "/home/u")) _
           (go "language") (go "de") (go "model")).
  - cbv. reflexivity.
  - cbv. discriminate.
Defined.

(** X19.  Set and Get know the same keys: Get answers that the key is
    unknown exactly when Set does, whatever the configuration and the value;
    the other two errors of Set (invalid model, invalid format) are about
    the value of a key Get can print. *)
Theorem Config_same_keys (cfg : Config.Config) (key value : gostring) :
  Config.Get cfg key = Err (Errorf "unknown config key")
  <-> Config.setValue cfg key value = Err (Errorf "unknown config key").
Proof.
  unfold Config.setValue, Config.Get.
  destruct (streq key (go "model")).
  { destruct (Config.oneOf value Config.validModels); split; discriminate. }
  destruct (streq key (go "cache_dir")); [split; discriminate|].
  destruct (streq key (go "workers")); [split; discriminate|].
  destruct (streq key (go "language")); [split; discriminate|].
  destruct (streq key (go "output_format")).
  { destruct (Config.oneOf value Config.validFormats); split; discriminate. }
  destruct (streq key (go "ffmpeg_path")); [split; discriminate|].
  done.
Qed.

Lemma oneOf_validModels value :
  Config.oneOf value Config.validModels = true ->
  forall m, exists model,
    Models.findModel (Models.AvailableModels m) value = Some model.
Proof.
  unfold Config.oneOf, Config.validModels. cbn [existsb].
  intros H m.
  repeat (apply orb_prop in H; destruct H as [H|H]); try discriminate;
    apply streq_true in H; subst value; eexists; vm_compute; reflexivity.
Qed.

(** X20.  A model name that Set accepts is one the service can prepare:
    with it as the model of the options, ensureModelDownloaded never
    answers that the model is unknown.  (The catalogue has four names more
    than Set accepts, the English-only models.) *)
Theorem Config_model_known (env : Env) (cfg cfg' : Config.Config)
    (value homeDir : gostring) (o : Service.Options) (w : World) :
  Config.setValue cfg (go "model") value = Ok cfg' ->
  Service.Model o = Config.Model cfg' ->
  (Service.ensureModelDownloaded env (Service.NewService homeDir o) w).2
  <> Some (Errorf "unknown model").
Proof.
  unfold Config.setValue.
  change (streq (go "model") (go "model")) with true. cbv iota.
  destruct (Config.oneOf value Config.validModels) eqn:Hv; [|done].
  intros [= <-] Hm. cbn [Config.Model] in Hm.
  destruct (oneOf_validModels _ Hv
              (Service.modelManager (Service.NewService homeDir o))) as [model Hf].
  unfold Service.ensureModelDownloaded.
  cbn [Service.opts Service.NewService Service.modelManager] in *.
  rewrite Hm, Hf.
  destruct (Stat w (Models.Path model)); [done|].
  unfold Models.Download. rewrite Hf.
  destruct (Stat w (Models.Path model)); [done|].
  destruct (httpGet env (Models.DownloadURL model)) as [|status body];
    [done|].
  destruct (negb (status =? 200)%Z); [done|].
  destruct (negb (canCreate env (Models.Path model))); [done|].
  unfold Models.copyBody. destruct (broken body); done.
Qed.

Lemma Config_model_known_witness :
  (Service.ensureModelDownloaded Scenarios.fineEnv
     (Service.NewService (go "/home/u") Scenarios.sampleOptions)
     Scenarios.emptyWorld).2
  <> Some (Errorf "unknown model").
Proof.
  eapply (Config_model_known Scenarios.fineEnv
            (Config.DefaultConfig (go "/home/u")) _ (go "tiny")).
  - cbv. reflexivity.
  - cbv. reflexivity.
Defined.

(** ** White space and paragraph length *)

Lemma Format_normalize f text : Format f (normalize text) = Format f text.
Proof.
  destruct (decide (TrimSpace text = [])) as [Hnil|Hne].
  - unfold normalize. rewrite Hnil. unfold Format.
    rewrite Hnil. reflexivity.
  - pose proof (normalize_tight text Hne) as Ht.
    pose proof (TrimSpace_tight _ Ht) as Htrim.
    assert (Hsplit : splitIntoSentences (normalize text)
                     = splitIntoSentences text).
    { unfold splitIntoSentences. rewrite Htrim.
      rewrite (collapseSpaces_collapsed (normalize text))
        by apply normalize_collapsed.
      reflexivity. }
    pose proof (splitIntoSentences_nonempty text Hne) as Hs.
    unfold Format. rewrite Htrim, Hsplit.
    rewrite (proj2 (streq_false (normalize text) [])) by by apply tight_nonempty.
    rewrite (proj2 (streq_false (TrimSpace text) [])) by done.
    rewrite bool_decide_false; [done|].
    destruct (splitIntoSentences text); [done|simpl; lia].
Qed.

(** X21.  Format sees its input up to white space only: two texts with the
    same white-space normal form (trimmed, every run of white space
    collapsed to one space) are formatted to the same output. *)
Theorem Format_white_space (f : TextFormatter) (a b : gostring) :
  normalize a = normalize b -> Format f a = Format f b.
Proof.
  intros H. rewrite <- (Format_normalize f a), <- (Format_normalize f b).
  by rewrite H.
Qed.

Lemma Format_white_space_witness :
  Format NewTextFormatter (go "  Hello   world. ")
  = Format NewTextFormatter (go "Hello world.").
Proof.
  apply (Format_white_space NewTextFormatter (go "  Hello   world. ")
           (go "Hello world.")).
  vm_compute. reflexivity.
Defined.

Lemma wordsOf_nonneg ss : (0 <= wordsOf ss)%Z.
Proof.
  induction ss as [|s ss IH]; [done|]. cbn [wordsOf foldr].
  fold (wordsOf ss). rewrite countWords_Fields. lia.
Qed.

Lemma wordsOf_removelast_prefix pre rest :
  (wordsOf (removelast pre) <= wordsOf (removelast (pre ++ rest)))%Z.
Proof.
  induction pre as [|x pre IH].
  - apply wordsOf_nonneg.
  - destruct pre as [|y pre].
    + apply wordsOf_nonneg.
    + change (removelast (x :: y :: pre)) with (x :: removelast (y :: pre)).
      change (removelast ((x :: y :: pre) ++ rest))
        with (x :: removelast ((y :: pre) ++ rest)).
      cbn [wordsOf foldr]. fold (wordsOf (removelast (y :: pre))).
      fold (wordsOf (removelast ((y :: pre) ++ rest))). lia.
Qed.

Lemma finalChunk_words f ss :
  (0 < targetWordCount f)%Z ->
  (wordsOf (removelast (finalChunk f ss)) < targetWordCount f)%Z.
Proof.
  intros Htarget. unfold finalChunk.
  destruct (tentativeChunk_greedy f ss 0 0 Htarget) as [_ H].
  destruct (tentativeChunk f ss 0 0) as [chunk n]. cbn [fst] in H.
  destruct (maxSentencesPerChunk f <? n)%Z; [|lia].
  destruct (limitChunk_prefix f chunk 0) as [rest Hrest].
  pose proof (wordsOf_removelast_prefix (limitChunk f chunk 0) rest) as Hle.
  rewrite <- Hrest in Hle. lia.
Qed.

Lemma chunksOf_words f fuel ss :
  (0 < targetWordCount f)%Z ->
  Forall (fun chunk =>
            (wordsOf (removelast chunk) < targetWordCount f)%Z)
         (chunksOf f fuel ss).
Proof.
  intros Htarget. revert ss.
  induction fuel as [|fuel IH]; intros ss; cbn [chunksOf]; [constructor|].
  destruct ss as [|s ss]; [constructor|].
  pose proof (finalChunk_words f (s :: ss) Htarget) as Hw.
  destruct (finalChunk f (s :: ss)) as [|x final]; [constructor|].
  constructor; [done|]. apply IH.
Qed.

(** X22.  No paragraph runs past the sentence that brings it to 50 words:
    in every chunk of sentences Format turns into a paragraph, the sentences
    before the last one have fewer than 50 words together. *)
Theorem chunks_word_bound (text : gostring) :
  Forall (fun chunk => (wordsOf (removelast chunk) < 50)%Z)
         (chunks NewTextFormatter text).
Proof.
  unfold chunks. destruct (streq (TrimSpace text) []); [constructor|].
  by apply (chunksOf_words NewTextFormatter).
Qed.

(** ** The information ffmpeg prints *)

Lemma dropWhile_app_stop (p : Z -> bool) a c y :
  p c = false -> dropWhile p (a ++ c :: y) = dropWhile p a ++ c :: y.
Proof.
  intros Hc. induction a as [|x a IH]; cbn [app dropWhile].
  - by rewrite Hc.
  - destruct (p x); [done|reflexivity].
Qed.

Lemma dropWhile_all_app (p : Z -> bool) a b :
  Forall (fun c => p c = true) a -> dropWhile p (a ++ b) = dropWhile p b.
Proof.
  induction 1 as [|x a Hx _ IH]; [done|]. cbn [app dropWhile].
  by rewrite Hx.
Qed.

Lemma isSpace_COMMA : isSpace COMMA = false.
Proof. reflexivity. Qed.

(** Trimming a line removes the leading white space and nothing up to its
    last comma. *)
Lemma TrimSpace_up_to_comma lead x rest :
  Forall (fun c => isSpace c = true) lead ->
  startsWord x = true ->
  TrimSpace (lead ++ x ++ COMMA :: rest)
  = x ++ COMMA :: rev (dropWhile isSpace (rev rest)).
Proof.
  intros Hlead Hx. unfold TrimSpace.
  rewrite (dropWhile_all_app isSpace lead _ Hlead).
  rewrite (dropWhile_startsWord (x ++ COMMA :: rest))
    by (destruct x; [done|exact Hx]).
  rewrite rev_app_distr. cbn [rev]. rewrite <- app_assoc. cbn [app].
  rewrite (dropWhile_app_stop isSpace (rev rest) COMMA (rev x) isSpace_COMMA).
  rewrite rev_app_distr. cbn [rev]. rewrite rev_involutive, <- app_assoc.
  reflexivity.
Qed.

Lemma TrimSpace_leading_space s : TrimSpace (SP :: s) = TrimSpace s.
Proof. reflexivity. Qed.

Lemma infoStep_duration_line info lead d rest :
  Forall (fun c => isSpace c = true) lead ->
  tight d = true ->
  Forall (fun c => c <> COMMA) d ->
  infoStep info (lead ++ go "Duration: " ++ d ++ COMMA :: rest)
    !! go "duration" = Some d.
Proof.
  intros Hlead Hd Hcomma. unfold infoStep. cbv zeta.
  rewrite (app_assoc (go "Duration: ") d (COMMA :: rest)).
  rewrite (TrimSpace_up_to_comma lead (go "Duration: " ++ d) rest Hlead)
    by reflexivity.
  set (rest' := rev (dropWhile isSpace (rev rest))).
  assert (Hc : Contains ((go "Duration: " ++ d) ++ COMMA :: rest')
                 (go "Duration:") = true).
  { apply Contains_HasPrefix. reflexivity. }
  rewrite Hc.
  rewrite (Split_app_sep (go "Duration: " ++ d) rest' COMMA).
  2:{ apply Forall_app. split; [|done].
      repeat (constructor; [discriminate|]). constructor. }
  assert (Hr : replaceFirst (go "Duration: " ++ d) (go "Duration:") []
               = SP :: d) by reflexivity.
  rewrite Hr, TrimSpace_leading_space, (TrimSpace_tight d Hd).
  destruct (Contains _ (go "Audio:")).
  - rewrite lookup_insert_ne by discriminate. apply lookup_insert_eq.
  - apply lookup_insert_eq.
Qed.

Lemma infoStep_other_line info line :
  Contains (TrimSpace line) (go "Duration:") = false ->
  infoStep info line !! go "duration" = info !! go "duration".
Proof.
  intros H. unfold infoStep. cbv zeta. rewrite H.
  destruct (Contains _ (go "Audio:")); [|done].
  by rewrite lookup_insert_ne by discriminate.
Qed.

Lemma foldl_infoStep_other info lines :
  Forall (fun line => Contains (TrimSpace line) (go "Duration:") = false)
         lines ->
  foldl infoStep info lines !! go "duration" = info !! go "duration".
Proof.
  intros H. revert info.
  induction H as [|line lines Hl _ IH]; intros info; [done|].
  cbn [foldl]. by rewrite IH, infoStep_other_line.
Qed.

(** X23.  GetAudioInfo finds the duration ffmpeg prints: for a line that
    reads, after any indentation, Duration: d, and more, where d holds no
    comma and no white space at its ends, and when no later line mentions
    Duration:, the map has d under the key duration. *)
Theorem parseLines_duration (before after : list gostring)
    (lead d rest : gostring) :
  Forall (fun c => isSpace c = true) lead ->
  tight d = true ->
  Forall (fun c => c <> COMMA) d ->
  Forall (fun line => Contains (TrimSpace line) (go "Duration:") = false)
         after ->
  parseLines
    (before ++ [lead ++ go "Duration: " ++ d ++ COMMA :: rest] ++ after)
    !! go "duration" = Some d.
Proof.
  intros Hlead Hd Hcomma Hafter. unfold parseLines.
  rewrite !foldl_app. cbn [foldl].
  rewrite (foldl_infoStep_other _ after Hafter).
  by apply infoStep_duration_line.
Qed.

Lemma parseLines_duration_witness :
  parseLines
    ([go "Input #0, mp3, from a.mp3:"]
     ++ [go "  " ++ go "Duration: " ++ go "00:01:23.45"
         ++ COMMA :: go " start: 0.000000, bitrate: 128 kb/s"]
     ++ [go "  Stream #0:0: Audio: mp3, 44100 Hz, stereo"])
    !! go "duration" = Some (go "00:01:23.45").
Proof.
  apply (parseLines_duration [go "Input #0, mp3, from a.mp3:"]
           [go "  Stream #0:0: Audio: mp3, 44100 Hz, stereo"]
           (go "  ") (go "00:01:23.45")
           (go " start: 0.000000, bitrate: 128 kb/s")).
  - repeat constructor.
  - vm_compute. reflexivity.
  - repeat (constructor; [discriminate|]). constructor.
  - constructor; [vm_compute; reflexivity|constructor].
Defined.

Lemma infoStep_no_duration info line :
  infoStep info line !! go "duration" = None
  <-> info !! go "duration" = None
      /\ Contains (TrimSpace line) (go "Duration:") = false.
Proof.
  destruct (Contains (TrimSpace line) (go "Duration:")) eqn:E.
  - split; [|by intros [_ ?]]. unfold infoStep. cbv zeta. rewrite E.
    destruct (Split_nonempty (TrimSpace line) COMMA) as (p & ps & ->).
    destruct (Contains _ (go "Audio:")).
    + rewrite lookup_insert_ne by discriminate.
      by rewrite lookup_insert_eq.
    + by rewrite lookup_insert_eq.
  - rewrite (infoStep_other_line info line E). split; [by intros Hn|].
    by intros [Hn _].
Qed.

Lemma foldl_infoStep_no_duration info lines :
  foldl infoStep info lines !! go "duration" = None
  <-> info !! go "duration" = None
      /\ Forall (fun line =>
                   Contains (TrimSpace line) (go "Duration:") = false) lines.
Proof.
  revert info. induction lines as [|line lines IH]; intros info.
  - cbn [foldl]. split; [intros Hn; split; [exact Hn|constructor]|].
    intros [Hn _]. exact Hn.
  - cbn [foldl]. rewrite IH, infoStep_no_duration, Forall_cons. tauto.
Qed.

(** X24.  The key duration is missing from the map of GetAudioInfo exactly
    when no line of the output, trimmed, contains Duration: (the caller then
    reads the empty string, which parseAudioDuration takes for zero). *)
Theorem GetAudioInfo_duration_missing (output : gostring) :
  GetAudioInfo output !! go "duration" = None
  <-> Forall (fun line => Contains (TrimSpace line) (go "Duration:") = false)
             (Split output NL).
Proof.
  unfold GetAudioInfo, parseLines.
  rewrite foldl_infoStep_no_duration, lookup_empty. tauto.
Qed.
